(** * DevCourt: the scene-progression core of [app.py]

    A shallow embedding of the story engine of the Streamlit script
    [src/app.py]: the response parser [parse_llm_json], the prompt
    composer [build_messages], and the session operations
    [start_new_adventure], [take_choice], the "Begin Adventure" branch
    and the "Restart session" button, over an explicit model of
    [st.session_state].

    Conventions of the embedding.
    - A Python [str] is a list of Unicode code points ([str := list N]).
    - A Python value is a [pyval]; a [dict] is an insertion-ordered
      association list with distinct keys, as CPython dicts iterate.
    - The two dict objects the script shares by reference (the player
      character and the scene entries) live in a heap of objects; the
      session state holds references to them.
    - [json.loads] is the decoder of CPython's [json] module (the C
      scanner, [strict=True]); it is not part of the repository and is
      modelled here from its implementation, with the limit of 4300
      digits on integer literals.  A Python float is a binary64
      (Rocq's primitive float): literals are rounded as [float(text)]
      rounds them, sums are IEEE sums, and an int too large for a float
      raises [OverflowError] when it meets one.  The interpreter's
      recursion limit is outside the model.
    - The OpenAI call is a parameter ([backend]): any function from the
      request to a completion or a failure.  The request holds the
      prompt as [build_messages] assembles it, before [json.dumps], the
      f-string and [textwrap.dedent] turn it into text; the text is a
      function of that record, so a backend that reads the text is one
      of the backends quantified over.  What a handler does once the
      backend has been asked is modelled in full; the [ValueError] of
      [json.dumps(pc)] for an int of more than 4300 digits, raised
      while the text is composed, is not a path of the handlers here
      (the encoder itself is modelled further down).
    - Streamlit's widgets are not modelled; each handler of the script
      is a function on the session, and [reachable] lists which handler
      the page offers in which state. *)

From Stdlib Require Import ZArith NArith String Ascii Bool Lia.
From Stdlib Require Floats.
From stdpp Require Import base option list.

Local Open Scope N_scope.

(** ** Python strings *)

Definition char := N.
Definition str := list char.

(** [u s] is the Python string whose code points are the bytes of the
    literal [s] (used for ASCII literals only). *)
Definition u (s : string) : str :=
  map N_of_ascii (list_ascii_of_string s).

Definition DQUOTE : char := 34.
Definition APOSTROPHE : char := 39.
Definition BACKSLASH : char := 92.
Definition LBRACE : char := 123.
Definition RBRACE : char := 125.
Definition LBRACKET : char := 91.
Definition RBRACKET : char := 93.
Definition COLON : char := 58.
Definition COMMA : char := 44.
Definition LF : char := 10.
Definition BOM : char := 65279.

(** [q s] is [u s] with every apostrophe turned into a double quote, so
    that JSON texts can be written as literals: [q "{'a':1}"] is the
    text [{"a":1}]. *)
Definition q (s : string) : str :=
  map (fun c => if c =? APOSTROPHE then DQUOTE else c) (u s).

Fixpoint str_eqb (a b : str) : bool :=
  match a, b with
  | [], [] => true
  | x :: a', y :: b' => (x =? y) && str_eqb a' b'
  | _, _ => false
  end.

(** [str.isspace] on one code point (CPython's [_PyUnicode_IsWhitespace]). *)
Definition py_isspace (c : char) : bool :=
  ((9 <=? c) && (c <=? 13)) || ((28 <=? c) && (c <=? 32))
  || (c =? 133) || (c =? 160) || (c =? 5760)
  || ((8192 <=? c) && (c <=? 8202))
  || (c =? 8232) || (c =? 8233) || (c =? 8239) || (c =? 8287)
  || (c =? 12288).

Fixpoint lstrip_by (p : char -> bool) (s : str) : str :=
  match s with
  | c :: s' => if p c then lstrip_by p s' else s
  | [] => []
  end.

Definition rstrip_by (p : char -> bool) (s : str) : str :=
  reverse (lstrip_by p (reverse s)).

Definition strip_by (p : char -> bool) (s : str) : str :=
  rstrip_by p (lstrip_by p s).

(** [s.strip()] *)
Definition strip (s : str) : str := strip_by py_isspace s.

(** [s.strip(chars)]: [chars] is a set of code points, not a prefix. *)
Definition strip_chars (chars : str) (s : str) : str :=
  strip_by (fun c => existsb (N.eqb c) chars) s.

(** [s.index(c)] for a one-character needle; [None] is [ValueError]. *)
Fixpoint str_index (s : str) (c : char) : option nat :=
  match s with
  | [] => None
  | x :: s' => if x =? c then Some O else S <$> str_index s' c
  end.

(** [s[start:]] for [0 <= start]. *)
Definition slice_from (start : nat) (s : str) : str := drop start s.

(** ** Python values *)

(** A Python [float] is an IEEE 754 binary64, Rocq's primitive float. *)
Definition pyfloat : Set := PrimFloat.float.

(** The double nearest to [m * 2^e], ties to even; an infinity when the
    rounded value is out of range. *)
Definition round_binary64 (m e : Z) (negative_zero : bool) : pyfloat :=
  FloatOps.SF2Prim
    (SpecFloat.binary_normalize FloatOps.prec FloatOps.emax m e negative_zero).

(** [float(z)] for an int, as [+] converts it when the other operand is
    a float; [None] is [OverflowError] (int too large to convert). *)
Definition float_of_Z (z : Z) : option pyfloat :=
  let f := round_binary64 z 0 false in
  if PrimFloat.is_infinity f then None else Some f.

(** [float(text)] for the decimal literal [m * 10^e] with [0 <= m],
    correctly rounded: it overflows to an infinity and underflows to a
    zero, which keeps the sign.  Every double and every midpoint of two
    doubles is a multiple of [2^-1075], so a quotient cut at that bit,
    with one more bit telling whether anything was cut off, rounds as
    the exact value does. *)
Definition float_of_decimal (negative : bool) (m e : Z) : pyfloat :=
  let sign (z : Z) := if negative then (- z)%Z else z in
  if (0 <=? e)%Z then round_binary64 (sign (m * 10 ^ e)%Z) 0 negative
  else
    let d := (10 ^ (- e))%Z in
    let n := (m * 2 ^ 1075)%Z in
    let cut := if (n mod d =? 0)%Z then 0%Z else 1%Z in
    round_binary64 (sign (2 * (n / d) + cut)%Z) (-1076) negative.

(** The exceptions the script can end with. *)
Inductive exn :=
| AttributeError
| TypeError
| KeyError
| OverflowError
| ValueError.

#[warnings="-register-all"]
Inductive pyval :=
| PNone
| PBool (b : bool)
| PInt (z : Z)
| PFloat (f : pyfloat)
| PStr (s : str)
| PList (l : list pyval)
| PDict (d : list (str * pyval)).

Definition dict := list (str * pyval).

(** [d.get(k)], with [None] for an absent key kept apart from a stored
    [PNone]. *)
Fixpoint dict_lookup (d : dict) (k : str) : option pyval :=
  match d with
  | [] => None
  | (k', v) :: d' => if str_eqb k' k then Some v else dict_lookup d' k
  end.

(** [d.get(k, default)] *)
Definition dict_get (d : dict) (k : str) (default : pyval) : pyval :=
  match dict_lookup d k with
  | Some v => v
  | None => default
  end.

(** [d[k] = v]: an existing key keeps its position, a new key goes last. *)
Fixpoint dict_set (d : dict) (k : str) (v : pyval) : dict :=
  match d with
  | [] => [(k, v)]
  | (k', v') :: d' =>
      if str_eqb k' k then (k', v) :: d' else (k', v') :: dict_set d' k v
  end.

Definition keys (d : dict) : list str := map fst d.

(** [bool(v)] *)
Definition py_truthy (v : pyval) : bool :=
  match v with
  | PNone => false
  | PBool b => b
  | PInt z => negb (z =? 0)%Z
  | PFloat f => negb (PrimFloat.eqb f PrimFloat.zero)
  | PStr s => negb (length s =? 0)%nat
  | PList l => negb (length l =? 0)%nat
  | PDict d => negb (length d =? 0)%nat
  end.

(** [isinstance(v, (int, float))]; [bool] is a subclass of [int]. *)
Definition isinstance_int_float (v : pyval) : bool :=
  match v with
  | PBool _ | PInt _ | PFloat _ => true
  | _ => false
  end.

(** [a + b] on two floats: the IEEE sum. *)
Definition float_add (a b : pyfloat) : pyfloat := PrimFloat.add a b.

Definition Z_of_bool (b : bool) : Z := if b then 1%Z else 0%Z.

(** The numeric tower of [+]: what [a + b] is when both are numbers. *)
Inductive number :=
| NInt (z : Z)
| NFloat (f : pyfloat).

Definition as_number (v : pyval) : option number :=
  match v with
  | PBool b => Some (NInt (Z_of_bool b))
  | PInt z => Some (NInt z)
  | PFloat f => Some (NFloat f)
  | _ => None
  end.

(** [a + b] on two numbers: exact on two ints; with a float, the int
    is converted first and the sum is the IEEE one.  [None] is the
    [OverflowError] of that conversion. *)
Definition number_add (a b : number) : option pyval :=
  match a, b with
  | NInt x, NInt y => Some (PInt (x + y))
  | NInt x, NFloat g => f ← float_of_Z x; Some (PFloat (float_add f g))
  | NFloat f, NInt y => g ← float_of_Z y; Some (PFloat (float_add f g))
  | NFloat f, NFloat g => Some (PFloat (float_add f g))
  end.

(** [old + delta] for a numeric [delta] (the only use in the script):
    the sum, or the exception Python raises, [TypeError] when [old] is
    a string, a list, a dict or [None], [OverflowError] when an int
    beyond the range of a float meets a float. *)
Definition py_add_number (old delta : pyval) : exn + pyval :=
  match as_number old, as_number delta with
  | Some a, Some b =>
      match number_add a b with
      | Some c => inr c
      | None => inl OverflowError
      end
  | _, _ => inl TypeError
  end.

(** ** The JSON decoder ([json.loads]) *)

(** Whitespace of the JSON grammar: space, tab, line feed, carriage
    return (narrower than [str.isspace]). *)
Definition json_ws (c : char) : bool :=
  (c =? 32) || (c =? 9) || (c =? 10) || (c =? 13).

Definition skip_ws (s : str) : str := lstrip_by json_ws s.

Definition is_digit (c : char) : bool := (48 <=? c) && (c <=? 57).

Definition hex_digit (c : char) : option N :=
  if (48 <=? c) && (c <=? 57) then Some (c - 48)
  else if (97 <=? c) && (c <=? 102) then Some (c - 87)
  else if (65 <=? c) && (c <=? 70) then Some (c - 55)
  else None.

Definition hex4 (a b c d : char) : option N :=
  x1 ← hex_digit a; x2 ← hex_digit b; x3 ← hex_digit c; x4 ← hex_digit d;
  Some (((x1 * 16 + x2) * 16 + x3) * 16 + x4).

Definition is_high_surrogate (c : N) : bool := (55296 <=? c) && (c <=? 56319).
Definition is_low_surrogate (c : N) : bool := (56320 <=? c) && (c <=? 57343).
Definition join_surrogates (hi lo : N) : N :=
  65536 + (hi - 55296) * 1024 + (lo - 56320).

(** The one-character backslash escapes. *)
Definition unescape (c : char) : option char :=
  if c =? DQUOTE then Some DQUOTE
  else if c =? BACKSLASH then Some BACKSLASH
  else if c =? 47 then Some 47
  else if c =? 98 then Some 8
  else if c =? 102 then Some 12
  else if c =? 110 then Some 10
  else if c =? 114 then Some 13
  else if c =? 116 then Some 9
  else None.

Definition push_char (c : char) (r : option (str * str)) : option (str * str) :=
  '(k, rest) ← r; Some (c :: k, rest).

(** [scanstring]: the input starts just after the opening quote; the
    result is the decoded string and the input after the closing quote.
    Control characters are refused ([strict]); a [\u] escape needs one
    more character after its four digits, and a high surrogate is joined
    with a following low-surrogate escape when at least seven characters
    remain, as the C scanner tests. *)
Fixpoint scanstring (s : str) : option (str * str) :=
  match s with
  | [] => None
  | c :: rest =>
      if c =? DQUOTE then Some ([], rest)
      else if c =? BACKSLASH then
        match rest with
        | [] => None
        | e :: rest1 =>
            if e =? 117 then
              match rest1 with
              | h1 :: h2 :: h3 :: h4 :: ((_ :: _) as rest2) =>
                  match hex4 h1 h2 h3 h4 with
                  | None => None
                  | Some c1 =>
                      match rest2 with
                      | b :: e2 :: g1 :: g2 :: g3 :: g4 :: ((_ :: _) as rest3) =>
                          if is_high_surrogate c1 && (b =? BACKSLASH) && (e2 =? 117)
                          then
                            match hex4 g1 g2 g3 g4 with
                            | None => None
                            | Some c2 =>
                                if is_low_surrogate c2
                                then push_char (join_surrogates c1 c2) (scanstring rest3)
                                else push_char c1 (scanstring rest2)
                            end
                          else push_char c1 (scanstring rest2)
                      | _ => push_char c1 (scanstring rest2)
                      end
                  end
              | _ => None
              end
            else
              match unescape e with
              | Some c' => push_char c' (scanstring rest1)
              | None => None
              end
        end
      else if c <=? 31 then None
      else push_char c (scanstring rest)
  end.

(** [starts_with p s]: the rest of [s] after the prefix [p]. *)
Fixpoint starts_with (p s : str) : option str :=
  match p, s with
  | [], _ => Some s
  | a :: p', b :: s' => if a =? b then starts_with p' s' else None
  | _ :: _, [] => None
  end.

Fixpoint span_digits (s : str) : str * str :=
  match s with
  | c :: s' =>
      if is_digit c then let '(ds, r) := span_digits s' in (c :: ds, r)
      else ([], s)
  | [] => ([], [])
  end.

Definition Z_of_digits (ds : str) : Z :=
  fold_left (fun acc c => (acc * 10 + Z.of_N (c - 48))%Z) ds 0%Z.

(** The integer part of a number: [0] alone, or a non-zero digit and
    any digits. *)
Definition int_digits (s : str) : option (str * str) :=
  match s with
  | c :: s' =>
      if c =? 48 then Some ([c], s')
      else if is_digit c then
        let '(ds, r) := span_digits s' in Some (c :: ds, r)
      else None
  | [] => None
  end.

(** [.digits], taken only when a digit follows the point. *)
Definition frac_digits (s : str) : option (str * str) :=
  match s with
  | p :: ((d :: _) as s') =>
      if (p =? 46) && is_digit d then Some (span_digits s') else None
  | _ => None
  end.

(** [e], an optional sign, digits; no digit means no exponent at all. *)
Definition exp_part (s : str) : option (Z * str) :=
  match s with
  | e :: s1 =>
      if (e =? 101) || (e =? 69) then
        let '(neg, s2) :=
          match s1 with
          | sg :: s2 =>
              if sg =? 45 then (true, s2)
              else if sg =? 43 then (false, s2)
              else (false, s1)
          | [] => (false, s1)
          end in
        match span_digits s2 with
        | ([], _) => None
        | (ds, r) => Some (if neg then (- Z_of_digits ds)%Z else Z_of_digits ds, r)
        end
      else None
  | [] => None
  end.

(** The most digits [int(text)] and [str(int)] accept
    ([sys.get_int_max_str_digits()], CPython's default). *)
Definition int_max_str_digits : Z := 4300.

(** [_match_number]: an [int] without fraction and exponent, a [float]
    otherwise.  An integer literal of more digits than the limit makes
    [int] raise [ValueError]; a float literal has no such limit. *)
Definition match_number (s : str) : option (pyval * str) :=
  let '(neg, s0) :=
    match s with
    | c :: s' => if c =? 45 then (true, s') else (false, s)
    | [] => (false, s)
    end in
  '(ints, s1) ← int_digits s0;
  let sign (z : Z) := if neg then (- z)%Z else z in
  let '(fracs, s2) :=
    match frac_digits s1 with
    | Some (fs, r) => (Some fs, r)
    | None => (None, s1)
    end in
  let '(ex, s3) :=
    match exp_part s2 with
    | Some (x, r) => (Some x, r)
    | None => (None, s2)
    end in
  match fracs, ex with
  | None, None =>
      if (int_max_str_digits <? Z.of_nat (length ints))%Z then None
      else Some (PInt (sign (Z_of_digits ints)), s3)
  | _, _ =>
      let fs := default [] fracs in
      let x := default 0%Z ex in
      Some (PFloat (float_of_decimal neg (Z_of_digits (ints ++ fs))
                                     (x - Z.of_nat (length fs))), s3)
  end.

(** The named constants of [scan_once], tried before a number. *)
Definition scan_constant (s : str) : option (pyval * str) :=
  match starts_with (u "null") s with
  | Some r => Some (PNone, r)
  | None =>
  match starts_with (u "true") s with
  | Some r => Some (PBool true, r)
  | None =>
  match starts_with (u "false") s with
  | Some r => Some (PBool false, r)
  | None =>
  match starts_with (u "NaN") s with
  | Some r => Some (PFloat PrimFloat.nan, r)
  | None =>
  match starts_with (u "Infinity") s with
  | Some r => Some (PFloat PrimFloat.infinity, r)
  | None =>
  match starts_with (u "-Infinity") s with
  | Some r => Some (PFloat PrimFloat.neg_infinity, r)
  | None => None
  end end end end end end.

(** [scan_once], [_parse_object] and [_parse_array].  Each returns the
    value and the input that follows it.  [fuel] bounds the nesting and
    the number of members; [json_loads] supplies more than any input
    can use (see [scan_once_fuel_irrelevant]). *)
Fixpoint scan_once (fuel : nat) (s : str) {struct fuel} : option (pyval * str) :=
  match fuel with
  | O => None
  | S n =>
      match s with
      | [] => None
      | c :: rest =>
          if c =? DQUOTE then
            '(k, r) ← scanstring rest; Some (PStr k, r)
          else if c =? LBRACE then
            match skip_ws rest with
            | c' :: r' =>
                if c' =? RBRACE then Some (PDict [], r')
                else parse_object_items n [] (c' :: r')
            | [] => None
            end
          else if c =? LBRACKET then
            match skip_ws rest with
            | c' :: r' =>
                if c' =? RBRACKET then Some (PList [], r')
                else parse_array_items n [] (c' :: r')
            | [] => None
            end
          else
            match scan_constant s with
            | Some res => Some res
            | None => match_number s
            end
      end
  end
with parse_object_items (fuel : nat) (acc : dict) (s : str) {struct fuel}
  : option (pyval * str) :=
  match fuel with
  | O => None
  | S n =>
      match s with
      | c :: r =>
          if c =? DQUOTE then
            '(key, r1) ← scanstring r;
            match skip_ws r1 with
            | c2 :: r2 =>
                if c2 =? COLON then
                  '(val, r3) ← scan_once n (skip_ws r2);
                  let acc' := dict_set acc key val in
                  match skip_ws r3 with
                  | c4 :: r4 =>
                      if c4 =? RBRACE then Some (PDict acc', r4)
                      else if c4 =? COMMA then parse_object_items n acc' (skip_ws r4)
                      else None
                  | [] => None
                  end
                else None
            | [] => None
            end
          else None
      | [] => None
      end
  end
with parse_array_items (fuel : nat) (acc : list pyval) (s : str) {struct fuel}
  : option (pyval * str) :=
  match fuel with
  | O => None
  | S n =>
      '(val, r1) ← scan_once n s;
      let acc' := acc ++ [val] in
      match skip_ws r1 with
      | c :: r2 =>
          if c =? RBRACKET then Some (PList acc', r2)
          else if c =? COMMA then parse_array_items n acc' (skip_ws r2)
          else None
      | [] => None
      end
  end.

(** [JSONDecoder.decode]: one value between optional whitespace, and
    nothing after it ("Extra data" otherwise). *)
Definition decode (s : str) : option pyval :=
  '(obj, r) ← scan_once (S (length s)) (skip_ws s);
  match skip_ws r with
  | [] => Some obj
  | _ :: _ => None
  end.

(** [json.loads(s)] for a [str]; [None] stands for the exception raised
    (a [JSONDecodeError] in every case modelled). *)
Definition json_loads (s : str) : option pyval :=
  match s with
  | c :: _ => if c =? BOM then None else decode s
  | [] => decode s
  end.

(** ** The response parser *)

(** The text the fallback pass decodes:
    [text.strip().strip("```").strip()]. *)
Definition cleaned (text : str) : str :=
  strip (strip_chars (u "```") (strip text)).

(** [parse_llm_json]: decode from the first opening brace; on any
    exception decode [cleaned text] instead; [PNone] (Python's [None])
    when both fail. *)
Definition parse_llm_json (text : str) : pyval :=
  match (start ← str_index text LBRACE; json_loads (slice_from start text)) with
  | Some parsed => parsed
  | None =>
      match json_loads (cleaned text) with
      | Some parsed => parsed
      | None => PNone
      end
  end.

Local Close Scope N_scope.

(** ** The session, the heap of dict objects, and the script monad *)

Definition ref := nat.

(** [st.session_state] after [init_session_state]. *)
Record session_state := {
  openai_api_key : str;
  pc : option ref;
  story_history : list ref;
  current_scene : option ref;
  model : str;
  temperature : pyfloat;
  max_tokens : Z
}.

Record runtime := {
  objects : list dict;
  session : session_state
}.

Definition with_pc (p : option ref) (s : session_state) : session_state :=
  {| openai_api_key := openai_api_key s; pc := p;
     story_history := story_history s; current_scene := current_scene s;
     model := model s; temperature := temperature s;
     max_tokens := max_tokens s |}.

Definition with_story_history (h : list ref) (s : session_state) : session_state :=
  {| openai_api_key := openai_api_key s; pc := pc s;
     story_history := h; current_scene := current_scene s;
     model := model s; temperature := temperature s;
     max_tokens := max_tokens s |}.

Definition with_current_scene (c : option ref) (s : session_state) : session_state :=
  {| openai_api_key := openai_api_key s; pc := pc s;
     story_history := story_history s; current_scene := c;
     model := model s; temperature := temperature s;
     max_tokens := max_tokens s |}.

(** A reference of the session always points into the heap
    ([session_invariant] below); reading elsewhere yields the empty
    dict. *)
Definition deref (h : list dict) (r : ref) : dict :=
  match h !! r with
  | Some d => d
  | None => []
  end.

(** How a handler ends other than by returning: an uncaught exception
    or [st.experimental_rerun()]. *)
Inductive signal :=
| Raised (e : exn)
| Rerun.

(** What a handler writes to the page. *)
Inductive output :=
| st_error (msg : str)
| st_code (body : str).

Record result (A : Type) := Result {
  final : runtime;
  shown : list output;
  outcome : A + signal
}.
Arguments Result {A} _ _ _.
Arguments final {A} _.
Arguments shown {A} _.
Arguments outcome {A} _.

Definition script (A : Type) : Type := runtime -> result A.

#[local] Instance script_ret : MRet script :=
  fun A a rt => Result rt [] (inl a).

#[local] Instance script_bind : MBind script :=
  fun A B f m rt =>
    match m rt with
    | Result rt1 out1 (inl a) =>
        match f a rt1 with
        | Result rt2 out2 o => Result rt2 (out1 ++ out2) o
        end
    | Result rt1 out1 (inr sg) => Result rt1 out1 (inr sg)
    end.

Definition raise {A} (e : exn) : script A :=
  fun rt => Result rt [] (inr (Raised e)).

Definition experimental_rerun : script unit :=
  fun rt => Result rt [] (inr Rerun).

Definition show (o : output) : script unit :=
  fun rt => Result rt [o] (inl ()).

Definition get_session : script session_state :=
  fun rt => Result rt [] (inl (session rt)).

Definition put_session (s : session_state) : script unit :=
  fun rt => Result {| objects := objects rt; session := s |} [] (inl ()).

Definition get_objects : script (list dict) :=
  fun rt => Result rt [] (inl (objects rt)).

(** A dict display [{...}]: a new object. *)
Definition new_dict (d : dict) : script ref :=
  fun rt =>
    Result {| objects := objects rt ++ [d]; session := session rt |} []
           (inl (length (objects rt))).

(** [obj[k] = v] on the dict object [r], in place. *)
Definition setitem (r : ref) (k : str) (v : pyval) : script unit :=
  fun rt =>
    Result {| objects := <[r := dict_set (deref (objects rt) r) k v]> (objects rt);
              session := session rt |} [] (inl ()).

(** ** The prompt composer *)

(** [l[i:]] for a list and any integer [i]. *)
Definition py_slice_from {A} (i : Z) (l : list A) : list A :=
  let len := Z.of_nat (length l) in
  let start := if (i <? 0)%Z then Z.max 0 (len + i) else Z.min i len in
  drop (Z.to_nat start) l.

(** One line of the history summary, before it is formatted:
    [f"{i}. Scene: {entry}\n   Choice: {chosen}"]. *)
Record summary_line := {
  line_index : nat;
  line_scene : pyval;
  line_choice : pyval
}.

(** The user message, before [json.dumps], the f-string and
    [textwrap.dedent] turn it into text; an empty [history_block] is
    rendered as "None yet.". *)
Record user_instructions := {
  player_state_block : option dict;
  history_block : list summary_line;
  player_input : str
}.

Inductive message :=
| system_message
| user_message (content : user_instructions).

(** [history[-6:]] *)
Definition hist_excerpt {A} (history : list A) : list A :=
  py_slice_from (-6)%Z history.

Definition summary_lines (h : list dict) (excerpt : list ref) : list summary_line :=
  imap (fun i r =>
          {| line_index := S i;
             line_scene := dict_get (deref h r) (u "narrative") (PStr []);
             line_choice := dict_get (deref h r) (u "choice_taken") (PStr []) |})
       excerpt.

(** [build_messages(pc, history, player_input, is_custom)]; the body
    never reads [is_custom]. *)
Definition build_messages (h : list dict) (pc : option ref) (history : list ref)
    (player_input : str) (is_custom : bool) : list message :=
  [ system_message;
    user_message
      {| player_state_block := deref h <$> pc;
         history_block := summary_lines h (hist_excerpt history);
         player_input := player_input |} ].

(** ** The backend *)

Record request := {
  req_api_key : str;
  req_model : str;
  req_messages : list message;
  req_temperature : pyfloat;
  req_max_tokens : Z
}.

(** [openai.ChatCompletion.create]: the message content ([None] when the
    API sends none), or the text of the exception it raised. *)
Inductive api_result :=
| Completion (content : option str)
| ApiFailure (e : str).

Definition backend := request -> api_result.

(** [call_llm(messages, model, temperature, max_tokens)] *)
Definition call_llm (api : backend) (messages : list message) (model : str)
    (temperature : pyfloat) (max_tokens : Z) : script (option str) :=
  s ← get_session;
  match api {| req_api_key := openai_api_key s; req_model := model;
               req_messages := messages; req_temperature := temperature;
               req_max_tokens := max_tokens |} with
  | Completion text => mret text
  | ApiFailure e => show (st_error (u "OpenAI API error: " ++ e));; mret None
  end.

(** ** Story functions *)

(** [st.session_state.pc.get(k, default)] *)
Definition pc_get (k : str) (default : pyval) : script pyval :=
  s ← get_session;
  match pc s with
  | None => raise AttributeError
  | Some r => h ← get_objects; mret (dict_get (deref h r) k default)
  end.

(** [st.session_state.pc[k] = v] *)
Definition pc_setitem (k : str) (v : pyval) : script unit :=
  s ← get_session;
  match pc s with
  | None => raise TypeError
  | Some r => setitem r k v
  end.

(** [a + b] with [b] numeric. *)
Definition add (a b : pyval) : script pyval :=
  match py_add_number a b with
  | inr c => mret c
  | inl e => raise e
  end.

(** The body of the loop [for k, v in updates.items()]. *)
Definition apply_update (k : str) (v : pyval) : script unit :=
  if isinstance_int_float v then
    old ← pc_get k (PInt 0);
    new ← add old v;
    pc_setitem k new
  else pc_setitem k v.

Fixpoint apply_state_updates (items : list (str * pyval)) : script unit :=
  match items with
  | [] => mret ()
  | (k, v) :: rest => apply_update k v;; apply_state_updates rest
  end.

(** [x.get(k)]: only dicts have the method. *)
Definition method_get (x : pyval) (k : str) : script pyval :=
  match x with
  | PDict d => mret (dict_get d k PNone)
  | _ => raise AttributeError
  end.

(** [x.items()] *)
Definition method_items (x : pyval) : script (list (str * pyval)) :=
  match x with
  | PDict d => mret d
  | _ => raise AttributeError
  end.

(** [a or b] *)
Definition py_or (a b : pyval) : pyval := if py_truthy a then a else b.

Definition history_entry (parsed : dict) (choice_text raw : str) : dict :=
  [ (u "scene_id", dict_get parsed (u "scene_id") PNone);
    (u "narrative", dict_get parsed (u "narrative") PNone);
    (u "choices", dict_get parsed (u "choices") PNone);
    (u "choice_taken", PStr choice_text);
    (u "raw_llm", PStr raw) ].

(** [st.session_state.story_history.append(entry)] and
    [st.session_state.current_scene = entry], the same object. *)
Definition push_entry (entry : dict) : script unit :=
  r ← new_dict entry;
  s ← get_session;
  put_session (with_story_history (story_history s ++ [r]) s);;
  s ← get_session;
  put_session (with_current_scene (Some r) s).

(** [take_choice(choice_text, is_custom)] *)
Definition take_choice (api : backend) (choice_text : str) (is_custom : bool)
  : script unit :=
  s ← get_session;
  h ← get_objects;
  let messages := build_messages h (pc s) (story_history s) choice_text is_custom in
  raw ← call_llm api messages (model s) (temperature s) (max_tokens s);
  match raw with
  | None => show (st_error (u "No response from LLM."))
  | Some raw =>
      match parse_llm_json raw with
      | PNone =>
          show (st_error (u "Failed to parse LLM output as JSON. Raw output:"));;
          show (st_code raw)
      | parsed =>
          got ← method_get parsed (u "state_updates");
          items ← method_items (py_or got (PDict []));
          apply_state_updates items;;
          scene_id ← method_get parsed (u "scene_id");
          narrative ← method_get parsed (u "narrative");
          choices ← method_get parsed (u "choices");
          push_entry [ (u "scene_id", scene_id);
                       (u "narrative", narrative);
                       (u "choices", choices);
                       (u "choice_taken", PStr choice_text);
                       (u "raw_llm", PStr raw) ];;
          experimental_rerun
      end
  end.

(** [init_session_state()] on a fresh session; on later runs every key
    is present and the function changes nothing. *)
Definition init_session_state : runtime :=
  {| objects := [];
     session := {| openai_api_key := [];
                   pc := None;
                   story_history := [];
                   current_scene := None;
                   model := u "gpt-4o-mini";
                   temperature := float_of_decimal false 8 (-1);
                   max_tokens := 500%Z |} |}.

(** The "Restart session (clear story)" button. *)
Definition restart_session : script unit :=
  s ← get_session;
  put_session (with_story_history [] s);;
  s ← get_session;
  put_session (with_current_scene None s);;
  experimental_rerun.

Definition start_prompt : str :=
  u "Begin the adventure with a twilight border scene: the protagonist approaches a glittering fae court border. Provide narrative and 3 choices.".

(** The "Begin Adventure" button, shown while [current_scene] is [None].
    It appends the opening scene without applying any state update. *)
Definition begin_adventure (api : backend) : script unit :=
  s ← get_session;
  h ← get_objects;
  let messages := build_messages h (pc s) (story_history s) start_prompt true in
  raw ← call_llm api messages (model s) (temperature s) (max_tokens s);
  match raw with
  | None => show (st_error (u "Failed to get opening scene from LLM."))
  | Some raw =>
      match parse_llm_json raw with
      | PNone =>
          show (st_error (u "Failed to parse LLM output for opening scene. Raw output shown:"));;
          show (st_code raw)
      | parsed =>
          scene_id ← method_get parsed (u "scene_id");
          narrative ← method_get parsed (u "narrative");
          choices ← method_get parsed (u "choices");
          push_entry [ (u "scene_id", scene_id);
                       (u "narrative", narrative);
                       (u "choices", choices);
                       (u "choice_taken", PStr []);
                       (u "raw_llm", PStr raw) ];;
          experimental_rerun
      end
  end.

Section Engine.

(** Python's [str()] on values that are not strings (an f-string
    formats a string as itself); its text is never inspected. *)
Variable py_str : pyval -> str.

Definition format_value (v : pyval) : str :=
  match v with
  | PStr s => s
  | _ => py_str v
  end.

(** [st.session_state.pc['name']] *)
Definition pc_getitem (k : str) : script pyval :=
  s ← get_session;
  match pc s with
  | None => raise TypeError
  | Some r =>
      h ← get_objects;
      match dict_lookup (deref h r) k with
      | Some v => mret v
      | None => raise KeyError
      end
  end.

(** The scene dict of [start_new_adventure], given the formatted name. *)
Definition prologue_scene (name : str) : dict :=
  [ (u "scene_id", PStr (u "prologue_01"));
    (u "narrative",
     PStr (name ++
           u " arrives at the border of a glittering fae court as twilight bleeds across the sky.")) ].

(** [start_new_adventure()] *)
Definition start_new_adventure : script unit :=
  s ← get_session;
  put_session (with_story_history [] s);;
  name ← pc_getitem (u "name");
  r ← new_dict (prologue_scene (format_value name));
  s ← get_session;
  put_session (with_current_scene (Some r) s);;
  experimental_rerun.

(** The character dict the form creates. *)
Definition new_character (name court archetype : str) (strength guile magic : Z)
  : dict :=
  [ (u "name", PStr name);
    (u "court", PStr court);
    (u "archetype", PStr archetype);
    (u "strength", PInt strength);
    (u "guile", PInt guile);
    (u "magic", PInt magic);
    (u "hp", PInt 10%Z);
    (u "relationship", PDict []);
    (u "inventory", PList []) ].

(** Submitting the character form, shown while [pc] is [None]. *)
Definition create_character (name court archetype : str)
    (strength guile magic : Z) : script unit :=
  r ← new_dict (new_character name court archetype strength guile magic);
  s ← get_session;
  put_session (with_pc (Some r) s);;
  start_new_adventure.

(** The states the script can reach: each run of the script handles
    one interaction, and the backend may answer anything each time. *)
Inductive reachable : runtime -> Prop :=
| reach_init : reachable init_session_state
| reach_restart rt :
    reachable rt ->
    reachable (final (restart_session rt))
| reach_create rt name court archetype strength guile magic :
    reachable rt ->
    pc (session rt) = None ->
    reachable (final (create_character name court archetype
                                       strength guile magic rt))
| reach_begin rt api :
    reachable rt ->
    pc (session rt) <> None ->
    current_scene (session rt) = None ->
    reachable (final (begin_adventure api rt))
| reach_choice rt api choice_text is_custom :
    reachable rt ->
    pc (session rt) <> None ->
    current_scene (session rt) <> None ->
    reachable (final (take_choice api choice_text is_custom rt)).

End Engine.

(** * Definitions used in the statements *)

(** The value the loop body stores under [k], or the exception the sum
    raises. *)
Definition updated_value (d : dict) (k : str) (v : pyval) : exn + pyval :=
  if isinstance_int_float v then py_add_number (dict_get d k (PInt 0)) v
  else inr v.


(** The contents of the character dict when the loop ends, normally or
    by the exception. *)
Fixpoint update_dict (items : list (str * pyval)) (d : dict) : dict * (unit + signal) :=
  match items with
  | [] => (d, inl ())
  | (k, v) :: rest =>
      match updated_value d k v with
      | inr new => update_dict rest (dict_set d k new)
      | inl e => (d, inr (Raised e))
      end
  end.

(** Unfolding the primitives of the script monad. *)
Ltac run_script :=
  cbv beta iota zeta delta
    [mbind script_bind mret script_ret get_session get_objects put_session
     raise show setitem new_dict experimental_rerun].

(** The request [take_choice] sends. *)
Definition choice_request (rt : runtime) (choice_text : str) (is_custom : bool)
  : request :=
  {| req_api_key := openai_api_key (session rt);
     req_model := model (session rt);
     req_messages :=
       build_messages (objects rt) (pc (session rt))
                      (story_history (session rt)) choice_text is_custom;
     req_temperature := temperature (session rt);
     req_max_tokens := max_tokens (session rt) |}.

(** The state after [entry] became a new object, the last element of
    the history and the current scene. *)
Definition appended (rt : runtime) (entry : dict) : runtime :=
  {| objects := objects rt ++ [entry];
     session :=
       with_current_scene (Some (length (objects rt)))
         (with_story_history
            (story_history (session rt) ++ [length (objects rt)])
            (session rt)) |}.

(** The updates [take_choice] applies for a decoded object [d]:
    [parsed.get("state_updates") or {}]. *)
Definition state_updates (d : dict) : pyval :=
  py_or (dict_get d (u "state_updates") PNone) (PDict []).

(** What [take_choice] shows when the parser returns [None]. *)
Definition parse_error_shown (raw : str) : list output :=
  [ st_error (u "Failed to parse LLM output as JSON. Raw output:"); st_code raw ].

(** The character [{hp: 10, strength: 5}] as the only object, an empty
    history, no current scene. *)
Definition scenario_state : runtime :=
  {| objects := [ [ (u "hp", PInt 10%Z); (u "strength", PInt 5) ] ];
     session := with_pc (Some 0%nat) (session init_session_state) |}.

(** The reply of the end-to-end scenario. *)
Definition scenario_reply : str :=
  q "{'scene_id':'s1','narrative':'You step forward.','choices':['Fight','Flee','Negotiate'],'state_updates':{'hp':-2}}".

(** A backend that answers every request with [text]. *)
Definition replies (text : str) : backend := fun _ => Completion (Some text).

(** The session right after the character form was submitted with the
    name "Aryn". *)
Definition aryn_state (py_str : pyval -> str) : runtime :=
  final (create_character py_str (u "Aryn") (u "Night Court (mysterious)")
           (u "Wary Survivor") 5 6 3 init_session_state).

(** A reply whose second update adds a number to the character's name. *)
Definition partial_reply : str :=
  q "{'scene_id':'gate_01','narrative':'The gate opens.','choices':['Enter','Wait'],'state_updates':{'hp':-2,'name':1}}".

(** A reply that has state updates and nothing else. *)
Definition bare_reply : str := q "{'state_updates':{'hp':-2}}".

(** A reply whose [state_updates] is a list. *)
Definition list_updates_reply : str :=
  q "{'scene_id':'s1','narrative':'You step forward.','choices':['Fight'],'state_updates':['hp']}".

(** A reply with text before the object and two equal choices. *)
Definition duplicate_choices_reply : str :=
  u "Sure! " ++ q "{'narrative': 'A', 'choices': ['x','x']}".

(** [scenario_reply] in a fence with the language tag, and in a bare
    fence. *)
Definition fenced_json_reply : str :=
  u "```json" ++ [LF] ++ scenario_reply ++ [LF] ++ u "```".

Definition fenced_reply : str :=
  u "```" ++ [LF] ++ scenario_reply ++ [LF] ++ u "```".

(** The scene [start_new_adventure] makes current without appending it. *)
Definition is_prologue (d : dict) : Prop :=
  dict_lookup d (u "scene_id") = Some (PStr (u "prologue_01")).

(** The request the "Begin Adventure" button sends. *)
Definition begin_request (rt : runtime) : request :=
  choice_request rt start_prompt true.

(** What holds in every reachable state.  References point into the
    heap, the character and the current scene are different objects,
    and the current scene is tied to the history as C6 (amended) says. *)
Record session_invariant (rt : runtime) : Prop := {
  inv_pc : forall l, pc (session rt) = Some l -> (l < length (objects rt))%nat;
  inv_scene : forall r, current_scene (session rt) = Some r ->
                        (r < length (objects rt))%nat /\ pc (session rt) <> Some r;
  inv_last : forall r, last (story_history (session rt)) = Some r ->
                       current_scene (session rt) = Some r;
  inv_empty : story_history (session rt) = [] ->
              forall r, current_scene (session rt) = Some r ->
                        exists d, objects rt !! r = Some d /\ is_prologue d
}.

(** A stand-in for Python's [str()] where a closed term is needed; the
    runs below format strings only and never call it. *)
Definition no_str : pyval -> str := fun _ => [].

(** A successful scan consumes input, and succeeds alike with any fuel
    that is at least the number of characters it consumes. *)
Definition enough {X} (scan : nat -> str -> option (X * str)) (f : nat) : Prop :=
  forall s v r,
    scan f s = Some (v, r) ->
    (length r < length s)%nat /\
    forall g, (length s - length r <= g)%nat -> scan g s = Some (v, r).

(** * The rest of the script *)

(** ** The custom-action form and the history expander *)

(** [if submit_custom and custom_action.strip():
       take_choice(custom_action.strip(), is_custom=True)] *)
Definition submit_custom_action (api : backend) (custom_action : str)
  : script unit :=
  if py_truthy (PStr (strip custom_action))
  then take_choice api (strip custom_action) true
  else mret ().

(** One line of the "History (recent)" expander, before formatting:
    [h.get('scene_id','?')], [h.get('choice_taken','(start)')] and
    [h.get("narrative")]. *)
Record breadcrumb := {
  crumb_scene_id : pyval;
  crumb_choice : pyval;
  crumb_narrative : pyval
}.

(** [reversed(st.session_state.story_history[-10:])] *)
Definition recent_history {A} (history : list A) : list A :=
  reverse (py_slice_from (-10)%Z history).

Definition breadcrumbs (h : list dict) (history : list ref) : list breadcrumb :=
  map (fun r =>
         {| crumb_scene_id := dict_get (deref h r) (u "scene_id") (PStr (u "?"));
            crumb_choice := dict_get (deref h r) (u "choice_taken") (PStr (u "(start)"));
            crumb_narrative := dict_get (deref h r) (u "narrative") PNone |})
      (recent_history history).

(** [scene.get("choices") or []]: what the choice buttons are made of. *)
Definition scene_choices (scene : dict) : pyval :=
  py_or (dict_get scene (u "choices") PNone) (PList []).

(** ** Definitions used in the further statements *)

(** What holds of the character and the history in every reachable
    state. *)
Record ledger_invariant (rt : runtime) : Prop := {
  led_pc : forall l, pc (session rt) = Some l ->
                     exists d, objects rt !! l = Some d /\
                               forall k, k ∈ keys (new_character [] [] [] 0 0 0) ->
                                         is_Some (dict_lookup d k);
  led_entries : forall r, r ∈ story_history (session rt) ->
                  pc (session rt) <> Some r /\
                  exists d choice_text raw,
                    objects rt !! r = Some (history_entry d choice_text raw) /\
                    parse_llm_json raw = PDict d;
  led_nodup : NoDup (story_history (session rt));
  led_scene : forall r, current_scene (session rt) = Some r ->
                        is_Some (pc (session rt))
}.

(** The attributes the character form creates. *)
Definition character_keys : list str :=
  [ u "name"; u "court"; u "archetype"; u "strength"; u "guile"; u "magic";
    u "hp"; u "relationship"; u "inventory" ].

(** The fields of the session no story handler writes. *)
Definition same_character_and_settings (s s' : session_state) : Prop :=
  pc s' = pc s /\
  openai_api_key s' = openai_api_key s /\
  model s' = model s /\
  temperature s' = temperature s /\
  max_tokens s' = max_tokens s.

(** Every dict inside [v], at any depth, has distinct keys. *)
Fixpoint distinct_keys (v : pyval) : Prop :=
  match v with
  | PList l =>
      (fix each (l : list pyval) : Prop :=
         match l with
         | [] => True
         | x :: l' => distinct_keys x /\ each l'
         end) l
  | PDict d =>
      NoDup (map fst d) /\
      (fix each (d : list (str * pyval)) : Prop :=
         match d with
         | [] => True
         | (_, x) :: d' => distinct_keys x /\ each d'
         end) d
  | _ => True
  end.

(** With an empty history, a scene on display is the prologue dict as
    [start_new_adventure] built it. *)
Definition prologue_shown (rt : runtime) : Prop :=
  story_history (session rt) = [] ->
  forall r, current_scene (session rt) = Some r ->
            exists name, objects rt !! r = Some (prologue_scene name).

(** ** The encoder ([json.dumps]) and the tools that use it *)

(** [json.dumps] is the encoder of CPython's [json] module with
    [ensure_ascii=False] and the default separators; like the decoder it
    is modelled from its implementation.  The keys of a dict are
    strings, as every dict of the script has them. *)

(** Decimal digits of [n], most significant first, in front of [acc];
    [fuel] bounds their number. *)
Fixpoint digits_acc (fuel : nat) (n : N) (acc : str) : str :=
  match fuel with
  | O => acc
  | S f =>
      let acc' := (48 + n mod 10)%N :: acc in
      if (n <? 10)%N then acc' else digits_acc f (n / 10)%N acc'
  end.

Definition repr_N (n : N) : str := digits_acc (S (N.to_nat (N.log2 n))) n [].

(** The decimal text of an int. *)
Definition decimal (z : Z) : str :=
  if (z <? 0)%Z then 45%N :: repr_N (Z.to_N (- z)) else repr_N (Z.to_N z).

(** [int.__repr__]: the decimal text; [None] is the [ValueError] for an
    int of more digits (the sign apart) than the limit. *)
Definition repr_int (z : Z) : option str :=
  if (int_max_str_digits <? Z.of_nat (length (repr_N (Z.abs_N z))))%Z then None
  else Some (decimal z).

Definition hex_char (n : N) : char := (if n <? 10 then 48 + n else 87 + n)%N.

(** The replacement of one character in [encode_basestring]: the short
    escapes, [\u00xx] for the other control characters, anything else
    as it is ([ensure_ascii=False]). *)
Definition escape_char (c : char) : str :=
  if (c =? DQUOTE)%N then [BACKSLASH; DQUOTE]
  else if (c =? BACKSLASH)%N then [BACKSLASH; BACKSLASH]
  else if (c =? 10)%N then [BACKSLASH; 110%N]
  else if (c =? 13)%N then [BACKSLASH; 114%N]
  else if (c =? 9)%N then [BACKSLASH; 116%N]
  else if (c =? 8)%N then [BACKSLASH; 98%N]
  else if (c =? 12)%N then [BACKSLASH; 102%N]
  else if (c <? 32)%N
       then [BACKSLASH; 117%N; 48%N; 48%N; hex_char (c / 16); hex_char (c mod 16)]
  else [c].

Definition encode_basestring (s : str) : str :=
  DQUOTE :: flat_map escape_char s ++ [DQUOTE].

(** [sep.join(parts)] *)
Fixpoint join (sep : str) (parts : list str) : str :=
  match parts with
  | [] => []
  | [p] => p
  | p :: parts' => p ++ sep ++ join sep parts'
  end.

Section Encoder.

(** [float.__repr__] on a finite float is left open (the shortest
    digits that read back as the same double). *)
Variable float_repr : pyfloat -> str.

(** [floatstr]: [NaN], [Infinity] and [-Infinity] by comparison, the
    [repr] otherwise. *)
Definition floatstr (o : pyfloat) : str :=
  if negb (PrimFloat.eqb o o) then u "NaN"
  else if PrimFloat.eqb o PrimFloat.infinity then u "Infinity"
  else if PrimFloat.eqb o PrimFloat.neg_infinity then u "-Infinity"
  else float_repr o.

(** [indent=None] or [indent=n] for a number [n] of spaces. *)
Variable indent : option nat.

(** [', '] without indentation, [','] with it. *)
Definition item_separator : str :=
  match indent with
  | None => u ", "
  | Some _ => u ","
  end.

Definition key_separator : str := u ": ".

(** ['\n' + ' ' * (indent * level)], or nothing without indentation. *)
Definition newline_indent (level : nat) : str :=
  match indent with
  | None => []
  | Some n => LF :: repeat 32%N (n * level)
  end.

(** [_iterencode] at nesting depth [level], its chunks joined: the text
    of a value whose ints can all be printed ([encodable] below). *)
Fixpoint iterencode (level : nat) (v : pyval) : str :=
  match v with
  | PNone => u "null"
  | PBool true => u "true"
  | PBool false => u "false"
  | PInt z => decimal z
  | PFloat f => floatstr f
  | PStr s => encode_basestring s
  | PList [] => u "[]"
  | PList l =>
      [LBRACKET] ++ newline_indent (S level)
      ++ join (item_separator ++ newline_indent (S level))
              (map (iterencode (S level)) l)
      ++ newline_indent level ++ [RBRACKET]
  | PDict [] => u "{}"
  | PDict d =>
      [LBRACE] ++ newline_indent (S level)
      ++ join (item_separator ++ newline_indent (S level))
              (map (fun kv => encode_basestring kv.1 ++ key_separator
                              ++ iterencode (S level) kv.2) d)
      ++ newline_indent level ++ [RBRACE]
  end.

(** Every int inside [v] can be printed: [int.__repr__] raises for
    none of them. *)
Fixpoint encodable (v : pyval) : bool :=
  match v with
  | PInt z => match repr_int z with Some _ => true | None => false end
  | PList l => forallb encodable l
  | PDict d => forallb (fun kv => encodable kv.2) d
  | _ => true
  end.

(** [json.dumps(v, ensure_ascii=False, indent=indent)]; [None] is the
    [ValueError] that [int.__repr__] raises as soon as the encoder
    meets an int beyond the digit limit. *)
Definition json_dumps (v : pyval) : option str :=
  if encodable v then Some (iterencode 0 v) else None.

End Encoder.

(** [pretty_json(d)] *)
Definition pretty_json (float_repr : pyfloat -> str) (d : pyval) : option str :=
  json_dumps float_repr (Some 2%nat) d.

(** No finite float occurs in [v]: every float is [NaN] or an
    infinity. *)
Fixpoint no_finite_float (v : pyval) : bool :=
  match v with
  | PFloat f =>
      negb (PrimFloat.eqb f f) || PrimFloat.eqb f PrimFloat.infinity
      || PrimFloat.eqb f PrimFloat.neg_infinity
  | PList l => forallb no_finite_float l
  | PDict d => forallb (fun kv => no_finite_float kv.2) d
  | _ => true
  end.

(** What may follow a number without being read as a part of it. *)
Definition number_end (rest : str) : bool :=
  match rest with
  | [] => true
  | c :: _ => negb (is_digit c || (c =? 46) || (c =? 101) || (c =? 69))%N
  end.

(** What the round trip proves of one value: its text, followed by
    anything that ends a number, is read back as the value, with any
    fuel from some point on. *)
Definition reads_back (float_repr : pyfloat -> str) (indent : option nat)
    (v : pyval) : Prop :=
  distinct_keys v -> no_finite_float v = true -> encodable v = true ->
  forall level (rest : str),
    number_end rest = true ->
    exists f0, forall g, (f0 <= g)%nat ->
      scan_once g (iterencode float_repr indent level v ++ rest) = Some (v, rest).

(** [json.dumps(pc, ensure_ascii=False)]: the text of the player-state
    block of the prompt. *)
Definition player_state_text (float_repr : pyfloat -> str) (block : option dict)
  : option str :=
  json_dumps float_repr None
    (match block with
     | Some d => PDict d
     | None => PNone
     end).

(** The dict the "Show raw LLM JSON for this scene" button prints, and
    what the button shows; [None] is the [ValueError] of the encoder. *)
Definition scene_summary (scene : dict) : dict :=
  [ (u "scene_id", dict_get scene (u "scene_id") PNone);
    (u "narrative", dict_get scene (u "narrative") PNone);
    (u "choices", dict_get scene (u "choices") PNone) ].

Definition show_raw (float_repr : pyfloat -> str) (scene : dict) : option output :=
  st_code <$> pretty_json float_repr (PDict (scene_summary scene)).



(** Every dict object of the heap has distinct keys, at every depth. *)
Definition heap_distinct (rt : runtime) : Prop :=
  Forall (fun d => distinct_keys (PDict d)) (objects rt).


(** * Properties *)

(** ** Strings and dicts *)

Lemma str_eqb_eq (a b : str) : str_eqb a b = true <-> a = b.
Proof.
  revert b; induction a as [|x a IH]; intros [|y b]; simpl; try easy.
  rewrite andb_true_iff, N.eqb_eq, IH. split.
  - intros [-> ->]; reflexivity.
  - intros [= -> ->]; auto.
Qed.

Lemma str_eqb_refl (a : str) : str_eqb a a = true.
Proof. apply str_eqb_eq; reflexivity. Qed.

Lemma str_eqb_neq (a b : str) : a <> b -> str_eqb a b = false.
Proof.
  intros H; destruct (str_eqb a b) eqn:E; [|reflexivity].
  apply str_eqb_eq in E; contradiction.
Qed.

Lemma dict_lookup_set_eq (d : dict) k v :
  dict_lookup (dict_set d k v) k = Some v.
Proof.
  induction d as [|[k' v'] d IH]; simpl.
  - rewrite str_eqb_refl; reflexivity.
  - destruct (str_eqb k' k) eqn:E; simpl; rewrite E; auto.
Qed.

Lemma dict_lookup_set_ne (d : dict) k k' v :
  k <> k' -> dict_lookup (dict_set d k v) k' = dict_lookup d k'.
Proof.
  intros Hne; induction d as [|[k0 v0] d IH]; simpl.
  - rewrite str_eqb_neq; auto.
  - destruct (str_eqb k0 k) eqn:E; simpl.
    + apply str_eqb_eq in E; subst k0.
      rewrite str_eqb_neq; auto.
    + destruct (str_eqb k0 k'); auto.
Qed.


(** ** Facts about the decoder *)

Lemma lstrip_by_subseteq p (s : str) x : x ∈ lstrip_by p s -> x ∈ s.
Proof.
  induction s as [|c s IH]; simpl; [auto|].
  destruct (p c); [|auto]. intros H. apply list_elem_of_further. auto.
Qed.

Lemma strip_by_subseteq p (s : str) x : x ∈ strip_by p s -> x ∈ s.
Proof.
  unfold strip_by, rstrip_by. intros H.
  rewrite elem_of_reverse in H. apply lstrip_by_subseteq in H.
  rewrite elem_of_reverse in H. apply (lstrip_by_subseteq p). exact H.
Qed.

Lemma str_index_None (s : str) c : c ∉ s -> str_index s c = None.
Proof.
  induction s as [|x s IH]; simpl; [reflexivity|].
  rewrite not_elem_of_cons. intros [Hne Hs].
  destruct (N.eqb_spec x c); [congruence|]. rewrite IH; auto.
Qed.

Lemma str_index_Some (s : str) c i :
  str_index s c = Some i -> exists rest, slice_from i s = c :: rest.
Proof.
  revert i; induction s as [|x s IH]; simpl; intros i; [discriminate|].
  destruct (N.eqb_spec x c) as [->|Hne].
  - intros [= <-]. eexists; reflexivity.
  - destruct (str_index s c) as [j|]; [|discriminate].
    intros [= <-]. apply (IH j). reflexivity.
Qed.

Lemma scan_constant_not_dict s v r :
  scan_constant s = Some (v, r) -> forall d, v <> PDict d.
Proof.
  unfold scan_constant. intros H d.
  repeat match type of H with
         | context [starts_with ?p s] => destruct (starts_with p s)
         end; inversion H; discriminate.
Qed.

Lemma match_number_not_dict s v r :
  match_number s = Some (v, r) -> forall d, v <> PDict d.
Proof.
  unfold match_number. intros H d.
  destruct (match s with
            | c :: s' => if (c =? 45)%N then (true, s') else (false, s)
            | [] => (false, s)
            end) as [neg s0].
  destruct (int_digits s0) as [[ints s1]|]; [|discriminate].
  cbn [mbind option_bind] in H.
  destruct (frac_digits s1) as [[fs r1]|];
    (destruct (exp_part _) as [[x r2]|]);
    try destruct (_ <? Z.of_nat (length ints))%Z;
    inversion H; discriminate.
Qed.

Lemma parse_array_items_list fuel : forall acc s v r,
  parse_array_items fuel acc s = Some (v, r) -> exists l, v = PList l.
Proof.
  induction fuel as [|n IH]; intros acc s v r; [discriminate|].
  cbn [parse_array_items].
  destruct (scan_once n s) as [[val r1]|]; [|discriminate]. cbn.
  destruct (skip_ws r1) as [|c r2]; [discriminate|].
  destruct (c =? RBRACKET)%N; [intros [= <- _]; eauto|].
  destruct (c =? COMMA)%N; [apply IH | discriminate].
Qed.

Lemma parse_object_items_dict fuel : forall acc s v r,
  parse_object_items fuel acc s = Some (v, r) -> exists d, v = PDict d.
Proof.
  induction fuel as [|n IH]; intros acc s v r; [discriminate|].
  cbn [parse_object_items].
  destruct s as [|c s]; [discriminate|].
  destruct (c =? DQUOTE)%N; [|discriminate].
  destruct (scanstring s) as [[key r1]|]; [|discriminate]. cbn.
  destruct (skip_ws r1) as [|c2 r2]; [discriminate|].
  destruct (c2 =? COLON)%N; [|discriminate].
  destruct (scan_once n (skip_ws r2)) as [[val r3]|]; [|discriminate]. cbn.
  destruct (skip_ws r3) as [|c4 r4]; [discriminate|].
  destruct (c4 =? RBRACE)%N; [intros [= <- _]; eauto|].
  destruct (c4 =? COMMA)%N; [apply IH | discriminate].
Qed.

(** A decoded value is a dict exactly when the text (after whitespace)
    opens with a brace. *)
Lemma scan_once_dict fuel s d r :
  scan_once fuel s = Some (PDict d, r) -> exists rest, s = LBRACE :: rest.
Proof.
  destruct fuel as [|n]; [discriminate|]. cbn [scan_once].
  destruct s as [|c rest]; [discriminate|].
  destruct (c =? DQUOTE)%N.
  { destruct (scanstring rest) as [[k r1]|]; discriminate. }
  destruct (N.eqb_spec c LBRACE) as [->|_]; [eauto|].
  destruct (c =? LBRACKET)%N.
  { destruct (skip_ws rest) as [|c' r']; [discriminate|].
    destruct (c' =? RBRACKET)%N; [discriminate|].
    intros H. apply parse_array_items_list in H as [l Hl]. discriminate. }
  destruct (scan_constant (c :: rest)) as [[v r1]|] eqn:Ec.
  - intros [= -> ->]. exfalso. eapply scan_constant_not_dict; eauto.
  - intros H. exfalso. eapply match_number_not_dict; eauto.
Qed.

Lemma scan_once_brace fuel rest v r :
  scan_once fuel (LBRACE :: rest) = Some (v, r) -> exists d, v = PDict d.
Proof.
  destruct fuel as [|n]; [discriminate|]. cbn [scan_once].
  change (LBRACE =? DQUOTE)%N with false. change (LBRACE =? LBRACE)%N with true.
  cbv iota.
  destruct (skip_ws rest) as [|c' r']; [discriminate|].
  destruct (c' =? RBRACE)%N; [intros [= <- _]; eauto|].
  apply parse_object_items_dict.
Qed.

Lemma decode_dict s d : decode s = Some (PDict d) -> LBRACE ∈ s.
Proof.
  unfold decode.
  destruct (scan_once _ (skip_ws s)) as [[v r]|] eqn:E; [|discriminate]. cbn.
  destruct (skip_ws r); [|discriminate]. intros [= ->].
  apply scan_once_dict in E as [rest E].
  apply (lstrip_by_subseteq json_ws). unfold skip_ws in E. rewrite E.
  apply list_elem_of_here.
Qed.

Lemma json_loads_dict s d : json_loads s = Some (PDict d) -> LBRACE ∈ s.
Proof.
  unfold json_loads. destruct s as [|c s]; [apply decode_dict|].
  destruct (c =? BOM)%N; [discriminate | apply decode_dict].
Qed.

Lemma json_loads_brace rest v :
  json_loads (LBRACE :: rest) = Some v -> exists d, v = PDict d.
Proof.
  unfold json_loads. change (LBRACE =? BOM)%N with false. cbv iota.
  unfold decode. change (skip_ws (LBRACE :: rest)) with (LBRACE :: rest).
  destruct (scan_once _ _) as [[v' r]|] eqn:E; [|discriminate]. cbn.
  destruct (skip_ws r); [|discriminate]. intros [= ->].
  eapply scan_once_brace; eauto.
Qed.

(** ** The fuel of the decoder is enough *)

Lemma lstrip_by_length p (s : str) : (length (lstrip_by p s) <= length s)%nat.
Proof.
  induction s as [|c s IH]; simpl; [lia|].
  destruct (p c); simpl; lia.
Qed.

Lemma skip_ws_cons (s : str) c r :
  skip_ws s = c :: r -> (length r < length s)%nat.
Proof.
  intros H. pose proof (lstrip_by_length json_ws s) as Hl.
  unfold skip_ws in H. rewrite H in Hl. simpl in Hl. lia.
Qed.

Lemma push_char_Some c res k r :
  push_char c res = Some (k, r) -> exists k', res = Some (k', r).
Proof.
  destruct res as [[k' r']|]; cbn; [|discriminate].
  intros [= <- <-]. eauto.
Qed.

Lemma scanstring_length : forall (s : str) k r,
  scanstring s = Some (k, r) -> (length r < length s)%nat.
Proof.
  intros s. remember (length s) as n eqn:Hn. revert s Hn.
  induction n as [n IH] using lt_wf_ind. intros s Hn k r.
  assert (Hrec : forall (s' : str) k' c,
            (length s' < n)%nat ->
            push_char c (scanstring s') = Some (k', r) ->
            (length r < length s')%nat).
  { intros s' k' c Hlt H. apply push_char_Some in H as [k'' H].
    eapply (IH (length s')); eauto. }
  destruct s as [|c rest]; [discriminate|]. cbn [scanstring].
  destruct (c =? DQUOTE)%N.
  { intros [= <- <-]. simpl in *. lia. }
  destruct (c =? BACKSLASH)%N.
  2:{ destruct (c <=? 31)%N; [discriminate|].
      intros H. apply Hrec in H; simpl in *; lia. }
  destruct rest as [|e rest1]; [discriminate|].
  destruct (e =? 117)%N.
  2:{ destruct (unescape e); [|discriminate].
      intros H. apply Hrec in H; simpl in *; lia. }
  destruct rest1 as [|h1 [|h2 [|h3 [|h4 [|x rest2]]]]]; try discriminate.
  destruct (hex4 h1 h2 h3 h4) as [c1|]; [|discriminate].
  assert (Hplain : push_char c1 (scanstring (x :: rest2)) = Some (k, r) ->
                   (length r < n)%nat).
  { intros H. apply Hrec in H; simpl in *; lia. }
  destruct rest2 as [|e2 [|g1 [|g2 [|g3 [|g4 [|y rest3]]]]]]; try exact Hplain.
  destruct (is_high_surrogate c1 && (x =? BACKSLASH)%N && (e2 =? 117)%N);
    [|exact Hplain].
  destruct (hex4 g1 g2 g3 g4) as [c2|]; [|discriminate].
  destruct (is_low_surrogate c2); [|exact Hplain].
  intros H. apply Hrec in H; simpl in *; lia.
Qed.

Lemma starts_with_length (p s r : str) :
  starts_with p s = Some r -> length s = (length p + length r)%nat.
Proof.
  revert s; induction p as [|a p IH]; intros [|b s]; simpl;
    try (intros [= <-]; reflexivity); try discriminate.
  destruct (a =? b)%N; [|discriminate]. intros H. rewrite (IH _ H). reflexivity.
Qed.

Lemma scan_constant_length s v r :
  scan_constant s = Some (v, r) -> (length r < length s)%nat.
Proof.
  unfold scan_constant. intros H.
  repeat match type of H with
         | context [starts_with ?p s] =>
             let E := fresh "E" in
             destruct (starts_with p s) eqn:E;
             [apply starts_with_length in E; inversion H; subst; simpl in E; lia|]
         end.
  discriminate.
Qed.

Lemma span_digits_length (s : str) :
  (length (span_digits s).2 <= length s)%nat.
Proof.
  induction s as [|c s IH]; simpl; [lia|].
  destruct (is_digit c); [|simpl; lia].
  destruct (span_digits s) as [ds r]. simpl in *. lia.
Qed.

Lemma match_number_length s v r :
  match_number s = Some (v, r) -> (length r < length s)%nat.
Proof.
  unfold match_number.
  set (sg := match s with
             | c :: s' => if (c =? 45)%N then (true, s') else (false, s)
             | [] => (false, s)
             end).
  assert (Hs0 : (length sg.2 <= length s)%nat).
  { subst sg. destruct s as [|c s']; simpl; [lia|].
    destruct (c =? 45)%N; simpl; lia. }
  destruct sg as [neg s0]. cbn [snd] in Hs0.
  destruct (int_digits s0) as [[ints s1]|] eqn:Ei; [|discriminate]. cbn.
  assert (Hs1 : (length s1 < length s0)%nat).
  { unfold int_digits in Ei. destruct s0 as [|c s']; [discriminate|].
    destruct (c =? 48)%N; [inversion Ei; subst; simpl; lia|].
    destruct (is_digit c); [|discriminate].
    pose proof (span_digits_length s') as Hl.
    destruct (span_digits s') as [ds r']. inversion Ei; subst. simpl in *. lia. }
  set (fr := match frac_digits s1 with
             | Some (fs, r0) => (Some fs, r0)
             | None => (None, s1)
             end).
  assert (Hs2 : (length fr.2 <= length s1)%nat).
  { subst fr. unfold frac_digits.
    destruct s1 as [|p [|d s']]; [simpl; lia | simpl; lia |]. cbv beta iota.
    destruct ((p =? 46)%N && is_digit d); [|simpl; lia].
    pose proof (span_digits_length (d :: s')) as Hl.
    destruct (span_digits (d :: s')) as [fs r0]. simpl in *. lia. }
  destruct fr as [fracs s2]. cbn [snd] in Hs2.
  set (ex := match exp_part s2 with
             | Some (x, r0) => (Some x, r0)
             | None => (None, s2)
             end).
  assert (Hs3 : (length ex.2 <= length s2)%nat).
  { subst ex. unfold exp_part. destruct s2 as [|e s']; simpl; [lia|].
    destruct ((e =? 101)%N || (e =? 69)%N); [|simpl; lia].
    set (sn := match s' with
               | sg :: s2 =>
                   if (sg =? 45)%N then (true, s2)
                   else if (sg =? 43)%N then (false, s2) else (false, s')
               | [] => (false, s')
               end).
    assert (Hsn : (length sn.2 <= length s')%nat).
    { subst sn. destruct s' as [|sg s2]; simpl; [lia|].
      destruct (sg =? 45)%N; [simpl; lia|].
      destruct (sg =? 43)%N; simpl; lia. }
    destruct sn as [ng s2]. cbn [snd] in Hsn.
    pose proof (span_digits_length s2) as Hl.
    destruct (span_digits s2) as [[|d ds] r0]; simpl in *; lia. }
  destruct ex as [x s3]. cbn [snd] in Hs3.
  destruct fracs, x; try destruct (_ <? Z.of_nat (length ints))%Z;
    intros [= <- <-]; lia.
Qed.

Lemma scan_enough f :
  enough scan_once f /\
  (forall acc, enough (fun g => parse_object_items g acc) f) /\
  (forall acc, enough (fun g => parse_array_items g acc) f).
Proof.
  induction f as [|n (IHs & IHo & IHa)].
  { split; [|split]; [intros s v r | intros acc s v r | intros acc s v r];
      discriminate. }
  split; [|split].
  - intros s v r. cbn [scan_once].
    destruct s as [|c rest]; [discriminate|].
    destruct (c =? DQUOTE)%N eqn:Eq.
    { destruct (scanstring rest) as [[k r1]|] eqn:Ek; [|discriminate]. cbn.
      intros [= <- <-]. apply scanstring_length in Ek as Hlen.
      split; [simpl; lia|]. intros [|g] Hg; [simpl in Hg; lia|].
      cbn [scan_once]. rewrite Eq, Ek. reflexivity. }
    destruct (c =? LBRACE)%N eqn:Eb.
    { destruct (skip_ws rest) as [|c' r'] eqn:Ew; [discriminate|].
      apply skip_ws_cons in Ew as Hlen.
      destruct (c' =? RBRACE)%N eqn:Er.
      - intros [= <- <-]. split; [simpl; lia|].
        intros [|g] Hg; [simpl in Hg; lia|].
        cbn [scan_once]. rewrite Eq, Eb, Ew, Er. reflexivity.
      - intros H. destruct (IHo [] _ _ _ H) as [Hl Hg0].
        split; [simpl in *; lia|].
        intros [|g] Hg; [simpl in *; lia|].
        cbn [scan_once]. rewrite Eq, Eb, Ew, Er.
        apply Hg0. simpl in *. lia. }
    destruct (c =? LBRACKET)%N eqn:Ek.
    { destruct (skip_ws rest) as [|c' r'] eqn:Ew; [discriminate|].
      apply skip_ws_cons in Ew as Hlen.
      destruct (c' =? RBRACKET)%N eqn:Er.
      - intros [= <- <-]. split; [simpl; lia|].
        intros [|g] Hg; [simpl in Hg; lia|].
        cbn [scan_once]. rewrite Eq, Eb, Ek, Ew, Er. reflexivity.
      - intros H. destruct (IHa [] _ _ _ H) as [Hl Hg0].
        split; [simpl in *; lia|].
        intros [|g] Hg; [simpl in *; lia|].
        cbn [scan_once]. rewrite Eq, Eb, Ek, Ew, Er.
        apply Hg0. simpl in *. lia. }
    intros H.
    assert (Hlen : (length r < length (c :: rest))%nat).
    { destruct (scan_constant (c :: rest)) as [[v1 r1]|] eqn:Ec.
      - inversion H; subst. eapply scan_constant_length; eauto.
      - eapply match_number_length; eauto. }
    split; [exact Hlen|].
    intros [|g] Hg; [lia|].
    cbn [scan_once]. rewrite Eq, Eb, Ek. exact H.
  - intros acc s v r. cbn [parse_object_items].
    destruct s as [|c s1]; [discriminate|].
    destruct (c =? DQUOTE)%N eqn:Eq; [|discriminate].
    destruct (scanstring s1) as [[key r1]|] eqn:Ek; [|discriminate]. cbn.
    apply scanstring_length in Ek as Hk.
    destruct (skip_ws r1) as [|c2 r2] eqn:Ew1; [discriminate|].
    apply skip_ws_cons in Ew1 as Hw1.
    destruct (c2 =? COLON)%N eqn:Ec; [|discriminate].
    destruct (scan_once n (skip_ws r2)) as [[val r3]|] eqn:Ev; [|discriminate]. cbn.
    destruct (IHs _ _ _ Ev) as [Hv Hvg].
    pose proof (lstrip_by_length json_ws r2) as Hw2. fold (skip_ws r2) in Hw2.
    destruct (skip_ws r3) as [|c4 r4] eqn:Ew3; [discriminate|].
    apply skip_ws_cons in Ew3 as Hw3.
    destruct (c4 =? RBRACE)%N eqn:Er.
    + intros [= <- <-]. split; [simpl; lia|].
      intros [|g] Hg; [simpl in Hg; lia|].
      cbn [parse_object_items]. rewrite Eq, Ek. cbn. rewrite Ew1, Ec.
      rewrite (Hvg g) by (simpl in Hg; lia). cbn. rewrite Ew3, Er. reflexivity.
    + destruct (c4 =? COMMA)%N eqn:Em; [|discriminate].
      intros H. destruct (IHo _ _ _ _ H) as [Hl Hg0].
      pose proof (lstrip_by_length json_ws r4) as Hw4. fold (skip_ws r4) in Hw4.
      split; [simpl; lia|].
      intros [|g] Hg; [simpl in Hg; lia|].
      cbn [parse_object_items]. rewrite Eq, Ek. cbn. rewrite Ew1, Ec.
      rewrite (Hvg g) by (simpl in Hg; lia). cbn. rewrite Ew3, Er, Em.
      apply Hg0. simpl in Hg. lia.
  - intros acc s v r. cbn [parse_array_items].
    destruct (scan_once n s) as [[val r1]|] eqn:Ev; [|discriminate]. cbn.
    destruct (IHs _ _ _ Ev) as [Hv Hvg].
    destruct (skip_ws r1) as [|c r2] eqn:Ew1; [discriminate|].
    apply skip_ws_cons in Ew1 as Hw1.
    destruct (c =? RBRACKET)%N eqn:Er.
    + intros [= <- <-]. split; [lia|].
      intros [|g] Hg; [lia|].
      cbn [parse_array_items]. rewrite (Hvg g) by lia. cbn.
      rewrite Ew1, Er. reflexivity.
    + destruct (c =? COMMA)%N eqn:Em; [|discriminate].
      intros H. destruct (IHa _ _ _ _ H) as [Hl Hg0].
      pose proof (lstrip_by_length json_ws r2) as Hw2. fold (skip_ws r2) in Hw2.
      split; [lia|].
      intros [|g] Hg; [lia|].
      cbn [parse_array_items]. rewrite (Hvg g) by lia. cbn.
      rewrite Ew1, Er, Em. apply Hg0. lia.
Qed.

(** Whatever any amount of fuel decodes, the fuel [json_loads] gives
    decodes too: its [None] is a decode error, never a lack of fuel. *)
Lemma scan_once_fuel_irrelevant fuel (s : str) v r :
  scan_once fuel s = Some (v, r) ->
  scan_once (S (length s)) s = Some (v, r).
Proof.
  intros H. destruct (scan_enough fuel) as [Hs _].
  destruct (Hs s v r H) as [_ Hg]. apply Hg. lia.
Qed.

Lemma decode_fuel_irrelevant fuel (s : str) v r :
  scan_once fuel (skip_ws s) = Some (v, r) ->
  skip_ws r = [] ->
  decode s = Some v.
Proof.
  intros H Hr. unfold decode.
  destruct (scan_enough fuel) as [Hs _].
  destruct (Hs _ _ _ H) as [_ Hg]. rewrite Hg.
  - cbn. rewrite Hr. reflexivity.
  - pose proof (lstrip_by_length json_ws s) as Hl. fold (skip_ws s) in Hl. lia.
Qed.

(** ** C1: no schema validation *)

(** C1 (as amended): the parser validates nothing beyond the decode.
    Whenever the text from its first opening brace decodes, the decoded
    value, always a mapping, is returned as it is, whatever its keys
    and values. *)
Theorem parse_llm_json_returns_decoded (text : str) (start : nat) (v : pyval) :
  str_index text LBRACE = Some start ->
  json_loads (slice_from start text) = Some v ->
  parse_llm_json text = v /\ exists d, v = PDict d.
Proof.
  intros Hi Hv. split.
  - unfold parse_llm_json. rewrite Hi. cbn. rewrite Hv. reflexivity.
  - apply str_index_Some in Hi as [rest Hrest]. rewrite Hrest in Hv.
    eapply json_loads_brace; eauto.
Qed.

Lemma parse_llm_json_returns_decoded_witness :
  str_index duplicate_choices_reply LBRACE = Some 6%nat /\
  json_loads (slice_from 6 duplicate_choices_reply)
    = Some (PDict [ (u "narrative", PStr (u "A"));
                    (u "choices", PList [PStr (u "x"); PStr (u "x")]) ]) /\
  parse_llm_json duplicate_choices_reply
    = PDict [ (u "narrative", PStr (u "A"));
              (u "choices", PList [PStr (u "x"); PStr (u "x")]) ].
Proof.
  split; [reflexivity|]. split; [reflexivity|].
  exact (proj1 (parse_llm_json_returns_decoded duplicate_choices_reply 6 _
                  eq_refl eq_refl)).
Defined.

(** Replies that break the schema of the specification and are
    returned all the same: no [narrative]; an empty [narrative]; equal
    choices; six choices; a [state_updates] that is not a mapping. *)
Lemma parse_llm_json_accepts_schema_violations :
  parse_llm_json (q "{'scene_id':'s1','choices':['a','b','c']}")
    = PDict [ (u "scene_id", PStr (u "s1"));
              (u "choices", PList [PStr (u "a"); PStr (u "b"); PStr (u "c")]) ] /\
  parse_llm_json (q "{'scene_id':'s1','narrative':'','choices':[]}")
    = PDict [ (u "scene_id", PStr (u "s1")); (u "narrative", PStr []);
              (u "choices", PList []) ] /\
  parse_llm_json duplicate_choices_reply
    = PDict [ (u "narrative", PStr (u "A"));
              (u "choices", PList [PStr (u "x"); PStr (u "x")]) ] /\
  parse_llm_json (q "{'scene_id':'s1','narrative':'A','choices':['a','b','c','d','e','f']}")
    = PDict [ (u "scene_id", PStr (u "s1")); (u "narrative", PStr (u "A"));
              (u "choices", PList [PStr (u "a"); PStr (u "b"); PStr (u "c");
                                   PStr (u "d"); PStr (u "e"); PStr (u "f")]) ] /\
  parse_llm_json (q "{'scene_id':'s1','narrative':'A','choices':[],'state_updates':'none'}")
    = PDict [ (u "scene_id", PStr (u "s1")); (u "narrative", PStr (u "A"));
              (u "choices", PList []); (u "state_updates", PStr (u "none")) ].
Proof. repeat split. Qed.

(** ** C3: code fences *)

(** C3 (not met by the code): a valid object inside a fence that
    carries the language tag is not parsed.  The first pass stops at
    the closing fence after the object; the fallback pass strips
    whitespace and backticks only, so the text it decodes still begins
    with the tag [json], and the parser returns [None]. *)
Theorem parse_llm_json_json_fence :
  (exists d, json_loads scenario_reply = Some (PDict d)) /\
  cleaned fenced_json_reply = u "json" ++ [LF] ++ scenario_reply /\
  parse_llm_json fenced_json_reply = PNone.
Proof. split; [eexists; vm_compute; reflexivity | split; vm_compute; reflexivity]. Qed.

(** The wrappings the parser does handle: surrounding whitespace, text
    before the object, and a fence without a tag. *)
Lemma parse_llm_json_tolerated :
  json_loads scenario_reply = Some (parse_llm_json scenario_reply) /\
  parse_llm_json ([LF; 32%N] ++ scenario_reply ++ [32%N; 11%N; LF])
    = parse_llm_json scenario_reply /\
  parse_llm_json (u "Sure! " ++ scenario_reply) = parse_llm_json scenario_reply /\
  parse_llm_json fenced_reply = parse_llm_json scenario_reply /\
  parse_llm_json (u "```json" ++ [LF] ++ scenario_reply)
    = parse_llm_json scenario_reply.
Proof. repeat split. Qed.

(** ** C5: texts without an opening brace *)

(** C5 (as amended): a text without an opening brace never yields a
    mapping.  The search for the brace raises, so the result is that of
    the fallback pass alone: the value decoded from the stripped text,
    or [None] when it does not decode; for the empty text it is
    [None]. *)
Theorem parse_llm_json_without_brace (text : str) :
  LBRACE ∉ text ->
  (forall d, parse_llm_json text <> PDict d) /\
  parse_llm_json text =
    match json_loads (cleaned text) with
    | Some parsed => parsed
    | None => PNone
    end /\
  (text = [] -> parse_llm_json text = PNone).
Proof.
  intros Hno.
  assert (Hparse : parse_llm_json text =
                   match json_loads (cleaned text) with
                   | Some parsed => parsed
                   | None => PNone
                   end).
  { unfold parse_llm_json. rewrite (str_index_None _ _ Hno). reflexivity. }
  split; [|split; [exact Hparse|]].
  - intros d Hd. rewrite Hparse in Hd.
    destruct (json_loads (cleaned text)) as [v|] eqn:E; [|discriminate].
    rewrite Hd in E. apply json_loads_dict in E. apply Hno.
    unfold cleaned, strip, strip_chars in E.
    repeat apply strip_by_subseteq in E. exact E.
  - intros ->. reflexivity.
Qed.

Lemma parse_llm_json_without_brace_witness :
(LBRACE ∉ u "I cannot continue the story.") /\
  (forall d, parse_llm_json (u "I cannot continue the story.") <> PDict d).
Proof.
  assert (H : LBRACE ∉ u "I cannot continue the story.").
  { apply (bool_decide_unpack _). vm_compute. exact I. }
  split; [exact H|].
  exact (proj1 (parse_llm_json_without_brace _ H)).
Defined.

(** A text without a brace that the fallback pass decodes: the parser
    returns the list, not [None], and [take_choice] goes on with it
    until [.get] raises. *)
Lemma parse_llm_json_returns_list :
(LBRACE ∉ u "[]") /\
  parse_llm_json (u "[]") = PList [] /\
  PList [] <> PNone /\
  outcome (take_choice (replies (u "[]")) (u "go") false scenario_state)
    = inr (Raised AttributeError).
Proof.
  split; [apply (bool_decide_unpack _); vm_compute; exact I|].
  repeat split. discriminate.
Qed.

(** ** The update loop, as a function of the dict it mutates *)

Lemma runtime_eta (rt : runtime) :
  {| objects := objects rt; session := session rt |} = rt.
Proof. destruct rt; reflexivity. Qed.

Lemma deref_lookup (h : list dict) r d : h !! r = Some d -> deref h r = d.
Proof. unfold deref; intros ->; reflexivity. Qed.

Lemma apply_state_updates_run items : forall rt l d,
  pc (session rt) = Some l ->
  objects rt !! l = Some d ->
  apply_state_updates items rt =
    Result {| objects := <[l := (update_dict items d).1]> (objects rt);
              session := session rt |} [] (update_dict items d).2.
Proof.
  induction items as [|[k v] items IH]; intros rt l d Hpc Hl.
  - simpl. rewrite list_insert_id by exact Hl. rewrite runtime_eta. reflexivity.
  - assert (Hlen : (l < length (objects rt))%nat) by (eapply lookup_lt_Some; eauto).
    cbn [apply_state_updates update_dict].
    unfold updated_value, apply_update, pc_get, pc_setitem, add.
    destruct (isinstance_int_float v).
    + run_script. rewrite Hpc. rewrite (deref_lookup _ _ _ Hl).
      destruct (py_add_number (dict_get d k (PInt 0)) v) as [e|new].
      * rewrite list_insert_id by exact Hl. rewrite runtime_eta. reflexivity.
      * cbn [objects session]. rewrite Hpc.
        erewrite IH; cbn [objects session];
          [| exact Hpc | apply list_lookup_insert_eq; exact Hlen].
        rewrite list_insert_insert_eq, ?(deref_lookup _ _ _ Hl). reflexivity.
    + run_script. rewrite Hpc.
      erewrite IH; cbn [objects session];
        [| exact Hpc | apply list_lookup_insert_eq; exact Hlen].
      rewrite (deref_lookup _ _ _ Hl).
      rewrite list_insert_insert_eq. reflexivity.
Qed.

(** ** What [take_choice] does, case by case *)

Lemma push_entry_run entry rt :
  push_entry entry rt = Result (appended rt entry) [] (inl ()).
Proof. reflexivity. Qed.

Lemma take_choice_run api choice_text is_custom rt :
  take_choice api choice_text is_custom rt =
  match api (choice_request rt choice_text is_custom) with
  | ApiFailure e =>
      Result rt [ st_error (u "OpenAI API error: " ++ e);
                  st_error (u "No response from LLM.") ] (inl ())
  | Completion None => Result rt [ st_error (u "No response from LLM.") ] (inl ())
  | Completion (Some raw) =>
      match parse_llm_json raw with
      | PNone => Result rt (parse_error_shown raw) (inl ())
      | PDict d =>
          match state_updates d with
          | PDict items =>
              match apply_state_updates items rt with
              | Result rt1 out (inl _) =>
                  Result (appended rt1 (history_entry d choice_text raw)) out
                         (inr Rerun)
              | Result rt1 out (inr sg) => Result rt1 out (inr sg)
              end
          | _ => Result rt [] (inr (Raised AttributeError))
          end
      | _ => Result rt [] (inr (Raised AttributeError))
      end
  end.
Proof.
  unfold take_choice, call_llm, choice_request.
  run_script.
  destruct (api _) as [[raw|]|e]; try reflexivity.
  destruct (parse_llm_json raw) as [| | | | | |d]; try reflexivity.
  unfold method_get, method_items, state_updates. run_script.
  destruct (py_or _ _); try reflexivity.
  destruct (apply_state_updates d0 rt) as [rt1 out [[]|sg]]; try reflexivity.
  unfold push_entry, appended, history_entry. run_script. cbn [app].
  rewrite !app_nil_r. reflexivity.
Qed.

(** The update loop never allocates, never touches the session, shows
    nothing, and leaves every object but the character alone. *)
Lemma apply_state_updates_frame items : forall rt,
  let r := apply_state_updates items rt in
  session (final r) = session rt /\
  length (objects (final r)) = length (objects rt) /\
  shown r = [] /\
  (forall l', pc (session rt) <> Some l' ->
              objects (final r) !! l' = objects rt !! l').
Proof.
  induction items as [|[k v] items IH]; intros rt; cbn zeta.
  - cbn. auto.
  - cbn [apply_state_updates].
    unfold apply_update, pc_get, pc_setitem, add.
    destruct (pc (session rt)) as [l|] eqn:Hpc.
    + assert (Hstep : forall new,
        let rt1 := {| objects := <[l := dict_set (deref (objects rt) l) k new]> (objects rt);
                      session := session rt |} in
        let r := apply_state_updates items rt1 in
        session (final r) = session rt /\
        length (objects (final r)) = length (objects rt) /\
        shown r = [] /\
        (forall l', Some l <> Some l' -> objects (final r) !! l' = objects rt !! l')).
      { intros new rt1 r. destruct (IH rt1) as (Hs & Hlen & Hsh & Hfr).
        fold r in Hs, Hlen, Hsh, Hfr. cbn [session objects rt1] in *.
        rewrite length_insert in Hlen. repeat split; auto.
        intros l' Hne. rewrite Hfr by (rewrite Hpc; exact Hne).
        apply list_lookup_insert_ne. congruence. }
      destruct (isinstance_int_float v); run_script; rewrite ?Hpc.
      * destruct (py_add_number (dict_get (deref (objects rt) l) k (PInt 0)) v)
          as [e|new]; cbn [objects session]; rewrite ?Hpc.
        -- cbn. auto.
        -- specialize (Hstep new). cbn zeta in Hstep.
           destruct (apply_state_updates items _) as [rt2 out o].
           cbn [final shown] in *. destruct Hstep as (? & ? & -> & ?). auto.
      * specialize (Hstep v). cbn zeta in Hstep.
        destruct (apply_state_updates items _) as [rt2 out o].
        cbn [final shown] in *. destruct Hstep as (? & ? & -> & ?). auto.
    + destruct (isinstance_int_float v); run_script; rewrite ?Hpc; cbn; auto.
Qed.


Lemma dict_lookup_elem_of (items : dict) k v :
  dict_lookup items k = Some v -> (k, v) ∈ items.
Proof.
  induction items as [|[k' v'] items IH]; simpl; [discriminate|].
  destruct (str_eqb k' k) eqn:E.
  - apply str_eqb_eq in E; subst. intros [= ->]. apply list_elem_of_here.
  - intros H. apply list_elem_of_further. auto.
Qed.



(** ** C2: failures of [take_choice] and what they leave behind *)

(** When the backend gives nothing, nothing changes. *)
Lemma take_choice_backend_failure api choice_text is_custom rt :
  (exists e, api (choice_request rt choice_text is_custom) = ApiFailure e) \/
  api (choice_request rt choice_text is_custom) = Completion None ->
  final (take_choice api choice_text is_custom rt) = rt /\
  outcome (take_choice api choice_text is_custom rt) = inl ().
Proof.
  intros [[e H]|H]; rewrite take_choice_run, H; auto.
Qed.

(** When the parser returns [None], nothing changes and the raw text is
    shown verbatim. *)
Lemma take_choice_parse_failure api choice_text is_custom rt raw :
  api (choice_request rt choice_text is_custom) = Completion (Some raw) ->
  parse_llm_json raw = PNone ->
  take_choice api choice_text is_custom rt =
    Result rt (parse_error_shown raw) (inl ()).
Proof.
  intros H Hp. rewrite take_choice_run, H, Hp. reflexivity.
Qed.

Lemma aryn_state_reachable py_str : reachable py_str (aryn_state py_str).
Proof. apply reach_create; [apply reach_init | reflexivity]. Qed.

(** C2 (not met by the code): the reply [partial_reply] decodes,
    its first update is applied to the character, the second raises
    [TypeError] (a number added to the name), and [take_choice] ends
    there: the character has changed ([hp] from 10 to 8) while the
    history and the current scene have not.  The session is the one the
    character form leaves behind. *)
Theorem take_choice_partial_update (py_str : pyval -> str) :
  let rt := aryn_state py_str in
  let r := take_choice (replies partial_reply) (u "Look around") true rt in
  reachable py_str rt /\
  outcome r = inr (Raised TypeError) /\
  pc (session rt) = Some 0%nat /\
  dict_lookup (deref (objects rt) 0) (u "hp") = Some (PInt 10) /\
  dict_lookup (deref (objects (final r)) 0) (u "hp") = Some (PInt 8) /\
  story_history (session (final r)) = story_history (session rt) /\
  current_scene (session (final r)) = current_scene (session rt).
Proof.
  split; [apply aryn_state_reachable|]. vm_compute. repeat split.
Qed.

(** ** C4: the merge rule of the update loop *)




(** ** C7: the end-to-end scenario *)

(** C7: from the character [{hp: 10, strength: 5}] and an empty
    history, when the backend answers [scenario_reply],
    [take_choice("begin", is_custom=True)] completes (it ends in the
    rerun), [hp] is 8, and the history holds exactly one entry, whose
    [scene_id] is "s1" and whose [choice_taken] is "begin"; that entry
    is the current scene. *)
Theorem end_to_end_scenario (api : backend) :
  api (choice_request scenario_state (u "begin") true)
    = Completion (Some scenario_reply) ->
  let r := take_choice api (u "begin") true scenario_state in
  outcome r = inr Rerun /\
  dict_lookup (deref (objects (final r)) 0) (u "hp") = Some (PInt 8) /\
  exists e,
    story_history (session (final r)) = [e] /\
    current_scene (session (final r)) = Some e /\
    dict_lookup (deref (objects (final r)) e) (u "scene_id") = Some (PStr (u "s1")) /\
    dict_lookup (deref (objects (final r)) e) (u "choice_taken")
      = Some (PStr (u "begin")).
Proof.
  intros H r. subst r. rewrite take_choice_run, H.
  vm_compute. repeat split. exists 1%nat. repeat split.
Qed.

Lemma end_to_end_scenario_witness :
  let r := take_choice (replies scenario_reply) (u "begin") true scenario_state in
  outcome r = inr Rerun /\
  dict_lookup (deref (objects (final r)) 0) (u "hp") = Some (PInt 8) /\
  exists e,
    story_history (session (final r)) = [e] /\
    current_scene (session (final r)) = Some e /\
    dict_lookup (deref (objects (final r)) e) (u "scene_id") = Some (PStr (u "s1")) /\
    dict_lookup (deref (objects (final r)) e) (u "choice_taken")
      = Some (PStr (u "begin")).
Proof.
  apply (end_to_end_scenario (replies scenario_reply)). reflexivity.
Defined.

(** ** C8: the history window *)

Lemma py_slice_from_neg {A} (n : nat) (l : list A) :
  (1 <= n)%nat -> py_slice_from (- Z.of_nat n) l = drop (length l - n) l.
Proof.
  intros Hn. unfold py_slice_from.
  destruct (- Z.of_nat n <? 0)%Z eqn:E; [|apply Z.ltb_ge in E; lia].
  f_equal. lia.
Qed.






(** The claim's "every n" fails at [n = 0]: [history[-0:]] is
    [history[0:]], the whole ledger, where the claim asks for the last
    [min 0 10 = 0] entries; and the composer cannot be given another
    window than 6. *)
Lemma history_window_zero :
  let ledger := [10; 20; 30; 40; 50; 60; 70; 80; 90; 100]%nat in
  py_slice_from (- Z.of_nat 0) ledger = ledger /\
  length (py_slice_from (- Z.of_nat 0) ledger) <> Nat.min 0 (length ledger) /\
  hist_excerpt ledger = [50; 60; 70; 80; 90; 100]%nat.
Proof. repeat split. discriminate. Qed.

(** ** C9: the update loop works in place *)

(** Whether the loop completes or raises, it works on the one object
    the session refers to. *)
Lemma apply_state_updates_same_object rt l d (updates : dict) :
  pc (session rt) = Some l ->
  objects rt !! l = Some d ->
  let r := apply_state_updates updates rt in
  outcome r = (update_dict updates d).2 /\
  pc (session (final r)) = Some l /\
  length (objects (final r)) = length (objects rt) /\
  objects (final r) !! l = Some (update_dict updates d).1 /\
  (forall l', l' <> l -> objects (final r) !! l' = objects rt !! l').
Proof.
  intros Hpc Hl r. subst r.
  rewrite (apply_state_updates_run updates rt l d Hpc Hl). cbn [final outcome objects session].
  assert (Hlen : (l < length (objects rt))%nat) by (eapply lookup_lt_Some; eauto).
  split; [reflexivity|]. split; [exact Hpc|]. split; [apply length_insert|].
  split; [apply list_lookup_insert_eq; exact Hlen|].
  intros l' Hne. apply list_lookup_insert_ne. congruence.
Qed.

(** C9 (as amended): when the loop completes it has mutated the
    character dict in place: the session keeps the same reference, no
    object has been created, every other object is untouched, and the
    object referred to now holds the updated mapping [d']; the contents
    it had before are kept nowhere. *)
Theorem apply_state_updates_in_place rt l d (updates : dict) :
  pc (session rt) = Some l ->
  objects rt !! l = Some d ->
  outcome (apply_state_updates updates rt) = inl () ->
  let r := apply_state_updates updates rt in
  exists d',
    update_dict updates d = (d', inl ()) /\
    pc (session (final r)) = Some l /\
    length (objects (final r)) = length (objects rt) /\
    objects (final r) !! l = Some d' /\
    (forall l', l' <> l -> objects (final r) !! l' = objects rt !! l').
Proof.
  intros Hpc Hl Hok r.
  destruct (apply_state_updates_same_object rt l d updates Hpc Hl)
    as (Ho & Hp & Hlen & Hd & Hfr).
  fold r in Ho, Hp, Hlen, Hd, Hfr. subst r. rewrite Hok in Ho.
  exists (update_dict updates d).1. split; [|auto].
  destruct (update_dict updates d) as [d' o]. cbn in *. congruence.
Qed.

(** The object the session referred to before the loop holds the new
    values afterwards; the old snapshot is gone. *)
Lemma character_overwritten_in_place :
  let r := apply_state_updates [ (u "hp", PInt (-2)) ] scenario_state in
  pc (session (final r)) = pc (session scenario_state) /\
  length (objects (final r)) = length (objects scenario_state) /\
  objects scenario_state !! 0%nat = Some [ (u "hp", PInt 10%Z); (u "strength", PInt 5) ] /\
  objects (final r) !! 0%nat = Some [ (u "hp", PInt 8); (u "strength", PInt 5) ].
Proof. repeat split. Qed.

Lemma apply_state_updates_in_place_witness :
  let r := apply_state_updates [ (u "hp", PInt (-2)) ] scenario_state in
  pc (session scenario_state) = Some 0%nat /\
  pc (session (final r)) = Some 0%nat /\
  length (objects (final r)) = 1%nat.
Proof.
  intros r.
  destruct (apply_state_updates_in_place scenario_state 0%nat
              [ (u "hp", PInt 10%Z); (u "strength", PInt 5) ]
              [ (u "hp", PInt (-2)) ] eq_refl eq_refl eq_refl)
    as (d' & _ & Hpc & Hlen & _ & _).
  split; [reflexivity|]. split; [exact Hpc | exact Hlen].
Defined.

(** ** C10: the entry appended on success *)

Lemma history_entry_fields (d : dict) choice_text raw k :
  k = u "scene_id" \/ k = u "narrative" \/ k = u "choices" ->
  dict_lookup (history_entry d choice_text raw) k = Some (dict_get d k PNone).
Proof. intros [ -> | [ -> | -> ] ]; reflexivity. Qed.

(** C10 (as amended): when the reply decodes to a mapping [d] and the
    update loop ends normally, [take_choice] appends exactly one entry,
    a new object that is also the current scene; its [scene_id],
    [narrative] and [choices] are those of [d], or [None] where [d] has
    no such key: nothing checks that they are present. *)
Theorem take_choice_appends_entry api choice_text is_custom rt raw d items :
  api (choice_request rt choice_text is_custom) = Completion (Some raw) ->
  parse_llm_json raw = PDict d ->
  state_updates d = PDict items ->
  outcome (apply_state_updates items rt) = inl () ->
  let r := take_choice api choice_text is_custom rt in
  let e := length (objects rt) in
  outcome r = inr Rerun /\
  story_history (session (final r)) = story_history (session rt) ++ [e] /\
  current_scene (session (final r)) = Some e /\
  objects (final r) !! e = Some (history_entry d choice_text raw) /\
  (forall k, k = u "scene_id" \/ k = u "narrative" \/ k = u "choices" ->
     dict_lookup (history_entry d choice_text raw) k
       = Some (match dict_lookup d k with Some v => v | None => PNone end)).
Proof.
  intros Hapi Hparse Hupd Hok r e. subst r e.
  rewrite take_choice_run, Hapi, Hparse, Hupd.
  destruct (apply_state_updates_frame items rt) as (Hs & Hlen & _ & _).
  destruct (apply_state_updates items rt) as [rt1 out [[]|sg]]; [|discriminate].
  cbn [final outcome] in *. unfold appended. cbn [session objects].
  rewrite Hs, Hlen. repeat split.
  - rewrite <- Hlen. apply list_lookup_middle. reflexivity.
  - intros k Hk. apply history_entry_fields. exact Hk.
Qed.

Lemma take_choice_appends_entry_witness :
  let r := take_choice (replies bare_reply) (u "go") false scenario_state in
  outcome r = inr Rerun /\
  story_history (session (final r)) = [1%nat] /\
  current_scene (session (final r)) = Some 1%nat /\
  dict_lookup (deref (objects (final r)) 1) (u "narrative") = Some PNone /\
  dict_lookup (deref (objects (final r)) 1) (u "choices") = Some PNone.
Proof.
  destruct (take_choice_appends_entry (replies bare_reply) (u "go") false
              scenario_state bare_reply
              [ (u "state_updates", PDict [ (u "hp", PInt (-2)) ]) ]
              [ (u "hp", PInt (-2)) ])
    as (H1 & H2 & H3 & H4 & H5); try reflexivity.
  repeat split; try assumption.
Defined.

(** A reply that decodes to a mapping and yet appends nothing: its
    [state_updates] is a list, and [.items()] raises. *)
Lemma take_choice_appends_nothing :
  (exists d, parse_llm_json list_updates_reply = PDict d) /\
  let r := take_choice (replies list_updates_reply) (u "go") false scenario_state in
  outcome r = inr (Raised AttributeError) /\
  story_history (session (final r)) = story_history (session scenario_state).
Proof. split; [eexists; vm_compute; reflexivity | vm_compute; split; reflexivity]. Qed.

(** ** C6: the current scene and the history *)

Lemma create_character_run py_str name court archetype strength guile magic rt :
  create_character py_str name court archetype strength guile magic rt =
  Result
    {| objects :=
         (objects rt ++ [new_character name court archetype strength guile magic])
           ++ [prologue_scene name];
       session :=
         with_current_scene (Some (S (length (objects rt))))
           (with_story_history []
              (with_pc (Some (length (objects rt))) (session rt))) |}
    [] (inr Rerun).
Proof.
  unfold create_character, start_new_adventure, pc_getitem. run_script.
  cbn [session objects pc with_pc with_story_history with_current_scene].
  unfold deref. rewrite list_lookup_middle by reflexivity.
  change (dict_lookup (new_character name court archetype strength guile magic)
            (u "name")) with (Some (PStr name)).
  cbv iota beta. cbn [session objects pc with_pc with_story_history
                      with_current_scene format_value app].
  rewrite length_app, Nat.add_comm. reflexivity.
Qed.

Lemma restart_session_run rt :
  restart_session rt =
  Result {| objects := objects rt;
            session := with_current_scene None
                         (with_story_history [] (session rt)) |}
         [] (inr Rerun).
Proof. reflexivity. Qed.

Lemma begin_adventure_run api rt :
  begin_adventure api rt =
  match api (begin_request rt) with
  | ApiFailure e =>
      Result rt [ st_error (u "OpenAI API error: " ++ e);
                  st_error (u "Failed to get opening scene from LLM.") ] (inl ())
  | Completion None =>
      Result rt [ st_error (u "Failed to get opening scene from LLM.") ] (inl ())
  | Completion (Some raw) =>
      match parse_llm_json raw with
      | PNone =>
          Result rt
            [ st_error (u "Failed to parse LLM output for opening scene. Raw output shown:");
              st_code raw ] (inl ())
      | PDict d => Result (appended rt (history_entry d [] raw)) [] (inr Rerun)
      | _ => Result rt [] (inr (Raised AttributeError))
      end
  end.
Proof.
  unfold begin_adventure, call_llm, begin_request, choice_request.
  run_script.
  destruct (api _) as [[raw|]|e]; try reflexivity.
  destruct (parse_llm_json raw) as [| | | | | |d]; reflexivity.
Qed.

Lemma invariant_init : session_invariant init_session_state.
Proof. split; cbn; intros; discriminate. Qed.

Lemma invariant_restart rt :
  session_invariant rt -> session_invariant (final (restart_session rt)).
Proof.
  intros [Hpc Hsc Hlast Hempty]. rewrite restart_session_run.
  split; cbn; try (intros; discriminate). exact Hpc.
Qed.

Lemma invariant_create py_str name court archetype strength guile magic rt :
  session_invariant rt ->
  session_invariant
    (final (create_character py_str name court archetype strength guile magic rt)).
Proof.
  intros _. rewrite create_character_run.
  split; cbn [final session objects pc current_scene story_history
              with_pc with_story_history with_current_scene].
  - intros l [= <-]. rewrite !length_app. cbn. lia.
  - intros r [= <-]. rewrite !length_app. cbn. split; [lia|].
    intros [= H]. lia.
  - cbn. discriminate.
  - intros _ r [= <-]. exists (prologue_scene name). split; [|reflexivity].
    apply list_lookup_middle. rewrite length_app. cbn. lia.
Qed.

(** Appending an entry keeps the invariant. *)
Lemma invariant_appended rt entry :
  (forall l, pc (session rt) = Some l -> (l < length (objects rt))%nat) ->
  session_invariant (appended rt entry).
Proof.
  intros Hpc. unfold appended.
  split; cbn [session objects pc current_scene story_history
              with_pc with_story_history with_current_scene].
  - intros l Hl. rewrite length_app. specialize (Hpc l Hl). lia.
  - intros r [= <-]. rewrite length_app. cbn. split; [lia|].
    intros Hl. specialize (Hpc _ Hl). lia.
  - intros r. rewrite last_snoc. intros [= <-]. reflexivity.
  - intros H. destruct (story_history (session rt)); discriminate.
Qed.

(** Mutating the character object, and nothing else, keeps it too. *)
Lemma invariant_frame rt rt1 :
  session_invariant rt ->
  session rt1 = session rt ->
  length (objects rt1) = length (objects rt) ->
  (forall l', pc (session rt) <> Some l' -> objects rt1 !! l' = objects rt !! l') ->
  session_invariant rt1.
Proof.
  intros [Hpc Hsc Hlast Hempty] Hs Hlen Hfr.
  split; rewrite ?Hs, ?Hlen; auto.
  intros Hnil r Hr. destruct (Hsc r Hr) as [_ Hne].
  rewrite (Hfr r Hne). auto.
Qed.

Lemma invariant_begin api rt :
  session_invariant rt -> session_invariant (final (begin_adventure api rt)).
Proof.
  intros Hinv. rewrite begin_adventure_run.
  destruct (api _) as [[raw|]|e]; try exact Hinv.
  destruct (parse_llm_json raw); try exact Hinv.
  apply invariant_appended. apply Hinv.
Qed.

Lemma invariant_choice api choice_text is_custom rt :
  session_invariant rt ->
  session_invariant (final (take_choice api choice_text is_custom rt)).
Proof.
  intros Hinv. rewrite take_choice_run.
  destruct (api _) as [[raw|]|e]; try exact Hinv.
  destruct (parse_llm_json raw) as [| | | | | |d]; try exact Hinv.
  destruct (state_updates d) as [| | | | | |items]; try exact Hinv.
  destruct (apply_state_updates_frame items rt) as (Hs & Hlen & _ & Hfr).
  destruct (apply_state_updates items rt) as [rt1 out [[]|sg]];
    cbn [final] in *.
  - apply invariant_appended. rewrite Hs, Hlen. apply Hinv.
  - eapply invariant_frame; eauto.
Qed.

Lemma reachable_invariant py_str rt :
  reachable py_str rt -> session_invariant rt.
Proof.
  induction 1.
  - apply invariant_init.
  - apply invariant_restart; assumption.
  - apply invariant_create; assumption.
  - apply invariant_begin; assumption.
  - apply invariant_choice; assumption.
Qed.

(** C6 (as amended): in every reachable state with a non-empty history
    the current scene is the last entry of the history; with an empty
    history it is [None] (at first and after a restart) or the prologue
    scene that [start_new_adventure] installs without appending it. *)
Theorem current_scene_invariant py_str rt :
  reachable py_str rt ->
  (forall r, last (story_history (session rt)) = Some r ->
             current_scene (session rt) = Some r) /\
  (story_history (session rt) = [] ->
   current_scene (session rt) = None \/
   exists r d, current_scene (session rt) = Some r /\
               objects rt !! r = Some d /\ is_prologue d).
Proof.
  intros Hreach. apply reachable_invariant in Hreach as [Hpc Hsc Hlast Hempty].
  split; [exact Hlast|].
  intros Hnil. destruct (current_scene (session rt)) as [r|] eqn:E; [right|left; reflexivity].
  destruct (Hempty Hnil r eq_refl) as (d & Hd & Hp). eauto.
Qed.

(** Right after the character form is submitted the history is empty
    and the current scene is the prologue: neither [None] nor the last
    entry of the history. *)
Lemma current_scene_not_always_last :
  ~ (forall py_str rt,
       reachable py_str rt ->
       current_scene (session rt) = last (story_history (session rt))).
Proof.
  intros H. specialize (H no_str _ (aryn_state_reachable no_str)).
  vm_compute in H. discriminate.
Qed.

Lemma current_scene_invariant_witness :
  let rt := final (take_choice (replies scenario_reply) (u "begin") true
                     (aryn_state no_str)) in
  reachable no_str rt /\
  story_history (session rt) = [2%nat] /\
  current_scene (session rt) = Some 2%nat.
Proof.
  intros rt.
  assert (Hr : reachable no_str rt).
  { apply reach_choice; [apply aryn_state_reachable | discriminate | discriminate]. }
  split; [exact Hr|]. split; [reflexivity|].
  exact (proj1 (current_scene_invariant no_str rt Hr) 2%nat eq_refl).
Defined.

(** * Further properties of the script *)

(** ** The character and the history in reachable states *)

Lemma dict_set_keeps_key (d : dict) k v k' :
  is_Some (dict_lookup d k') -> is_Some (dict_lookup (dict_set d k v) k').
Proof.
  intros H. destruct (decide (k = k')) as [->|Hne].
  - rewrite dict_lookup_set_eq. eauto.
  - rewrite dict_lookup_set_ne by exact Hne. exact H.
Qed.

Lemma update_dict_keeps_key items : forall (d : dict) k',
  is_Some (dict_lookup d k') ->
  is_Some (dict_lookup (update_dict items d).1 k').
Proof.
  induction items as [|[k v] items IH]; intros d k' H; [exact H|].
  cbn [update_dict]. destruct (updated_value d k v) as [e|new]; [exact H|].
  apply IH, dict_set_keeps_key, H.
Qed.

Lemma ledger_init : ledger_invariant init_session_state.
Proof.
  split; cbn.
  - intros l; discriminate.
  - intros r Hr. apply elem_of_nil in Hr as [].
  - apply NoDup_nil_2.
  - intros r; discriminate.
Qed.

Lemma ledger_restart rt :
  ledger_invariant rt -> ledger_invariant (final (restart_session rt)).
Proof.
  intros [Hpc Hent Hnd Hsc]. rewrite restart_session_run.
  split; cbn.
  - exact Hpc.
  - intros r Hr. apply elem_of_nil in Hr as [].
  - apply NoDup_nil_2.
  - intros r; discriminate.
Qed.

Lemma ledger_create py_str name court archetype strength guile magic rt :
  ledger_invariant
    (final (create_character py_str name court archetype strength guile magic rt)).
Proof.
  rewrite create_character_run.
  split; cbn [final session objects pc current_scene story_history
              with_pc with_story_history with_current_scene].
  - intros l [= <-].
    exists (new_character name court archetype strength guile magic). split.
    + rewrite lookup_app_l by (rewrite length_app; cbn; lia).
      apply list_lookup_middle. reflexivity.
    + intros k Hk. apply list_elem_of_In in Hk. cbn in Hk.
      repeat (destruct Hk as [<-|Hk]; [cbn; eauto|]). destruct Hk.
  - intros r Hr. apply elem_of_nil in Hr as [].
  - apply NoDup_nil_2.
  - intros r _. eauto.
Qed.

(** Appending the entry made from a decoded reply keeps the invariant. *)
Lemma ledger_appended rt d choice_text raw :
  ledger_invariant rt ->
  is_Some (pc (session rt)) ->
  parse_llm_json raw = PDict d ->
  ledger_invariant (appended rt (history_entry d choice_text raw)).
Proof.
  intros [Hpc Hent Hnd Hsc] Hsome Hparse. unfold appended.
  split; cbn [session objects pc current_scene story_history
              with_pc with_story_history with_current_scene].
  - intros l Hl. destruct (Hpc l Hl) as (pcd & Hd & Hk).
    exists pcd. split; [|exact Hk].
    rewrite lookup_app_l by (eapply lookup_lt_Some; eauto). exact Hd.
  - intros r Hr. apply elem_of_app in Hr as [Hr|Hr].
    + destruct (Hent r Hr) as (Hne & d0 & c0 & raw0 & Hd0 & Hp0).
      split; [exact Hne|]. exists d0, c0, raw0. split; [|exact Hp0].
      rewrite lookup_app_l by (eapply lookup_lt_Some; eauto). exact Hd0.
    + apply list_elem_of_singleton in Hr as ->. split.
      * intros Hl. destruct (Hpc _ Hl) as (pcd & Hd & _).
        apply lookup_lt_Some in Hd. lia.
      * exists d, choice_text, raw. split; [|exact Hparse].
        apply list_lookup_middle. reflexivity.
  - apply NoDup_app. split; [exact Hnd|]. split; [|apply NoDup_singleton].
    intros r Hr Hr'. apply list_elem_of_singleton in Hr' as ->.
    destruct (Hent _ Hr) as (_ & d0 & c0 & raw0 & Hd0 & _).
    apply lookup_lt_Some in Hd0. lia.
  - intros r _. exact Hsome.
Qed.

(** Changing the contents of the character, keeping its keys, keeps the
    invariant. *)
Lemma ledger_frame rt rt1 :
  ledger_invariant rt ->
  session rt1 = session rt ->
  (forall l', pc (session rt) <> Some l' -> objects rt1 !! l' = objects rt !! l') ->
  (forall l d, pc (session rt) = Some l -> objects rt !! l = Some d ->
     exists d1, objects rt1 !! l = Some d1 /\
                forall k, is_Some (dict_lookup d k) -> is_Some (dict_lookup d1 k)) ->
  ledger_invariant rt1.
Proof.
  intros [Hpc Hent Hnd Hsc] Hs Hfr Hobj.
  split; rewrite ?Hs; auto.
  - intros l Hl. destruct (Hpc l Hl) as (d & Hd & Hk).
    destruct (Hobj l d Hl Hd) as (d1 & Hd1 & Hk1). eauto.
  - intros r Hr. destruct (Hent r Hr) as (Hne & d0 & c0 & raw0 & Hd0 & Hp0).
    split; [exact Hne|]. exists d0, c0, raw0. rewrite (Hfr r Hne). auto.
Qed.

Lemma ledger_begin api rt :
  ledger_invariant rt ->
  is_Some (pc (session rt)) ->
  ledger_invariant (final (begin_adventure api rt)).
Proof.
  intros Hinv Hsome. rewrite begin_adventure_run.
  destruct (api _) as [[raw|]|e]; try exact Hinv.
  destruct (parse_llm_json raw) eqn:Hp; try exact Hinv.
  apply ledger_appended; assumption.
Qed.

Lemma ledger_choice api choice_text is_custom rt :
  ledger_invariant rt ->
  is_Some (pc (session rt)) ->
  ledger_invariant (final (take_choice api choice_text is_custom rt)).
Proof.
  intros Hinv [l Hl]. rewrite take_choice_run.
  destruct (api _) as [[raw|]|e]; try exact Hinv.
  destruct (parse_llm_json raw) as [| | | | | |d] eqn:Hp; try exact Hinv.
  destruct (state_updates d) as [| | | | | |items]; try exact Hinv.
  destruct (led_pc _ Hinv l Hl) as (pcd & Hd & Hk).
  destruct (apply_state_updates_same_object rt l pcd items Hl Hd)
    as (_ & Hpc1 & _ & Hd1 & Hfr).
  destruct (apply_state_updates_frame items rt) as (Hs & _ & _ & _).
  assert (Hinv1 : ledger_invariant (final (apply_state_updates items rt))).
  { eapply ledger_frame; eauto.
    - intros l' Hne. apply Hfr. congruence.
    - intros l0 d0 Hl0 Hd0. assert (l0 = l) by congruence. subst l0.
      assert (d0 = pcd) by congruence. subst d0.
      eexists. split; [exact Hd1|]. intros k. apply update_dict_keeps_key. }
  destruct (apply_state_updates items rt) as [rt1 out [[]|sg]];
    cbn [final] in *; [|exact Hinv1].
  apply ledger_appended; [exact Hinv1 | rewrite Hpc1; eauto | exact Hp].
Qed.

Lemma reachable_ledger py_str rt :
  reachable py_str rt -> ledger_invariant rt.
Proof.
  induction 1 as [|rt H IH|rt n c a s g m H IH Hpc|rt api H IH Hpc Hsc
                  |rt api ct cu H IH Hpc Hsc].
  - apply ledger_init.
  - apply ledger_restart, IH.
  - apply ledger_create.
  - apply ledger_begin; [exact IH|]. destruct (pc (session rt)); [eauto|congruence].
  - apply ledger_choice; [exact IH|]. destruct (pc (session rt)); [eauto|congruence].
Qed.

(** ** How [take_choice] can end *)

(** The update loop raises nothing but [TypeError], [AttributeError]
    and [OverflowError], and [AttributeError] only without a
    character. *)
Lemma apply_state_updates_raises items : forall rt sg,
  outcome (apply_state_updates items rt) = inr sg ->
  (sg = Raised TypeError \/ sg = Raised OverflowError) \/
  (sg = Raised AttributeError /\ pc (session rt) = None).
Proof.
  induction items as [|[k v] items IH]; intros rt sg; [discriminate|].
  cbn [apply_state_updates]. unfold apply_update, pc_get, pc_setitem, add.
  destruct (pc (session rt)) as [l|] eqn:Hpc.
  - assert (Hrec : forall new,
      outcome (apply_state_updates items
                 {| objects := <[l:=dict_set (deref (objects rt) l) k new]> (objects rt);
                    session := session rt |}) = inr sg ->
      (sg = Raised TypeError \/ sg = Raised OverflowError) \/
      (sg = Raised AttributeError /\ Some l = None)).
    { intros new H. apply IH in H. cbn [session] in H. rewrite Hpc in H. exact H. }
    destruct (isinstance_int_float v); run_script; rewrite ?Hpc.
    + unfold py_add_number.
      destruct (as_number (dict_get (deref (objects rt) l) k (PInt 0))) as [a|];
        [destruct (as_number v) as [b|]; [destruct (number_add a b) as [new|]|]|];
        cbn [objects session]; rewrite ?Hpc;
        try (cbn; intros [= <-]; auto).
      specialize (Hrec new).
      destruct (apply_state_updates items _) as [rt2 out2 [[]|sg2]];
        cbn in *; [discriminate|]. intros [= <-]. apply Hrec. reflexivity.
    + specialize (Hrec v).
      destruct (apply_state_updates items _) as [rt2 out2 [[]|sg2]];
        cbn in *; [discriminate|]. intros [= <-]. apply Hrec. reflexivity.
  - destruct (isinstance_int_float v); run_script; rewrite ?Hpc; cbn;
      intros [= <-]; auto.
Qed.


(** X2: whatever the reply, [take_choice] changes no object that
    existed before the call other than the character: every scene
    entry, and the prologue, keep their contents. *)
Theorem take_choice_touches_character_only api choice_text is_custom rt (r' : ref) :
  (r' < length (objects rt))%nat ->
  pc (session rt) <> Some r' ->
  objects (final (take_choice api choice_text is_custom rt)) !! r'
    = objects rt !! r'.
Proof.
  intros Hlt Hne. rewrite take_choice_run.
  destruct (api _) as [[raw|]|e]; try reflexivity.
  destruct (parse_llm_json raw) as [| | | | | |d]; try reflexivity.
  destruct (state_updates d) as [| | | | | |items]; try reflexivity.
  destruct (apply_state_updates_frame items rt) as (_ & Hlen & _ & Hfr).
  specialize (Hfr r' Hne).
  destruct (apply_state_updates items rt) as [rt1 out [[]|sg]]; cbn in *;
    [|exact Hfr].
  rewrite lookup_app_l by lia. exact Hfr.
Qed.

Lemma take_choice_touches_character_only_witness :
  let rt := aryn_state no_str in
  (1 < length (objects rt))%nat /\
  pc (session rt) <> Some 1%nat /\
  objects (final (take_choice (replies partial_reply) (u "Look around") true rt))
    !! 1%nat = objects rt !! 1%nat.
Proof.
  intros rt.
  assert (H1 : (1 < length (objects rt))%nat) by (vm_compute; lia).
  assert (H2 : pc (session rt) <> Some 1%nat) by discriminate.
  split; [exact H1|]. split; [exact H2|].
  exact (take_choice_touches_character_only (replies partial_reply)
           (u "Look around") true rt 1%nat H1 H2).
Defined.

(** X3: in every reachable state each entry of the history is the dict
    [take_choice] (or the Begin button) built from a reply: it has the
    five keys, its [raw_llm] is the reply verbatim, and parsing that
    text again yields the mapping its [scene_id], [narrative] and
    [choices] were read from.  The entries are pairwise different
    objects, and none of them is the character dict. *)
Theorem history_entries_reparse py_str rt :
  reachable py_str rt ->
  NoDup (story_history (session rt)) /\
  forall r, r ∈ story_history (session rt) ->
    pc (session rt) <> Some r /\
    exists d choice_text raw,
      objects rt !! r = Some (history_entry d choice_text raw) /\
      dict_lookup (history_entry d choice_text raw) (u "raw_llm")
        = Some (PStr raw) /\
      parse_llm_json raw = PDict d.
Proof.
  intros Hreach. apply reachable_ledger in Hreach.
  split; [exact (led_nodup _ Hreach)|]. intros r Hr.
  destruct (led_entries _ Hreach r Hr) as (Hne & d & c & raw & Hd & Hp).
  split; [exact Hne|]. exists d, c, raw. repeat split; assumption.
Qed.

Lemma history_entries_reparse_witness :
  let rt := final (take_choice (replies scenario_reply) (u "begin") true
                     (aryn_state no_str)) in
  reachable no_str rt /\
  NoDup (story_history (session rt)) /\
  pc (session rt) <> Some 2%nat.
Proof.
  intros rt.
  assert (Hr : reachable no_str rt).
  { apply reach_choice; [apply aryn_state_reachable | discriminate | discriminate]. }
  split; [exact Hr|].
  destruct (history_entries_reparse no_str rt Hr) as [Hnd Hall].
  split; [exact Hnd|].
  exact (proj1 (Hall 2%nat (list_elem_of_here _ _))).
Defined.

(** X4: in a reachable state the history is append-only under
    [take_choice] and under the Begin button: every entry stays in the
    history, at its place, with its contents, whatever the reply and
    however the handler ends. *)
Theorem history_append_only py_str api choice_text is_custom rt rt' :
  reachable py_str rt ->
  rt' = final (take_choice api choice_text is_custom rt) \/
  rt' = final (begin_adventure api rt) ->
  story_history (session rt) `prefix_of` story_history (session rt') /\
  forall r, r ∈ story_history (session rt) ->
            objects rt' !! r = objects rt !! r.
Proof.
  intros Hreach Hrt'. apply reachable_ledger in Hreach.
  assert (Hold : forall r, r ∈ story_history (session rt) ->
                           pc (session rt) <> Some r /\
                           (r < length (objects rt))%nat).
  { intros r Hr. destruct (led_entries _ Hreach r Hr) as (Hne & d & c & raw & Hd & _).
    split; [exact Hne|]. eapply lookup_lt_Some; eauto. }
  destruct Hrt' as [-> | ->].
  - rewrite take_choice_run.
    destruct (api _) as [[raw'|]|e]; try (split; reflexivity).
    destruct (parse_llm_json raw') as [| | | | | |d']; try (split; reflexivity).
    destruct (state_updates d') as [| | | | | |items]; try (split; reflexivity).
    destruct (apply_state_updates_frame items rt) as (Hs & Hlen & _ & Hfr).
    destruct (apply_state_updates items rt) as [rt1 out [[]|sg]]; cbn in *;
      rewrite Hs; (split; [|intros r Hr; destruct (Hold r Hr) as [Hne Hlt]]).
    + apply prefix_app_r. reflexivity.
    + rewrite lookup_app_l by lia. apply Hfr, Hne.
    + reflexivity.
    + apply Hfr, Hne.
  - rewrite begin_adventure_run.
    destruct (api _) as [[raw'|]|e]; try (split; reflexivity).
    destruct (parse_llm_json raw') as [| | | | | |d']; try (split; reflexivity).
    cbn. split.
    + apply prefix_app_r. reflexivity.
    + intros r Hr. destruct (Hold r Hr) as [_ Hlt]. apply lookup_app_l. exact Hlt.
Qed.

Lemma history_append_only_witness :
  let rt := final (take_choice (replies scenario_reply) (u "begin") true
                     (aryn_state no_str)) in
  let rt' := final (take_choice (replies partial_reply) (u "on") false rt) in
  reachable no_str rt /\
  objects rt' !! 2%nat = objects rt !! 2%nat.
Proof.
  intros rt rt'.
  assert (Hr : reachable no_str rt).
  { apply reach_choice; [apply aryn_state_reachable | discriminate | discriminate]. }
  split; [exact Hr|].
  exact (proj2 (history_append_only no_str (replies partial_reply) (u "on") false
                  rt rt' Hr (or_introl eq_refl)) 2%nat (list_elem_of_here _ _)).
Defined.

(** X5: the Begin button never applies [state_updates].  Either
    nothing changes, or the reply decoded to a mapping and the state
    differs by the one entry appended, whose [choice_taken] is the
    empty string; the character and every other object are as
    before. *)
Theorem begin_adventure_ignores_updates api rt :
  let r := begin_adventure api rt in
  final r = rt \/
  exists d raw,
    api (begin_request rt) = Completion (Some raw) /\
    parse_llm_json raw = PDict d /\
    outcome r = inr Rerun /\
    final r = appended rt (history_entry d [] raw) /\
    dict_lookup (history_entry d [] raw) (u "choice_taken") = Some (PStr []) /\
    forall r', (r' < length (objects rt))%nat ->
               objects (final r) !! r' = objects rt !! r'.
Proof.
  intros r. subst r. rewrite begin_adventure_run.
  destruct (api _) as [[raw|]|e] eqn:Ha; auto.
  destruct (parse_llm_json raw) as [| | | | | |d] eqn:Hp; auto.
  right. exists d, raw. repeat split; try reflexivity; try assumption.
  intros r' Hlt. cbn. apply lookup_app_l. exact Hlt.
Qed.

(** X6: [is_custom] has no effect: [build_messages] never reads it, so
    a listed choice and a free-text action with the same text send the
    same request and end in the same state. *)
Theorem is_custom_is_ignored api choice_text rt :
  choice_request rt choice_text true = choice_request rt choice_text false /\
  take_choice api choice_text true rt = take_choice api choice_text false rt.
Proof. split; reflexivity. Qed.

(** X7: the edge cases of [parsed.get("state_updates") or {}].  When
    the key is missing or its value is falsy ([null], [false], [0],
    the empty string, list or mapping), no update is applied and the
    entry is appended; when the value is truthy and not a mapping (a
    non-empty list or string, a non-zero number, [true]), [.items()]
    raises [AttributeError] and nothing changes. *)
Theorem state_updates_edge_cases api choice_text is_custom rt raw d :
  api (choice_request rt choice_text is_custom) = Completion (Some raw) ->
  parse_llm_json raw = PDict d ->
  let su := dict_get d (u "state_updates") PNone in
  let r := take_choice api choice_text is_custom rt in
  (py_truthy su = false ->
   r = Result (appended rt (history_entry d choice_text raw)) [] (inr Rerun)) /\
  (py_truthy su = true -> (forall items, su <> PDict items) ->
   r = Result rt [] (inr (Raised AttributeError))).
Proof.
  intros Ha Hp su r. subst r. rewrite take_choice_run, Ha, Hp.
  unfold state_updates, py_or. fold su. split.
  - intros ->. reflexivity.
  - intros -> Hnd. destruct su; try reflexivity.
    exfalso. eapply Hnd. reflexivity.
Qed.

Lemma state_updates_edge_cases_witness :
  take_choice (replies (q "{'narrative':'A','state_updates':[]}")) (u "go") false
              scenario_state
  = Result (appended scenario_state
              (history_entry [ (u "narrative", PStr (u "A"));
                               (u "state_updates", PList []) ]
                             (u "go") (q "{'narrative':'A','state_updates':[]}")))
           [] (inr Rerun).
Proof.
  exact (proj1 (state_updates_edge_cases
                  (replies (q "{'narrative':'A','state_updates':[]}")) (u "go")
                  false scenario_state (q "{'narrative':'A','state_updates':[]}")
                  [ (u "narrative", PStr (u "A")); (u "state_updates", PList []) ]
                  eq_refl eq_refl) eq_refl).
Defined.

(** ** What the handlers keep *)

(** X8: restart, the Begin button and [take_choice] never replace the
    character or change a setting: the session keeps the same
    character reference, API key, model, temperature and token limit,
    however the handler ends. *)
Theorem handlers_keep_character_and_settings api choice_text is_custom rt :
  same_character_and_settings (session rt) (session (final (restart_session rt))) /\
  same_character_and_settings (session rt) (session (final (begin_adventure api rt))) /\
  same_character_and_settings (session rt)
    (session (final (take_choice api choice_text is_custom rt))).
Proof.
  assert (Hrefl : forall s, same_character_and_settings s s)
    by (intros s; repeat split).
  split; [|split].
  - rewrite restart_session_run. repeat split.
  - rewrite begin_adventure_run.
    destruct (api _) as [[raw|]|e]; try apply Hrefl.
    destruct (parse_llm_json raw); try apply Hrefl. repeat split.
  - rewrite take_choice_run.
    destruct (api _) as [[raw|]|e]; try apply Hrefl.
    destruct (parse_llm_json raw) as [| | | | | |d]; try apply Hrefl.
    destruct (state_updates d) as [| | | | | |items]; try apply Hrefl.
    destruct (apply_state_updates_frame items rt) as (Hs & _ & _ & _).
    destruct (apply_state_updates items rt) as [rt1 out [[]|sg]]; cbn in *;
      rewrite Hs; [repeat split | apply Hrefl].
Qed.

(** X9: in every reachable state that shows a scene the character
    exists and still has the nine attributes the form created: updates
    add or overwrite keys and never remove one, so the page header's
    [pc['name']] and [pc['court']] cannot raise [KeyError]. *)
Theorem character_keeps_its_attributes py_str rt (r : ref) :
  reachable py_str rt ->
  current_scene (session rt) = Some r ->
  exists l d,
    pc (session rt) = Some l /\
    objects rt !! l = Some d /\
    forall k, k ∈ character_keys -> is_Some (dict_lookup d k).
Proof.
  intros Hreach Hr. apply reachable_ledger in Hreach.
  destruct (led_scene _ Hreach r Hr) as [l Hl].
  destruct (led_pc _ Hreach l Hl) as (d & Hd & Hk).
  exists l, d. auto.
Qed.

Lemma character_keeps_its_attributes_witness :
  let rt := final (take_choice (replies scenario_reply) (u "begin") true
                     (aryn_state no_str)) in
  reachable no_str rt /\
  current_scene (session rt) = Some 2%nat /\
  exists l d,
    pc (session rt) = Some l /\
    objects rt !! l = Some d /\
    forall k, k ∈ character_keys -> is_Some (dict_lookup d k).
Proof.
  intros rt.
  assert (Hr : reachable no_str rt).
  { apply reach_choice; [apply aryn_state_reachable | discriminate | discriminate]. }
  split; [exact Hr|]. split; [reflexivity|].
  exact (character_keeps_its_attributes no_str rt 2%nat Hr eq_refl).
Defined.

Lemma update_dict_other items : forall (d : dict) k,
  k ∉ keys items ->
  dict_lookup (update_dict items d).1 k = dict_lookup d k.
Proof.
  induction items as [|[k0 v] items IH]; intros d k Hk; [reflexivity|].
  cbn [keys map fst] in Hk. apply not_elem_of_cons in Hk as [Hne Hk].
  cbn [update_dict]. destruct (updated_value d k0 v) as [e|new]; [reflexivity|].
  rewrite IH by exact Hk. apply dict_lookup_set_ne. congruence.
Qed.

Lemma keys_dict_set (d : dict) k v :
  keys (dict_set d k v) = if bool_decide (k ∈ keys d) then keys d else keys d ++ [k].
Proof.
  induction d as [|[k' v'] d IH]; cbn.
  - rewrite bool_decide_eq_false_2 by apply not_elem_of_nil. reflexivity.
  - destruct (str_eqb k' k) eqn:E; cbn.
    + apply str_eqb_eq in E. subst k'.
      rewrite bool_decide_eq_true_2 by apply list_elem_of_here. reflexivity.
    + assert (Hne : k' <> k)
        by (intros ->; rewrite str_eqb_refl in E; discriminate).
      fold (keys d). unfold keys in IH. rewrite IH.
      destruct (bool_decide (k ∈ map fst d)) eqn:Eb.
      * apply bool_decide_eq_true_1 in Eb.
        rewrite bool_decide_eq_true_2 by (apply list_elem_of_further; exact Eb).
        reflexivity.
      * apply bool_decide_eq_false_1 in Eb.
        rewrite bool_decide_eq_false_2; [reflexivity|].
        rewrite not_elem_of_cons. split; [congruence | exact Eb].
Qed.

(** The loop keeps the keys of the dict in their order and puts the new
    ones behind them. *)
Lemma update_dict_keys_prefix items : forall d : dict,
  keys d `prefix_of` keys (update_dict items d).1.
Proof.
  induction items as [|[k v] items IH]; intros d; [reflexivity|].
  cbn [update_dict]. destruct (updated_value d k v) as [e|new]; [reflexivity|].
  etransitivity; [|apply IH]. rewrite keys_dict_set.
  destruct (bool_decide _); [reflexivity | apply prefix_app_r; reflexivity].
Qed.

(** X10: the update loop, whether it completes or raises half-way,
    leaves every key that [updates] does not name with its value,
    removes no key, and keeps the keys the character had in their
    order: a new key goes behind them. *)
Theorem update_loop_leaves_other_keys rt l d (updates : dict) :
  pc (session rt) = Some l ->
  objects rt !! l = Some d ->
  exists d',
    objects (final (apply_state_updates updates rt)) !! l = Some d' /\
    (forall k, k ∉ keys updates -> dict_lookup d' k = dict_lookup d k) /\
    (forall k, is_Some (dict_lookup d k) -> is_Some (dict_lookup d' k)) /\
    keys d `prefix_of` keys d'.
Proof.
  intros Hpc Hl.
  destruct (apply_state_updates_same_object rt l d updates Hpc Hl)
    as (_ & _ & _ & Hd & _).
  exists (update_dict updates d).1. split; [exact Hd|]. split; [|split].
  - intros k Hk. apply update_dict_other. exact Hk.
  - intros k. apply update_dict_keeps_key.
  - apply update_dict_keys_prefix.
Qed.

Lemma update_loop_leaves_other_keys_witness :
  exists d',
    objects (final (apply_state_updates [ (u "hp", PInt (-2)); (u "name", PInt 1) ]
                      (aryn_state no_str))) !! 0%nat = Some d' /\
    dict_lookup d' (u "guile") = Some (PInt 6).
Proof.
  destruct (update_loop_leaves_other_keys (aryn_state no_str) 0%nat
              (new_character (u "Aryn") (u "Night Court (mysterious)")
                             (u "Wary Survivor") 5 6 3)
              [ (u "hp", PInt (-2)); (u "name", PInt 1) ] eq_refl eq_refl)
    as (d' & Hd & Hother & _).
  exists d'. split; [exact Hd|].
  rewrite Hother; [reflexivity|].
  apply (bool_decide_unpack _). vm_compute. exact I.
Defined.

(** ** What the prompt carries *)





(** ** The history expander *)

Lemma recent_history_drop {A} (history : list A) :
  recent_history history = reverse (drop (length history - 10) history).
Proof. unfold recent_history. f_equal. apply (py_slice_from_neg 10). lia. Qed.

(** X13: the "History (recent)" expander lists the last ten entries at
    most, newest first: line [i] is made from the entry at position
    [length history - 1 - i].  In a reachable state its first line is
    the current scene, and every line shows what the reply of its entry
    held: the placeholders ["?"] and ["(start)"] never appear, a reply
    without [scene_id] shows [None] and the opening scene shows the
    empty choice. *)
Theorem breadcrumbs_show_entries py_str rt :
  reachable py_str rt ->
  let history := story_history (session rt) in
  length (breadcrumbs (objects rt) history) = Nat.min 10 (length history) /\
  (history <> [] -> head (recent_history history) = current_scene (session rt)) /\
  forall (i : nat) crumb,
    breadcrumbs (objects rt) history !! i = Some crumb ->
    exists r d choice_text raw,
      history !! (length history - 1 - i)%nat = Some r /\
      objects rt !! r = Some (history_entry d choice_text raw) /\
      parse_llm_json raw = PDict d /\
      crumb = {| crumb_scene_id := dict_get d (u "scene_id") PNone;
                 crumb_choice := PStr choice_text;
                 crumb_narrative := dict_get d (u "narrative") PNone |}.
Proof.
  intros Hreach history.
  pose proof (reachable_invariant _ _ Hreach) as Hinv.
  pose proof (reachable_ledger _ _ Hreach) as Hled.
  split; [|split].
  - unfold breadcrumbs. rewrite length_map, recent_history_drop, length_reverse,
      length_drop. lia.
  - intros Hne. rewrite recent_history_drop, head_reverse, last_lookup,
      length_drop, lookup_drop.
    assert (Hlen : (0 < length history)%nat)
      by (destruct history; [congruence | cbn; lia]).
    replace (length history - 10 + Init.Nat.pred (length history - (length history - 10)))%nat
      with (Init.Nat.pred (length history)) by lia.
    rewrite <- last_lookup.
    destruct (last history) as [r|] eqn:El.
    + symmetry. apply (inv_last _ Hinv). exact El.
    + apply last_None in El. congruence.
  - intros i crumb Hc. unfold breadcrumbs in Hc.
    rewrite list_lookup_fmap, recent_history_drop in Hc.
    destruct (reverse (drop (length history - 10) history) !! i) as [r|] eqn:Hr;
      [|discriminate].
    cbn in Hc. injection Hc as <-.
    assert (Hi : (i < length (drop (length history - 10) history))%nat).
    { apply lookup_lt_Some in Hr. rewrite length_reverse in Hr. exact Hr. }
    rewrite reverse_lookup in Hr by exact Hi.
    rewrite length_drop in Hr, Hi. rewrite lookup_drop in Hr.
    replace (length history - 10 + (length history - (length history - 10) - S i))%nat
      with (length history - 1 - i)%nat in Hr by lia.
    assert (Hin : r ∈ history) by (eapply list_elem_of_lookup_2; eauto).
    destruct (led_entries _ Hled r Hin) as (_ & d & c & raw & Hd & Hp).
    exists r, d, c, raw. split; [exact Hr|]. split; [exact Hd|].
    split; [exact Hp|].
    rewrite (deref_lookup _ _ _ Hd). reflexivity.
Qed.

Lemma breadcrumbs_show_entries_witness :
  let rt := final (take_choice (replies scenario_reply) (u "begin") true
                     (aryn_state no_str)) in
  reachable no_str rt /\
  head (recent_history (story_history (session rt))) = current_scene (session rt).
Proof.
  intros rt.
  assert (Hr : reachable no_str rt).
  { apply reach_choice; [apply aryn_state_reachable | discriminate | discriminate]. }
  split; [exact Hr|].
  apply (proj1 (proj2 (breadcrumbs_show_entries no_str rt Hr))). discriminate.
Defined.

(** ** Stripping *)

Lemma lstrip_by_all p (s : str) :
  (forall c, c ∈ s -> p c = true) -> lstrip_by p s = [].
Proof.
  induction s as [|c s IH]; intros H; [reflexivity|]. simpl.
  rewrite (H c) by apply list_elem_of_here.
  apply IH. intros c' Hc'. apply H. apply list_elem_of_further. exact Hc'.
Qed.

Lemma strip_by_all p (s : str) :
  (forall c, c ∈ s -> p c = true) -> strip_by p s = [].
Proof.
  intros H. unfold strip_by, rstrip_by. rewrite (lstrip_by_all p s H). reflexivity.
Qed.

Lemma lstrip_by_head p (s : str) c r :
  lstrip_by p s = c :: r -> p c = false.
Proof.
  induction s as [|x s IH]; simpl; [discriminate|].
  destruct (p x) eqn:E; [exact IH|]. intros [= <- _]. exact E.
Qed.

Lemma lstrip_by_suffix p (s : str) : exists pre, s = pre ++ lstrip_by p s.
Proof.
  induction s as [|x s [pre IH]]; simpl; [exists []; reflexivity|].
  destruct (p x); [|exists []; reflexivity].
  exists (x :: pre). simpl. rewrite <- IH. reflexivity.
Qed.

Lemma lstrip_by_keeps_last p (s : str) c :
  last s = Some c -> p c = false -> last (lstrip_by p s) = Some c.
Proof.
  induction s as [|x s IH]; simpl; [discriminate|]. intros Hl Hc.
  destruct (p x) eqn:E; [|exact Hl].
  destruct s as [|y s]; [cbn in Hl; congruence|].
  apply IH; [exact Hl | exact Hc].
Qed.

Lemma strip_by_infix p (s : str) :
  exists pre post, s = pre ++ strip_by p s ++ post.
Proof.
  unfold strip_by, rstrip_by.
  destruct (lstrip_by_suffix p s) as [pre Hpre].
  destruct (lstrip_by_suffix p (reverse (lstrip_by p s))) as [post Hpost].
  exists pre, (reverse post).
  rewrite <- reverse_app, <- Hpost, reverse_involutive. exact Hpre.
Qed.

(** A string with a character outside [p] is stripped to a string that
    begins and ends with such a character. *)
Lemma strip_by_ends p (s : str) :
  (exists c, c ∈ s /\ p c = false) ->
  exists c0 rest cl,
    strip_by p s = c0 :: rest /\ p c0 = false /\
    last (strip_by p s) = Some cl /\ p cl = false.
Proof.
  intros (c & Hc & Hpc).
  destruct (lstrip_by p s) as [|a t] eqn:El.
  { exfalso. clear -Hc Hpc El. induction s as [|x s IH]; [inversion Hc|].
    simpl in El. destruct (p x) eqn:E; [|discriminate].
    apply elem_of_cons in Hc as [->|Hc]; [congruence | auto]. }
  pose proof (lstrip_by_head _ _ _ _ El) as Ha.
  unfold strip_by, rstrip_by. rewrite El.
  destruct (lstrip_by p (reverse (a :: t))) as [|b w] eqn:Er.
  { exfalso. assert (Hin : a ∈ reverse (a :: t))
      by (apply elem_of_reverse, list_elem_of_here).
    clear -Hin Ha Er. induction (reverse (a :: t)) as [|x s IH]; [inversion Hin|].
    simpl in Er. destruct (p x) eqn:E; [|discriminate].
    apply elem_of_cons in Hin as [->|Hin]; [congruence | auto]. }
  pose proof (lstrip_by_head _ _ _ _ Er) as Hb.
  assert (Hlast : last (lstrip_by p (reverse (a :: t))) = Some a).
  { apply lstrip_by_keeps_last; [|exact Ha].
    rewrite last_reverse. reflexivity. }
  rewrite Er in Hlast.
  assert (Hhead : head (reverse (b :: w)) = Some a)
    by (rewrite head_reverse; exact Hlast).
  destruct (reverse (b :: w)) as [|c0 rest] eqn:Erev; [discriminate|].
  cbn in Hhead. injection Hhead as ->.
  exists a, rest, b. repeat split; auto.
  rewrite <- Erev, last_reverse. reflexivity.
Qed.

(** ** The custom-action form *)

(** X14: a custom action made of whitespace only (or empty) is dropped
    without a call to the backend: nothing changes and nothing is
    shown.  Any other text is passed to [take_choice] stripped, so the
    [choice_taken] it records begins and ends with a character that is
    not whitespace. *)
Theorem custom_action_is_stripped api (custom_action : str) rt :
  ((forall c, c ∈ custom_action -> py_isspace c = true) ->
   submit_custom_action api custom_action rt = Result rt [] (inl ())) /\
  ((exists c, c ∈ custom_action /\ py_isspace c = false) ->
   exists c0 rest cl,
     strip custom_action = c0 :: rest /\ py_isspace c0 = false /\
     last (strip custom_action) = Some cl /\ py_isspace cl = false /\
     submit_custom_action api custom_action rt
       = take_choice api (strip custom_action) true rt).
Proof.
  unfold submit_custom_action. split.
  - intros H. unfold strip. rewrite (strip_by_all _ _ H). reflexivity.
  - intros H. destruct (strip_by_ends py_isspace custom_action H)
      as (c0 & rest & cl & Hs & H0 & Hl & Hcl).
    exists c0, rest, cl. unfold strip in *. rewrite Hs in *. auto.
Qed.

Lemma custom_action_is_stripped_witness :
  submit_custom_action (replies scenario_reply) (u "  ") scenario_state
    = Result scenario_state [] (inl ()) /\
  submit_custom_action (replies scenario_reply) (u " begin ") scenario_state
    = take_choice (replies scenario_reply) (u "begin") true scenario_state.
Proof.
  split.
  - apply (proj1 (custom_action_is_stripped (replies scenario_reply) (u "  ")
                    scenario_state)).
    intros c Hc. apply list_elem_of_In in Hc. cbn in Hc.
    destruct Hc as [<-|[<-|[]]]; reflexivity.
  - destruct (proj2 (custom_action_is_stripped (replies scenario_reply)
                       (u " begin ") scenario_state))
      as (c0 & rest & cl & _ & _ & _ & _ & H).
    + exists 98%N. split; [|reflexivity].
      apply (bool_decide_unpack _). vm_compute. exact I.
    + exact H.
Defined.

(** ** More on the parser *)

Lemma lstrip_by_split p (s : str) :
  exists pre, s = pre ++ lstrip_by p s /\ forall c, c ∈ pre -> p c = true.
Proof.
  induction s as [|x s (pre & IH & Hp)]; simpl.
  - exists []. split; [reflexivity|]. intros c Hc. inversion Hc.
  - destruct (p x) eqn:E.
    + exists (x :: pre). split; [simpl; rewrite <- IH; reflexivity|].
      intros c Hc. apply elem_of_cons in Hc as [->|Hc]; auto.
    + exists []. split; [reflexivity|]. intros c Hc. inversion Hc.
Qed.

Lemma strip_by_split p (s : str) :
  exists pre post,
    s = pre ++ strip_by p s ++ post /\
    forall c, c ∈ pre ++ post -> p c = true.
Proof.
  unfold strip_by, rstrip_by.
  destruct (lstrip_by_split p s) as (pre & Hpre & Hp1).
  destruct (lstrip_by_split p (reverse (lstrip_by p s))) as (post & Hpost & Hp2).
  exists pre, (reverse post). split.
  - rewrite <- reverse_app, <- Hpost, reverse_involutive. exact Hpre.
  - intros c Hc. apply elem_of_app in Hc as [Hc|Hc]; [auto|].
    apply Hp2. apply elem_of_reverse. exact Hc.
Qed.

(** What the fallback strips off is whitespace and backticks only. *)
Lemma cleaned_split (text : str) :
  exists pre post,
    text = pre ++ cleaned text ++ post /\
    forall c, c ∈ pre ++ post -> py_isspace c = true \/ c = 96%N.
Proof.
  unfold cleaned, strip, strip_chars.
  destruct (strip_by_split py_isspace text) as (p1 & q1 & H1 & P1).
  set (a := strip_by py_isspace text) in *.
  destruct (strip_by_split (fun c => existsb (N.eqb c) (u "```")) a)
    as (p2 & q2 & H2 & P2).
  set (b := strip_by (fun c => existsb (N.eqb c) (u "```")) a) in *.
  destruct (strip_by_split py_isspace b) as (p3 & q3 & H3 & P3).
  exists (p1 ++ p2 ++ p3), (q3 ++ q2 ++ q1). split.
  - rewrite H1 at 1. rewrite H2 at 1. rewrite H3 at 1.
    rewrite <- !app_assoc. reflexivity.
  - assert (Htick : forall c, existsb (N.eqb c) (u "```") = true -> c = 96%N).
    { intros c Hc. change (u "```") with [96%N; 96%N; 96%N] in Hc.
      cbn [existsb] in Hc. rewrite !orb_true_iff, !N.eqb_eq in Hc.
      destruct Hc as [|[|[|]]]; congruence. }
    intros c Hc. rewrite !elem_of_app in Hc.
    destruct Hc as [[Hc|[Hc|Hc]]|[Hc|[Hc|Hc]]].
    + left. apply P1, elem_of_app. auto.
    + right. apply Htick, P2, elem_of_app. auto.
    + left. apply P3, elem_of_app. auto.
    + left. apply P3, elem_of_app. auto.
    + right. apply Htick, P2, elem_of_app. auto.
    + left. apply P1, elem_of_app. auto.
Qed.

(** [text.index(c)] is the length of the part before the first [c]. *)
Lemma str_index_first (s pre rest : str) c :
  s = pre ++ c :: rest -> (c ∉ pre) -> str_index s c = Some (length pre).
Proof.
  intros -> Hpre. induction pre as [|x pre IH]; simpl.
  - rewrite N.eqb_refl. reflexivity.
  - apply not_elem_of_cons in Hpre as [Hne Hpre].
    destruct (N.eqb_spec x c); [congruence|]. rewrite IH by exact Hpre. reflexivity.
Qed.

Lemma str_index_split (s : str) c i :
  str_index s c = Some i ->
  exists pre rest, s = pre ++ c :: rest /\ (c ∉ pre) /\ slice_from i s = c :: rest.
Proof.
  revert i; induction s as [|x s IH]; simpl; intros i; [discriminate|].
  destruct (N.eqb_spec x c) as [->|Hne].
  - intros [= <-]. exists [], s. split; [reflexivity|]. split; [|reflexivity].
    apply not_elem_of_nil.
  - destruct (str_index s c) as [j|]; [|discriminate].
    intros [= <-]. destruct (IH j eq_refl) as (pre & rest & -> & Hpre & Hs).
    exists (x :: pre), rest. split; [reflexivity|]. split; [|exact Hs].
    apply not_elem_of_cons. split; [congruence | exact Hpre].
Qed.

(** X15: the parser invents nothing, and which piece of the reply it
    decodes is fixed: a result other than [None] is what [json.loads]
    decodes from the reply cut at its first opening brace (everything
    from that brace to the end), or, when that fails or there is no
    brace, from the reply without the whitespace and the backticks at
    its two ends. *)
Theorem parse_llm_json_decodes_a_slice (text : str) :
  parse_llm_json text <> PNone ->
  (exists pre rest,
     text = pre ++ LBRACE :: rest /\ (LBRACE ∉ pre) /\
     json_loads (LBRACE :: rest) = Some (parse_llm_json text)) \/
  ((forall pre rest, text = pre ++ LBRACE :: rest -> (LBRACE ∉ pre) ->
                     json_loads (LBRACE :: rest) = None) /\
   exists pre post,
     text = pre ++ cleaned text ++ post /\
     (forall c, c ∈ pre ++ post -> py_isspace c = true \/ c = 96%N) /\
     json_loads (cleaned text) = Some (parse_llm_json text)).
Proof.
  unfold parse_llm_json. intros Hne.
  destruct (str_index text LBRACE) as [start|] eqn:Ei;
    cbn [mbind option_bind] in *.
  - destruct (str_index_split _ _ _ Ei) as (pre & rest & Ht & Hpre & Hs).
    destruct (json_loads (slice_from start text)) as [v|] eqn:Ev.
    + left. exists pre, rest. rewrite <- Hs. rewrite Hs at 1. auto.
    + right. destruct (json_loads (cleaned text)) as [v|] eqn:Ec; [|congruence].
      split.
      * intros pre' rest' Ht' Hpre'.
        pose proof (str_index_first _ _ _ _ Ht' Hpre') as Ei'.
        rewrite Ei in Ei'. injection Ei' as ->.
        rewrite <- Ev. f_equal. rewrite Ht'. unfold slice_from.
        rewrite drop_app_length. reflexivity.
      * destruct (cleaned_split text) as (p1 & p2 & H & Hc).
        exists p1, p2. auto.
  - right. destruct (json_loads (cleaned text)) as [v|] eqn:Ec; [|congruence].
    split.
    + intros pre' rest' Ht' Hpre'.
      pose proof (str_index_first _ _ _ _ Ht' Hpre') as Ei'. congruence.
    + destruct (cleaned_split text) as (p1 & p2 & H & Hc).
      exists p1, p2. auto.
Qed.

Lemma parse_llm_json_decodes_a_slice_witness :
  parse_llm_json fenced_reply <> PNone /\
  json_loads (cleaned fenced_reply) = Some (parse_llm_json fenced_reply).
Proof.
  assert (H : parse_llm_json fenced_reply <> PNone) by (vm_compute; discriminate).
  split; [exact H|].
  destruct (parse_llm_json_decodes_a_slice fenced_reply H)
    as [(pre & rest & Ht & Hpre & Hl) | (_ & pre & post & _ & _ & Hl)];
    [|exact Hl].
  exfalso.
  pose proof (str_index_first _ _ _ _ Ht Hpre) as Hi.
  assert (Hi4 : str_index fenced_reply LBRACE = Some 4%nat)
    by (vm_compute; reflexivity).
  assert (Hpre4 : length pre = 4%nat) by congruence.
  assert (Hrest : LBRACE :: rest = drop 4 fenced_reply).
  { rewrite Ht at 1. rewrite <- Hpre4, drop_app_length. reflexivity. }
  rewrite Hrest in Hl. vm_compute in Hl. discriminate.
Defined.

Lemma blank_char (c : char) :
  py_isspace c = true \/ c = 96%N ->
  (c <> 34 /\ c <> 123 /\ c <> 91 /\ c <> 110 /\ c <> 116 /\ c <> 102 /\
   c <> 78 /\ c <> 73 /\ c <> 45 /\ c <> 65279 /\ (c < 48 \/ 57 < c))%N.
Proof.
  unfold py_isspace.
  rewrite !orb_true_iff, !andb_true_iff, !N.leb_le, !N.eqb_eq. lia.
Qed.

Lemma starts_with_other_head a p c (rest : str) :
  a <> c -> starts_with (a :: p) (c :: rest) = None.
Proof.
  intros H. simpl. destruct (N.eqb_spec a c); [contradiction | reflexivity].
Qed.

(** A text of whitespace and backticks only does not decode. *)
Lemma json_loads_blank (s : str) :
  (forall c, c ∈ s -> py_isspace c = true \/ c = 96%N) ->
  json_loads s = None.
Proof.
  intros H.
  assert (Hdec : decode s = None).
  { unfold decode. destruct (skip_ws s) as [|c rest] eqn:Ew; [reflexivity|].
    assert (Hc : c ∈ s).
    { apply (lstrip_by_subseteq json_ws). fold (skip_ws s). rewrite Ew.
      apply list_elem_of_here. }
    destruct (blank_char c (H c Hc))
      as (H34 & H123 & H91 & H110 & H116 & H102 & H78 & H73 & H45 & _ & Hdig).
    cbn [scan_once].
    assert (Hconst : scan_constant (c :: rest) = None).
    { unfold scan_constant.
      change (u "null") with (110%N :: u "ull").
      change (u "true") with (116%N :: u "rue").
      change (u "false") with (102%N :: u "alse").
      change (u "NaN") with (78%N :: u "aN").
      change (u "Infinity") with (73%N :: u "nfinity").
      change (u "-Infinity") with (45%N :: u "Infinity").
      rewrite !starts_with_other_head by congruence. reflexivity. }
    assert (Hnum : match_number (c :: rest) = None).
    { unfold match_number, int_digits, is_digit.
      destruct (N.eqb_spec c 45); [contradiction|].
      destruct (N.eqb_spec c 48); [lia|].
      destruct (N.leb_spec 48 c), (N.leb_spec c 57); try lia; reflexivity. }
    unfold DQUOTE, LBRACE, LBRACKET.
    destruct (N.eqb_spec c 34); [contradiction|].
    destruct (N.eqb_spec c 123); [contradiction|].
    destruct (N.eqb_spec c 91); [contradiction|].
    rewrite Hconst, Hnum. reflexivity. }
  unfold json_loads. destruct s as [|c s']; [exact Hdec|].
  destruct (c =? BOM)%N; [reflexivity | exact Hdec].
Qed.

(** X16: a reply made of whitespace and backticks only (an empty
    reply, blank lines, an empty code fence) does not parse, and
    [take_choice] then changes nothing and shows the reply as it is. *)
Theorem blank_reply_fails api choice_text is_custom rt (text : str) :
  (forall c, c ∈ text -> py_isspace c = true \/ c = 96%N) ->
  parse_llm_json text = PNone /\
  (api (choice_request rt choice_text is_custom) = Completion (Some text) ->
   take_choice api choice_text is_custom rt
     = Result rt (parse_error_shown text) (inl ())).
Proof.
  intros H.
  assert (Hp : parse_llm_json text = PNone).
  { unfold parse_llm_json.
    rewrite str_index_None.
    - cbn. rewrite json_loads_blank; [reflexivity|].
      intros c Hc. apply H.
      destruct (cleaned_split text) as (pre & post & E & _). rewrite E.
      apply elem_of_app. right. apply elem_of_app. left. exact Hc.
    - intros Hb. destruct (blank_char _ (H _ Hb)) as (_ & Hne & _).
      apply Hne. reflexivity. }
  split; [exact Hp|]. intros Ha. rewrite take_choice_run, Ha, Hp. reflexivity.
Qed.

Lemma blank_reply_fails_witness :
  parse_llm_json (u "```" ++ [LF] ++ u "```") = PNone.
Proof.
  refine (proj1 (blank_reply_fails (replies []) [] false scenario_state
                   (u "```" ++ [LF] ++ u "```") _)).
  intros c Hc. apply list_elem_of_In in Hc. cbn in Hc.
  repeat (destruct Hc as [<-|Hc]; [first [left; reflexivity | right; reflexivity]|]).
  destruct Hc.
Defined.

(** ** Decoded dicts have distinct keys *)

Lemma distinct_keys_list (l : list pyval) :
  distinct_keys (PList l) <-> Forall distinct_keys l.
Proof.
  induction l as [|x l IH]; cbn.
  - split; [intros _; constructor | auto].
  - rewrite Forall_cons. cbn in IH. rewrite IH. reflexivity.
Qed.

Lemma distinct_keys_dict (d : dict) :
  distinct_keys (PDict d) <->
  NoDup (keys d) /\ Forall (fun kv => distinct_keys kv.2) d.
Proof.
  cbn [distinct_keys]. unfold keys. apply and_iff_compat_l.
  induction d as [|[k x] d IH].
  - split; [intros _; constructor | auto].
  - rewrite Forall_cons. cbn [snd]. rewrite IH. reflexivity.
Qed.

Lemma dict_set_distinct (d : dict) k v :
  distinct_keys (PDict d) -> distinct_keys v ->
  distinct_keys (PDict (dict_set d k v)).
Proof.
  rewrite !distinct_keys_dict. intros [Hnd Hall] Hv. split.
  - rewrite keys_dict_set. destruct (bool_decide (k ∈ keys d)) eqn:Eb; [exact Hnd|].
    apply bool_decide_eq_false_1 in Eb.
    apply NoDup_app. split; [exact Hnd|]. split; [|apply NoDup_singleton].
    intros x Hx Hx'. apply list_elem_of_singleton in Hx' as ->. contradiction.
  - clear Hnd. induction d as [|[k' v'] d IH]; cbn.
    + repeat constructor. exact Hv.
    + apply Forall_cons in Hall as [H1 H2].
      destruct (str_eqb k' k); constructor; auto.
Qed.

Lemma scan_constant_distinct s v r :
  scan_constant s = Some (v, r) -> distinct_keys v.
Proof.
  unfold scan_constant. intros H.
  repeat match type of H with
         | context [starts_with ?p s] => destruct (starts_with p s)
         end; inversion H; exact I.
Qed.

Lemma match_number_distinct s v r :
  match_number s = Some (v, r) -> distinct_keys v.
Proof.
  unfold match_number. intros H.
  destruct (match s with
            | c :: s' => if (c =? 45)%N then (true, s') else (false, s)
            | [] => (false, s)
            end) as [neg s0].
  destruct (int_digits s0) as [[ints s1]|]; [|discriminate].
  cbn [mbind option_bind] in H.
  destruct (frac_digits s1) as [[fs r1]|];
    (destruct (exp_part _) as [[x r2]|]);
    try destruct (_ <? Z.of_nat (length ints))%Z;
    inversion H; exact I.
Qed.

Lemma scan_distinct fuel :
  (forall s v r, scan_once fuel s = Some (v, r) -> distinct_keys v) /\
  (forall acc s v r, parse_object_items fuel acc s = Some (v, r) ->
                     distinct_keys (PDict acc) -> distinct_keys v) /\
  (forall acc s v r, parse_array_items fuel acc s = Some (v, r) ->
                     distinct_keys (PList acc) -> distinct_keys v).
Proof.
  induction fuel as [|n (IHs & IHo & IHa)].
  { split; [|split]; [intros s v r | intros acc s v r | intros acc s v r];
      discriminate. }
  split; [|split].
  - intros s v r. cbn [scan_once].
    destruct s as [|c rest]; [discriminate|].
    destruct (c =? DQUOTE)%N.
    { destruct (scanstring rest) as [[k r1]|]; [|discriminate]. cbn.
      intros [= <- _]. exact I. }
    destruct (c =? LBRACE)%N.
    { destruct (skip_ws rest) as [|c' r']; [discriminate|].
      destruct (c' =? RBRACE)%N.
      - intros [= <- _]. cbn. split; [apply NoDup_nil_2 | exact I].
      - intros H. apply (IHo _ _ _ _ H). cbn. split; [apply NoDup_nil_2 | exact I]. }
    destruct (c =? LBRACKET)%N.
    { destruct (skip_ws rest) as [|c' r']; [discriminate|].
      destruct (c' =? RBRACKET)%N.
      - intros [= <- _]. exact I.
      - intros H. apply (IHa _ _ _ _ H). exact I. }
    destruct (scan_constant (c :: rest)) as [[v1 r1]|] eqn:Ec.
    + intros [= <- _]. eapply scan_constant_distinct; eauto.
    + apply match_number_distinct.
  - intros acc s v r. cbn [parse_object_items].
    destruct s as [|c s1]; [discriminate|].
    destruct (c =? DQUOTE)%N; [|discriminate].
    destruct (scanstring s1) as [[key r1]|]; [|discriminate]. cbn.
    destruct (skip_ws r1) as [|c2 r2]; [discriminate|].
    destruct (c2 =? COLON)%N; [|discriminate].
    destruct (scan_once n (skip_ws r2)) as [[val r3]|] eqn:Ev; [|discriminate]. cbn.
    pose proof (IHs _ _ _ Ev) as Hval.
    destruct (skip_ws r3) as [|c4 r4]; [discriminate|].
    destruct (c4 =? RBRACE)%N.
    + intros [= <- _] Hacc. apply dict_set_distinct; assumption.
    + destruct (c4 =? COMMA)%N; [|discriminate].
      intros H Hacc. apply (IHo _ _ _ _ H). apply dict_set_distinct; assumption.
  - intros acc s v r. cbn [parse_array_items].
    destruct (scan_once n s) as [[val r1]|] eqn:Ev; [|discriminate]. cbn.
    pose proof (IHs _ _ _ Ev) as Hval.
    assert (Hacc' : distinct_keys (PList acc) -> distinct_keys (PList (acc ++ [val]))).
    { rewrite !distinct_keys_list. intros Hacc. apply Forall_app. split; [exact Hacc|].
      repeat constructor. exact Hval. }
    destruct (skip_ws r1) as [|c r2]; [discriminate|].
    destruct (c =? RBRACKET)%N.
    + intros [= <- _] Hacc. auto.
    + destruct (c =? COMMA)%N; [|discriminate].
      intros H Hacc. apply (IHa _ _ _ _ H). auto.
Qed.

Lemma json_loads_distinct s v : json_loads s = Some v -> distinct_keys v.
Proof.
  assert (Hd : decode s = Some v -> distinct_keys v).
  { unfold decode.
    destruct (scan_once _ (skip_ws s)) as [[v' r]|] eqn:E; [|discriminate]. cbn.
    destruct (skip_ws r); [|discriminate]. intros [= <-].
    eapply (proj1 (scan_distinct _)); eauto. }
  unfold json_loads. destruct s as [|c s']; [exact Hd|].
  destruct (c =? BOM)%N; [discriminate | exact Hd].
Qed.

Lemma parse_llm_json_distinct (text : str) : distinct_keys (parse_llm_json text).
Proof.
  unfold parse_llm_json.
  destruct (str_index text LBRACE ≫= _) as [v|] eqn:E1.
  - destruct (str_index text LBRACE) as [start|]; [|discriminate].
    cbn in E1. eapply json_loads_distinct; eauto.
  - destruct (json_loads (cleaned text)) as [v|] eqn:E2; [|exact I].
    eapply json_loads_distinct; eauto.
Qed.

Lemma dict_get_distinct (d : dict) k default :
  distinct_keys (PDict d) -> distinct_keys default ->
  distinct_keys (dict_get d k default).
Proof.
  intros Hd Hdef. apply distinct_keys_dict in Hd as [_ Hall].
  unfold dict_get. destruct (dict_lookup d k) as [v|] eqn:El; [|exact Hdef].
  apply dict_lookup_elem_of in El. rewrite Forall_forall in Hall.
  exact (Hall _ El).
Qed.

Lemma state_updates_distinct (d items : dict) :
  distinct_keys (PDict d) ->
  state_updates d = PDict items ->
  distinct_keys (PDict items).
Proof.
  intros Hd Hu. unfold state_updates, py_or in Hu.
  pose proof (dict_get_distinct d (u "state_updates") PNone Hd I) as Hv.
  destruct (py_truthy _).
  - rewrite Hu in Hv. exact Hv.
  - injection Hu as <-. cbn. split; [apply NoDup_nil_2 | exact I].
Qed.

(** X17: whatever the reply, the value the parser returns has no
    duplicate key in any of its mappings (the decoder keeps the last of
    equal keys), so the updates [take_choice] iterates over always name
    each attribute once. *)
Theorem parsed_keys_are_distinct (text : str) :
  distinct_keys (parse_llm_json text) /\
  forall d items,
    parse_llm_json text = PDict d ->
    state_updates d = PDict items ->
    NoDup (keys d) /\ NoDup (keys items).
Proof.
  pose proof (parse_llm_json_distinct text) as H.
  split; [exact H|]. intros d items Hd Hu. rewrite Hd in H.
  pose proof (state_updates_distinct d items H Hu) as Hi.
  apply distinct_keys_dict in H as [Hnd _].
  apply distinct_keys_dict in Hi as [Hni _]. auto.
Qed.


(** ** The choice buttons *)

Lemma appended_history_nonempty rt entry :
  story_history (session (appended rt entry)) <> [].
Proof.
  unfold appended. cbn. intros H. apply app_eq_nil in H as [_ H]. discriminate.
Qed.

Lemma reachable_prologue_shown py_str rt :
  reachable py_str rt -> prologue_shown rt.
Proof.
  induction 1 as [|rt H IH|rt n c a s g m H IH Hpc|rt api H IH Hpc Hsc
                  |rt api ct cu H IH Hpc Hsc]; unfold prologue_shown.
  - intros _ r; discriminate.
  - rewrite restart_session_run. intros _ r; discriminate.
  - rewrite create_character_run. cbn. intros _ r [= <-]. exists n.
    apply list_lookup_middle. rewrite length_app, Nat.add_comm. reflexivity.
  - rewrite begin_adventure_run.
    destruct (api _) as [[raw|]|e]; try exact IH.
    destruct (parse_llm_json raw); try exact IH.
    intros Hh. destruct (appended_history_nonempty _ _ Hh).
  - rewrite take_choice_run.
    destruct (api _) as [[raw|]|e]; try exact IH.
    destruct (parse_llm_json raw) as [| | | | | |d]; try exact IH.
    destruct (state_updates d) as [| | | | | |items]; try exact IH.
    destruct (apply_state_updates_frame items rt) as (Hs & _ & _ & Hfr).
    destruct (apply_state_updates items rt) as [rt1 out [[]|sg]]; cbn [final] in *.
    + intros Hh. destruct (appended_history_nonempty _ _ Hh).
    + rewrite Hs. intros Hh r Hr. destruct (IH Hh r Hr) as [name Hn].
      exists name. rewrite Hfr; [exact Hn|].
      apply (inv_scene _ (reachable_invariant _ _ H) r Hr).
Qed.

(** X18: what the choice buttons are made of
    ([scene.get("choices") or []]) in a reachable state that shows a
    scene.  With an empty history the scene is the prologue, which has
    no choices: right after the character form no button is offered and
    only a custom action moves the story on.  Otherwise the scene is the
    last history entry and the buttons are the [choices] value of the
    reply stored in its [raw_llm], whatever that value is, or none when
    it is missing or falsy. *)
Theorem choice_buttons_of_scene py_str rt r :
  reachable py_str rt ->
  current_scene (session rt) = Some r ->
  (story_history (session rt) = [] ->
   scene_choices (deref (objects rt) r) = PList []) /\
  (story_history (session rt) <> [] ->
   exists d raw,
     last (story_history (session rt)) = Some r /\
     dict_lookup (deref (objects rt) r) (u "raw_llm") = Some (PStr raw) /\
     parse_llm_json raw = PDict d /\
     scene_choices (deref (objects rt) r) = scene_choices d).
Proof.
  intros Hreach Hr. split.
  - intros Hh. destruct (reachable_prologue_shown _ _ Hreach Hh r Hr) as [name Hn].
    unfold deref. rewrite Hn. reflexivity.
  - intros Hne.
    destruct (last (story_history (session rt))) as [r'|] eqn:Hl.
    2:{ apply last_None in Hl. contradiction. }
    pose proof (inv_last _ (reachable_invariant _ _ Hreach) r' Hl) as Hr'.
    assert (r' = r) by congruence. subst r'.
    assert (Hin : r ∈ story_history (session rt)).
    { apply last_Some in Hl as [l' ->]. apply elem_of_app. right.
      apply list_elem_of_here. }
    destruct (led_entries _ (reachable_ledger _ _ Hreach) r Hin)
      as (_ & d & ct & raw & Hd & Hp).
    exists d, raw. split; [reflexivity|]. unfold deref. rewrite Hd.
    split; [reflexivity|]. split; [exact Hp|]. reflexivity.
Qed.

Lemma choice_buttons_of_scene_witness :
  let rt := final (create_character no_str (u "Aryn") [] [] 5 6 3 init_session_state) in
  scene_choices (deref (objects rt) 1%nat) = PList [].
Proof.
  intros rt.
  refine (proj1 (choice_buttons_of_scene no_str rt 1%nat _ _) _).
  - apply reach_create; [apply reach_init | reflexivity].
  - reflexivity.
  - reflexivity.
Defined.

(** ** The encoder and the decoder *)

Lemma pyval_nested_ind (P : pyval -> Prop) :
  P PNone ->
  (forall b, P (PBool b)) ->
  (forall z, P (PInt z)) ->
  (forall f, P (PFloat f)) ->
  (forall s, P (PStr s)) ->
  (forall l, Forall P l -> P (PList l)) ->
  (forall d, Forall (fun kv => P kv.2) d -> P (PDict d)) ->
  forall v, P v.
Proof.
  intros HN HB HI HF HS HL HD.
  fix IH 1. intros [| b | z | f | s | l | d].
  - exact HN.
  - apply HB.
  - apply HI.
  - apply HF.
  - apply HS.
  - apply HL. induction l as [|x l IHl]; constructor; [apply IH | exact IHl].
  - apply HD. induction d as [|[k x] d IHd]; constructor; [apply IH | exact IHd].
Qed.

Lemma Z_of_digits_snoc ds c :
  Z_of_digits (ds ++ [c]) = (Z_of_digits ds * 10 + Z.of_N (c - 48))%Z.
Proof. unfold Z_of_digits. rewrite fold_left_app. reflexivity. Qed.

(** The digits [digits_acc] writes: all decimal, their value is [n],
    and the first is [0] only for [n = 0]. *)
Lemma digits_acc_spec fuel : forall n acc,
  (n < 2 ^ N.of_nat (S fuel))%N ->
  exists c t,
    digits_acc (S fuel) n acc = (c :: t) ++ acc /\
    Forall (fun x => is_digit x = true) (c :: t) /\
    Z_of_digits (c :: t) = Z.of_N n /\
    (n = 0%N -> t = []) /\ (c = 48%N -> n = 0%N).
Proof.
  assert (Hsmall : forall n acc f, (n < 10)%N ->
    exists c t,
      digits_acc (S f) n acc = (c :: t) ++ acc /\
      Forall (fun x => is_digit x = true) (c :: t) /\
      Z_of_digits (c :: t) = Z.of_N n /\
      (n = 0%N -> t = []) /\ (c = 48%N -> n = 0%N)).
  { intros n acc f Hlt. cbn [digits_acc].
    destruct (N.ltb_spec n 10); [|lia].
    rewrite N.mod_small by lia.
    exists (48 + n)%N, []. repeat split.
    - repeat constructor. unfold is_digit.
      apply andb_true_intro. split; apply N.leb_le; lia.
    - unfold Z_of_digits. cbn [fold_left]. lia.
    - lia. }
  induction fuel as [|fuel IH]; intros n acc Hn.
  - change (2 ^ N.of_nat 1)%N with 2%N in Hn. apply Hsmall. lia.
  - destruct (N.ltb_spec n 10) as [Hlt|Hge]; [apply Hsmall; exact Hlt|].
    change (digits_acc (S (S fuel)) n acc) with
      (if (n <? 10)%N then (48 + n mod 10)%N :: acc
       else digits_acc (S fuel) (n / 10) ((48 + n mod 10)%N :: acc)).
    destruct (N.ltb_spec n 10) as [Hlt|_]; [lia|].
    pose proof (N.div_mod n 10 ltac:(lia)) as Hdm.
    pose proof (N.mod_lt n 10 ltac:(lia)) as Hm.
    remember (n / 10)%N as k eqn:Ek. remember (n mod 10)%N as m eqn:Em.
    clear Ek Em.
    destruct (IH k ((48 + m)%N :: acc)) as (c & t & He & Hd & Hv & _ & Hz).
    { rewrite (Nat2N.inj_succ (S fuel)), N.pow_succ_r' in Hn.
      remember (2 ^ N.of_nat (S fuel))%N as p. lia. }
    exists c, (t ++ [(48 + m)%N]). repeat split.
    + rewrite He. cbn. rewrite <- app_assoc. reflexivity.
    + rewrite app_comm_cons. apply Forall_app. split; [exact Hd|].
      repeat constructor. unfold is_digit.
      apply andb_true_intro. split; apply N.leb_le; lia.
    + rewrite app_comm_cons, Z_of_digits_snoc, Hv. lia.
    + lia.
    + intros ->. specialize (Hz eq_refl). lia.
Qed.

Lemma repr_N_spec n :
  exists c t,
    repr_N n = c :: t /\
    Forall (fun x => is_digit x = true) (c :: t) /\
    Z_of_digits (c :: t) = Z.of_N n /\
    (n = 0%N -> t = []) /\ (c = 48%N -> n = 0%N).
Proof.
  destruct (digits_acc_spec (N.to_nat (N.log2 n)) n []) as (c & t & He & H).
  - rewrite Nat2N.inj_succ, N2Nat.id.
    destruct (N.eq_dec n 0%N) as [->|Hn]; [reflexivity|].
    apply N.log2_spec. lia.
  - exists c, t. split; [|exact H]. unfold repr_N. rewrite He. apply app_nil_r.
Qed.

Lemma span_digits_app ds rest :
  Forall (fun x => is_digit x = true) ds ->
  number_end rest = true ->
  span_digits (ds ++ rest) = (ds, rest).
Proof.
  intros Hd Hr. induction Hd as [|c ds Hc Hd IH]; cbn.
  - destruct rest as [|c r]; [reflexivity|]. cbn in Hr |- *.
    destruct (is_digit c); [discriminate | reflexivity].
  - rewrite Hc, IH. reflexivity.
Qed.

Lemma frac_digits_end rest : number_end rest = true -> frac_digits rest = None.
Proof.
  destruct rest as [|c [|d r]]; try reflexivity. cbn.
  destruct (c =? 46)%N; [|reflexivity].
  rewrite orb_true_r. discriminate.
Qed.

Lemma exp_part_end rest : number_end rest = true -> exp_part rest = None.
Proof.
  destruct rest as [|c r]; [reflexivity|]. cbn.
  destruct (c =? 101)%N, (c =? 69)%N; rewrite ?orb_true_r; try discriminate.
  reflexivity.
Qed.

Lemma is_digit_bounds c : is_digit c = true -> (48 <= c <= 57)%N.
Proof.
  unfold is_digit. intros H. apply andb_prop in H as [H1 H2].
  apply N.leb_le in H1, H2. lia.
Qed.

(** The decoder reads the digits of an integer back as that integer. *)
Lemma match_number_digits c t rest :
  Forall (fun x => is_digit x = true) (c :: t) ->
  (c = 48%N -> t = []) ->
  number_end rest = true ->
  int_digits ((c :: t) ++ rest) = Some (c :: t, rest).
Proof.
  intros Hd Hz Hr. apply Forall_cons in Hd as [Hc Ht].
  cbn. destruct (N.eqb_spec c 48) as [->|Hne].
  - rewrite (Hz eq_refl). reflexivity.
  - rewrite Hc, (span_digits_app t rest Ht Hr). reflexivity.
Qed.

Lemma abs_N_cases (z : Z) :
  Z.abs_N z = if (z <? 0)%Z then Z.to_N (- z) else Z.to_N z.
Proof. destruct z; reflexivity. Qed.

Lemma match_number_repr z rest :
  (Z.of_nat (length (repr_N (Z.abs_N z))) <= int_max_str_digits)%Z ->
  number_end rest = true ->
  match_number (decimal z ++ rest) = Some (PInt z, rest).
Proof.
  intros Hlim Hr. rewrite abs_N_cases in Hlim. unfold decimal, match_number.
  destruct (Z.ltb_spec z 0) as [Hneg|Hpos].
  - destruct (repr_N_spec (Z.to_N (- z))) as (c & t & E & Hd & Hv & Ht & Hc).
    rewrite E in Hlim |- *.
    cbn [app]. change (45 =? 45)%N with true. cbv iota beta.
    change (c :: t ++ rest) with ((c :: t) ++ rest).
    rewrite (match_number_digits c t rest Hd); [| |exact Hr].
    2:{ intros E0. specialize (Hc E0). lia. }
    cbn [mbind option_bind]. rewrite (frac_digits_end rest Hr), (exp_part_end rest Hr).
    destruct (Z.ltb_spec int_max_str_digits (Z.of_nat (length (c :: t)))); [lia|].
    rewrite Hv, Z2N.id by lia. rewrite Z.opp_involutive. reflexivity.
  - destruct (repr_N_spec (Z.to_N z)) as (c & t & E & Hd & Hv & Ht & Hc).
    rewrite E in Hlim |- *.
    pose proof (is_digit_bounds c (Forall_inv Hd)) as Hb.
    cbn [app]. destruct (N.eqb_spec c 45) as [->|_]; [lia|]. cbv iota beta.
    change (c :: t ++ rest) with ((c :: t) ++ rest).
    rewrite (match_number_digits c t rest Hd); [| |exact Hr].
    2:{ intros E0. apply Ht. specialize (Hc E0). exact Hc. }
    cbn [mbind option_bind]. rewrite (frac_digits_end rest Hr), (exp_part_end rest Hr).
    destruct (Z.ltb_spec int_max_str_digits (Z.of_nat (length (c :: t)))); [lia|].
    rewrite Hv, Z2N.id by lia. reflexivity.
Qed.

Lemma scan_constant_digit (c : char) (s : list char) :
  (c = 45%N \/ is_digit c = true) ->
  (forall d s', c = 45%N -> s = d :: s' -> is_digit d = true) ->
  s <> [] \/ c <> 45%N ->
  scan_constant (c :: s) = None.
Proof.
  intros Hc Hs Hne. unfold scan_constant.
  change (u "null") with [110; 117; 108; 108]%N.
  change (u "true") with [116; 114; 117; 101]%N.
  change (u "false") with [102; 97; 108; 115; 101]%N.
  change (u "NaN") with [78; 97; 78]%N.
  change (u "Infinity") with [73; 110; 102; 105; 110; 105; 116; 121]%N.
  change (u "-Infinity") with [45; 73; 110; 102; 105; 110; 105; 116; 121]%N.
  assert (Hb : c = 45%N \/ (48 <= c <= 57)%N).
  { destruct Hc as [->|Hc]; [auto | right; apply is_digit_bounds, Hc]. }
  cbn [starts_with].
  destruct (N.eqb_spec 110 c); [lia|].
  destruct (N.eqb_spec 116 c); [lia|].
  destruct (N.eqb_spec 102 c); [lia|].
  destruct (N.eqb_spec 78 c); [lia|].
  destruct (N.eqb_spec 73 c); [lia|].
  destruct (N.eqb_spec 45 c) as [E|]; [|reflexivity].
  destruct s as [|d s']; [reflexivity|].
  pose proof (is_digit_bounds d (Hs d s' (eq_sym E) eq_refl)).
  destruct (N.eqb_spec 73 d); [lia | reflexivity].
Qed.

Lemma scan_once_int g z rest :
  (Z.of_nat (length (repr_N (Z.abs_N z))) <= int_max_str_digits)%Z ->
  number_end rest = true ->
  scan_once (S g) (decimal z ++ rest) = Some (PInt z, rest).
Proof.
  intros Hlim Hr. pose proof (match_number_repr z rest Hlim Hr) as Hm.
  assert (Hshape : exists c s, decimal z ++ rest = c :: s /\
            (c = 45%N \/ is_digit c = true) /\
            (forall d s', c = 45%N -> s = d :: s' -> is_digit d = true) /\
            (s <> [] \/ c <> 45%N)).
  { unfold decimal. destruct (z <? 0)%Z.
    - destruct (repr_N_spec (Z.to_N (- z))) as (c & t & -> & Hd & _).
      exists 45%N, ((c :: t) ++ rest). split; [reflexivity|]. split; [auto|].
      split; [|left; discriminate].
      intros d s' _ [= <- _]. exact (Forall_inv Hd).
    - destruct (repr_N_spec (Z.to_N z)) as (c & t & -> & Hd & _).
      pose proof (is_digit_bounds c (Forall_inv Hd)).
      exists c, (t ++ rest). split; [reflexivity|].
      split; [right; exact (Forall_inv Hd)|]. split; [intros; lia | right; lia]. }
  destruct Hshape as (c & s & E & Hc & Hs & Hne).
  rewrite E in Hm |- *. cbn [scan_once].
  assert (Hb : c = 45%N \/ (48 <= c <= 57)%N).
  { destruct Hc as [->|Hc]; [auto | right; apply is_digit_bounds, Hc]. }
  destruct (N.eqb_spec c DQUOTE); [unfold DQUOTE in *; lia|].
  destruct (N.eqb_spec c LBRACE); [unfold LBRACE in *; lia|].
  destruct (N.eqb_spec c LBRACKET); [unfold LBRACKET in *; lia|].
  rewrite (scan_constant_digit c s Hc Hs Hne). exact Hm.
Qed.

Lemma scanstring_u00 (h3 h4 c1 : char) (tail : str) :
  hex4 48%N 48%N h3 h4 = Some c1 ->
  is_high_surrogate c1 = false ->
  tail <> [] ->
  scanstring (BACKSLASH :: 117%N :: 48%N :: 48%N :: h3 :: h4 :: tail)
  = push_char c1 (scanstring tail).
Proof.
  intros Hhex Hs Hne. destruct tail as [|t0 tail]; [congruence|].
  remember (scanstring (t0 :: tail)) as X eqn:EX.
  remember (t0 :: tail) as rest2 eqn:E2.
  cbn -[hex4 is_high_surrogate push_char].
  rewrite E2. rewrite Hhex. rewrite <- E2. rewrite Hs. subst X.
  destruct tail as [|? [|? [|? [|? [|? [|? ?]]]]]]; reflexivity.
Qed.

Lemma control_char_cases (c : char) :
  (c < 32)%N ->
  c = 0%N \/ c = 1%N \/ c = 2%N \/ c = 3%N \/ c = 4%N \/ c = 5%N \/ c = 6%N \/ c = 7%N \/ c = 8%N \/ c = 9%N \/ c = 10%N \/ c = 11%N \/ c = 12%N \/ c = 13%N \/ c = 14%N \/ c = 15%N \/ c = 16%N \/ c = 17%N \/ c = 18%N \/ c = 19%N \/ c = 20%N \/ c = 21%N \/ c = 22%N \/ c = 23%N \/ c = 24%N \/ c = 25%N \/ c = 26%N \/ c = 27%N \/ c = 28%N \/ c = 29%N \/ c = 30%N \/ c = 31%N.
Proof. lia. Qed.

Lemma hex4_control (c : char) :
  (c < 32)%N ->
  hex4 48%N 48%N (hex_char (c / 16)) (hex_char (c mod 16)) = Some c /\
  is_high_surrogate c = false.
Proof.
  intros H. apply control_char_cases in H.
  repeat (destruct H as [->|H]; [split; reflexivity|]). subst c. split; reflexivity.
Qed.

(** The decoder undoes the replacement of each character. *)
Lemma scanstring_escape_char (c : char) (tail : str) :
  tail <> [] ->
  scanstring (escape_char c ++ tail) = push_char c (scanstring tail).
Proof.
  intros Hne. unfold escape_char.
  destruct (N.eqb_spec c DQUOTE) as [->|H1]; [reflexivity|].
  destruct (N.eqb_spec c BACKSLASH) as [->|H2]; [reflexivity|].
  destruct (N.eqb_spec c 10) as [->|H3]; [reflexivity|].
  destruct (N.eqb_spec c 13) as [->|H4]; [reflexivity|].
  destruct (N.eqb_spec c 9) as [->|H5]; [reflexivity|].
  destruct (N.eqb_spec c 8) as [->|H6]; [reflexivity|].
  destruct (N.eqb_spec c 12) as [->|H7]; [reflexivity|].
  destruct (N.ltb_spec c 32) as [Hlt|Hge].
  - destruct (hex4_control c Hlt) as [Hh Hs].
    apply (scanstring_u00 _ _ c tail Hh Hs Hne).
  - cbn [app scanstring].
    destruct (N.eqb_spec c DQUOTE); [contradiction|].
    destruct (N.eqb_spec c BACKSLASH); [contradiction|].
    destruct (N.leb_spec c 31); [lia | reflexivity].
Qed.

Lemma scanstring_encode (s rest : str) :
  scanstring (flat_map escape_char s ++ DQUOTE :: rest) = Some (s, rest).
Proof.
  induction s as [|c s IH].
  - reflexivity.
  - cbn [flat_map]. rewrite <- app_assoc.
    rewrite scanstring_escape_char by (destruct (flat_map escape_char s); discriminate).
    rewrite IH. reflexivity.
Qed.

Lemma scan_once_str g (s rest : str) :
  scan_once (S g) (encode_basestring s ++ rest) = Some (PStr s, rest).
Proof.
  unfold encode_basestring. cbn [app scan_once].
  change (DQUOTE =? DQUOTE)%N with true. cbv iota.
  rewrite <- app_assoc. cbn [app]. rewrite scanstring_encode. reflexivity.
Qed.

(** Whitespace between the tokens. *)
Lemma skip_ws_head (c : char) (t : list char) :
  json_ws c = false -> skip_ws (c :: t) = c :: t.
Proof. intros H. unfold skip_ws. cbn [lstrip_by]. rewrite H. reflexivity. Qed.

Lemma skip_ws_space (c : char) (t : list char) :
  json_ws c = true -> skip_ws (c :: t) = skip_ws t.
Proof. intros H. unfold skip_ws. cbn [lstrip_by]. rewrite H. reflexivity. Qed.

Lemma skip_ws_app_ws (w s : str) :
  Forall (fun c => json_ws c = true) w -> skip_ws (w ++ s) = skip_ws s.
Proof.
  intros Hw. induction Hw as [|c w Hc Hw IH]; [reflexivity|].
  unfold skip_ws in *. cbn [app lstrip_by]. rewrite Hc. exact IH.
Qed.

Lemma newline_indent_ws indent level :
  Forall (fun c => json_ws c = true) (newline_indent indent level).
Proof.
  unfold newline_indent. destruct indent as [n|]; [|constructor].
  constructor; [reflexivity|]. apply Forall_forall. intros c Hc.
  apply list_elem_of_In, repeat_spec in Hc. subst c. reflexivity.
Qed.

Lemma item_separator_shape indent :
  exists w, item_separator indent = COMMA :: w /\
            Forall (fun c => json_ws c = true) w.
Proof.
  destruct indent; [exists [] | exists [32%N]]; split; try reflexivity;
    repeat constructor.
Qed.

Lemma number_end_close indent level (c : char) (rest : str) :
  c = RBRACKET \/ c = RBRACE ->
  number_end (newline_indent indent level ++ c :: rest) = true.
Proof.
  unfold newline_indent. destruct indent; intros [->| ->]; reflexivity.
Qed.

Lemma number_end_separator indent (s : str) :
  number_end (item_separator indent ++ s) = true.
Proof. destruct indent; reflexivity. Qed.

Lemma join_cons2 (sep p p' : str) (ps : list str) :
  join sep (p :: p' :: ps) = p ++ sep ++ join sep (p' :: ps).
Proof. reflexivity. Qed.

Lemma join_cons2_chars (sep p p' : list char) (ps : list (list char)) :
  join sep (p :: p' :: ps) = p ++ sep ++ join sep (p' :: ps).
Proof. reflexivity. Qed.

Lemma forallb_Forall {A} (f : A -> bool) (l : list A) :
  forallb f l = true -> Forall (fun x => f x = true) l.
Proof.
  induction l as [|x l IH]; cbn; [constructor|].
  intros H. apply andb_prop in H as [H1 H2]. constructor; auto.
Qed.

Lemma dict_set_fresh (acc : dict) k v :
  k ∉ keys acc -> dict_set acc k v = acc ++ [(k, v)].
Proof.
  induction acc as [|[k' v'] acc IH]; cbn; [reflexivity|].
  intros Hk. apply not_elem_of_cons in Hk as [Hne Hk].
  destruct (str_eqb k' k) eqn:E.
  - apply str_eqb_eq in E. congruence.
  - rewrite IH by exact Hk. reflexivity.
Qed.

(** The floats the encoder prints by name. *)
Lemma float_is_nan (f : pyfloat) :
  PrimFloat.eqb f f = false -> f = PrimFloat.nan.
Proof.
  rewrite FloatAxioms.eqb_spec. intros H. apply FloatAxioms.Prim2SF_inj.
  destruct (FloatOps.Prim2SF f) as [sg|sg| |sg m e]; try reflexivity.
  - destruct sg; discriminate.
  - destruct sg; discriminate.
  - exfalso. unfold SpecFloat.SFeqb, SpecFloat.SFcompare in H.
    destruct sg; rewrite Z.compare_refl in H; cbn in H;
      rewrite ?Pos.compare_cont_refl, ?Pos.compare_refl in H; cbn in H;
      discriminate.
Qed.

Lemma float_is_infinity (f : pyfloat) (negative : bool) :
  PrimFloat.eqb f (if negative then PrimFloat.neg_infinity else PrimFloat.infinity)
    = true ->
  f = if negative then PrimFloat.neg_infinity else PrimFloat.infinity.
Proof.
  rewrite FloatAxioms.eqb_spec. intros H. apply FloatAxioms.Prim2SF_inj.
  assert (E : FloatOps.Prim2SF
                (if negative then PrimFloat.neg_infinity else PrimFloat.infinity)
              = SpecFloat.S754_infinity negative)
    by (destruct negative; vm_compute; reflexivity).
  rewrite E in H. etransitivity; [|symmetry; exact E].
  destruct (FloatOps.Prim2SF f) as [sg|sg| |sg m e];
    try (destruct sg, negative; discriminate); try discriminate.
  destruct sg, negative; try discriminate; reflexivity.
Qed.

Section RoundTrip.

Variable float_repr : pyfloat -> str.
Variable indent : option nat.

(** An encoded value starts with a character that is neither
    whitespace nor a closing bracket. *)
Lemma iterencode_head level v :
  no_finite_float v = true ->
  exists (c : char) (t : list char),
    iterencode float_repr indent level v = c :: t /\
    json_ws c = false /\ c <> RBRACKET /\ c <> BOM.
Proof.
  intros Hf. destruct v as [| [|] | z | f | s | [|x l] | [|kv d]];
    try (eexists _, _; split; [reflexivity|]; split; [reflexivity|];
         split; discriminate).
  - cbn [iterencode]. unfold decimal. destruct (z <? 0)%Z.
    + eexists _, _; split; [reflexivity|]; split; [reflexivity|]; split; discriminate.
    + destruct (repr_N_spec (Z.to_N z)) as (c & t & -> & Hd & _).
      pose proof (is_digit_bounds c (Forall_inv Hd)) as Hb.
      exists c, t. split; [reflexivity|]. unfold json_ws, RBRACKET, BOM.
      split; [|split; lia].
      destruct (N.eqb_spec c 32); [lia|]. destruct (N.eqb_spec c 9); [lia|].
      destruct (N.eqb_spec c 10); [lia|]. destruct (N.eqb_spec c 13); [lia|].
      reflexivity.
  - cbn [iterencode no_finite_float] in *. unfold floatstr.
    destruct (negb (PrimFloat.eqb f f));
      [|destruct (PrimFloat.eqb f PrimFloat.infinity);
        [|destruct (PrimFloat.eqb f PrimFloat.neg_infinity); [|discriminate Hf]]];
      eexists _, _; (split; [reflexivity|]); (split; [reflexivity|]);
      split; discriminate.
Qed.

Lemma skip_ws_value (w : str) level v (rest : str) :
  Forall (fun c => json_ws c = true) w ->
  no_finite_float v = true ->
  skip_ws (w ++ iterencode float_repr indent level v ++ rest)
  = iterencode float_repr indent level v ++ rest.
Proof.
  intros Hw Hf. rewrite skip_ws_app_ws by exact Hw.
  destruct (iterencode_head level v Hf) as (c & t & -> & Hc & _).
  apply skip_ws_head, Hc.
Qed.

(** One member of an array, and one of an object. *)
Lemma parse_array_items_member n (acc : list pyval) (vtext r1 : str) val :
  scan_once n (vtext ++ r1) = Some (val, r1) ->
  parse_array_items (S n) acc (vtext ++ r1) =
  match skip_ws r1 with
  | c :: r2 =>
      if (c =? RBRACKET)%N then Some (PList (acc ++ [val]), r2)
      else if (c =? COMMA)%N then parse_array_items n (acc ++ [val]) (skip_ws r2)
      else None
  | [] => None
  end.
Proof. intros H. cbn [parse_array_items]. rewrite H. reflexivity. Qed.

Lemma parse_object_items_member n (acc : dict) (k vtext r3 : str) val :
  scan_once n (vtext ++ r3) = Some (val, r3) ->
  skip_ws (vtext ++ r3) = vtext ++ r3 ->
  parse_object_items (S n) acc
    (encode_basestring k ++ key_separator ++ vtext ++ r3) =
  match skip_ws r3 with
  | c4 :: r4 =>
      if (c4 =? RBRACE)%N then Some (PDict (dict_set acc k val), r4)
      else if (c4 =? COMMA)%N
           then parse_object_items n (dict_set acc k val) (skip_ws r4)
      else None
  | [] => None
  end.
Proof.
  intros H Hws. unfold encode_basestring.
  change key_separator with [COLON; 32%N].
  cbn [app parse_object_items]. change (DQUOTE =? DQUOTE)%N with true. cbv iota.
  rewrite <- app_assoc. cbn [app]. rewrite scanstring_encode. cbn [mbind option_bind].
  rewrite (skip_ws_head COLON) by reflexivity.
  change (COLON =? COLON)%N with true. cbv iota.
  rewrite (skip_ws_space 32%N) by reflexivity.
  rewrite Hws, H. reflexivity.
Qed.

Lemma parse_array_items_encode (l : list pyval) :
  Forall (reads_back float_repr indent) l ->
  Forall distinct_keys l ->
  Forall (fun x => no_finite_float x = true) l ->
  Forall (fun x => encodable x = true) l ->
  l <> [] ->
  forall (acc : list pyval) level level0 (rest : str),
  exists f0, forall g, (f0 <= g)%nat ->
    parse_array_items g acc
      (join (item_separator indent ++ newline_indent indent level)
            (map (iterencode float_repr indent level) l)
       ++ newline_indent indent level0 ++ RBRACKET :: rest)
    = Some (PList (acc ++ l), rest).
Proof.
  induction l as [|x l IH]; intros HP Hd Hf He Hne acc level level0 rest;
    [congruence|].
  apply Forall_cons in HP as [Px HP]. apply Forall_cons in Hd as [Dx Hd].
  apply Forall_cons in Hf as [Fx Hf]. apply Forall_cons in He as [Ex He].
  destruct l as [|y l].
  - cbn [map join].
    destruct (Px Dx Fx Ex level (newline_indent indent level0 ++ RBRACKET :: rest))
      as [f0 Hx]; [apply number_end_close; auto|].
    exists (S f0). intros g Hg. destruct g as [|n]; [lia|].
    rewrite (parse_array_items_member n acc _ _ x) by (apply Hx; lia).
    rewrite skip_ws_app_ws by apply newline_indent_ws.
    rewrite (skip_ws_head RBRACKET) by reflexivity. reflexivity.
  - destruct (IH HP Hd Hf He ltac:(discriminate) (acc ++ [x]) level level0 rest)
      as [f1 H1].
    remember (join (item_separator indent ++ newline_indent indent level)
                   (map (iterencode float_repr indent level) (y :: l))
              ++ newline_indent indent level0 ++ RBRACKET :: rest) as tail eqn:Et.
    destruct (item_separator_shape indent) as (w & Ew & Hw).
    destruct (Px Dx Fx Ex level
                ((item_separator indent ++ newline_indent indent level) ++ tail))
      as [f0 Hx]; [rewrite <- app_assoc; apply number_end_separator|].
    exists (S (Nat.max f0 f1)). intros g Hg. destruct g as [|n]; [lia|].
    change (map (iterencode float_repr indent level) (x :: y :: l)) with
      (iterencode float_repr indent level x
         :: map (iterencode float_repr indent level) (y :: l)).
    cbn [map]. rewrite join_cons2. cbn [map] in Et.
    rewrite <- !app_assoc. rewrite <- Et.
    rewrite <- !app_assoc in Hx.
    rewrite (parse_array_items_member n acc _ _ x) by (apply Hx; lia).
    rewrite Ew. cbn [app]. rewrite (skip_ws_head COMMA) by reflexivity.
    change (COMMA =? RBRACKET)%N with false. change (COMMA =? COMMA)%N with true.
    cbv iota.
    assert (Hs : skip_ws (w ++ newline_indent indent level ++ tail) = tail).
    { rewrite Et. cbn [join].
      destruct (map (iterencode float_repr indent level) l);
        rewrite <- ?app_assoc; rewrite (app_assoc w); apply skip_ws_value;
        try (apply Forall_app; split; [exact Hw | apply newline_indent_ws]);
        exact (Forall_inv Hf). }
    rewrite Hs. rewrite H1 by lia. rewrite <- app_assoc. reflexivity.
Qed.

Lemma parse_object_items_encode (d : dict) :
  Forall (fun kv => reads_back float_repr indent kv.2) d ->
  Forall (fun kv => distinct_keys kv.2) d ->
  Forall (fun kv => no_finite_float kv.2 = true) d ->
  Forall (fun kv => encodable kv.2 = true) d ->
  d <> [] ->
  forall (acc : dict) level level0 (rest : str),
  NoDup (keys (acc ++ d)) ->
  exists f0, forall g, (f0 <= g)%nat ->
    parse_object_items g acc
      (join (item_separator indent ++ newline_indent indent level)
            (map (fun kv => encode_basestring kv.1 ++ key_separator
                            ++ iterencode float_repr indent level kv.2) d)
       ++ newline_indent indent level0 ++ RBRACE :: rest)
    = Some (PDict (acc ++ d), rest).
Proof.
  induction d as [|[k x] d IH]; intros HP Hd Hf He Hne acc level level0 rest Hnd;
    [congruence|].
  apply Forall_cons in HP as [Px HP]. apply Forall_cons in Hd as [Dx Hd].
  apply Forall_cons in Hf as [Fx Hf]. apply Forall_cons in He as [Ex He].
  cbn [snd] in Px, Dx, Fx, Ex.
  assert (Hfresh : dict_set acc k x = acc ++ [(k, x)]).
  { apply dict_set_fresh. unfold keys in Hnd |- *. rewrite map_app in Hnd.
    apply NoDup_app in Hnd as (_ & Hdisj & _). intros Hin.
    apply (Hdisj k Hin). cbn. apply list_elem_of_here. }
  destruct d as [|[k' y] d].
  - cbn [map join fst snd].
    destruct (Px Dx Fx Ex level (newline_indent indent level0 ++ RBRACE :: rest))
      as [f0 Hx]; [apply number_end_close; auto|].
    exists (S f0). intros g Hg. destruct g as [|n]; [lia|].
    rewrite <- !app_assoc.
    rewrite (parse_object_items_member n acc k _ _ x);
      [|apply Hx; lia|apply (skip_ws_value [] level x); [constructor | exact Fx]].
    rewrite skip_ws_app_ws by apply newline_indent_ws.
    rewrite (skip_ws_head RBRACE) by reflexivity.
    change (RBRACE =? RBRACE)%N with true. cbv iota. rewrite Hfresh. reflexivity.
  - destruct (IH HP Hd Hf He ltac:(discriminate) (acc ++ [(k, x)]) level level0 rest)
      as [f1 H1]; [rewrite <- app_assoc; exact Hnd|].
    remember (join (item_separator indent ++ newline_indent indent level)
                   (map (fun kv => encode_basestring kv.1 ++ key_separator
                                   ++ iterencode float_repr indent level kv.2)
                        ((k', y) :: d))
              ++ newline_indent indent level0 ++ RBRACE :: rest) as tail eqn:Et.
    destruct (item_separator_shape indent) as (w & Ew & Hw).
    destruct (Px Dx Fx Ex level
                ((item_separator indent ++ newline_indent indent level) ++ tail))
      as [f0 Hx]; [rewrite <- app_assoc; apply number_end_separator|].
    exists (S (Nat.max f0 f1)). intros g Hg. destruct g as [|n]; [lia|].
    cbn [map]. rewrite join_cons2_chars. cbn [map] in Et. cbn [fst snd] in *.
    rewrite <- !app_assoc. rewrite <- Et.
    rewrite <- !app_assoc in Hx.
    rewrite (parse_object_items_member n acc k _ _ x);
      [|apply Hx; lia|apply (skip_ws_value [] level x); [constructor | exact Fx]].
    rewrite Ew. cbn [app]. rewrite (skip_ws_head COMMA) by reflexivity.
    change (COMMA =? RBRACE)%N with false. change (COMMA =? COMMA)%N with true.
    cbv iota.
    assert (Hs : skip_ws (w ++ newline_indent indent level ++ tail) = tail).
    { rewrite app_assoc.
      rewrite skip_ws_app_ws
        by (apply Forall_app; split; [exact Hw | apply newline_indent_ws]).
      rewrite Et. cbn [join].
      destruct (map _ d); unfold encode_basestring; cbn [app];
        apply skip_ws_head; reflexivity. }
    rewrite Hs, Hfresh. rewrite H1 by lia. rewrite <- app_assoc. reflexivity.
Qed.

Lemma iterencode_reads_back v : reads_back float_repr indent v.
Proof.
  induction v as [| b | z | f | s | l IHl | d IHd] using pyval_nested_ind;
    intros Hd Hf He level rest Hr.
  - exists 1%nat. intros [|g] Hg; [lia | reflexivity].
  - exists 1%nat. intros [|g] Hg; [lia | destruct b; reflexivity].
  - exists 1%nat. intros [|g] Hg; [lia|]. apply scan_once_int; [|exact Hr].
    cbn [encodable] in He. unfold repr_int in He.
    destruct (Z.ltb_spec int_max_str_digits
                (Z.of_nat (length (repr_N (Z.abs_N z))))); [discriminate | lia].
  - exists 1%nat. intros [|g] Hg; [lia|].
    cbn [iterencode no_finite_float] in *. unfold floatstr.
    destruct (PrimFloat.eqb f f) eqn:E1; cbn [negb orb] in *.
    + destruct (PrimFloat.eqb f PrimFloat.infinity) eqn:E2; cbn [orb] in *.
      * rewrite (float_is_infinity f false E2). reflexivity.
      * rewrite Hf. rewrite (float_is_infinity f true Hf). reflexivity.
    + rewrite (float_is_nan f E1). reflexivity.
  - exists 1%nat. intros [|g] Hg; [lia|]. apply scan_once_str.
  - apply distinct_keys_list in Hd. cbn [no_finite_float encodable] in Hf, He.
    apply forallb_Forall in Hf. apply forallb_Forall in He.
    destruct l as [|x l].
    { exists 1%nat. intros [|g] Hg; [lia | reflexivity]. }
    destruct (parse_array_items_encode (x :: l) IHl Hd Hf He ltac:(discriminate)
                [] (S level) level rest) as [f0 H0].
    exists (S f0). intros g Hg. destruct g as [|n]; [lia|].
    specialize (H0 n ltac:(lia)).
    change (iterencode float_repr indent level (PList (x :: l))) with
      ([LBRACKET] ++ newline_indent indent (S level)
       ++ join (item_separator indent ++ newline_indent indent (S level))
               (map (iterencode float_repr indent (S level)) (x :: l))
       ++ newline_indent indent level ++ [RBRACKET]).
    rewrite <- !app_assoc. cbn [app] in H0 |- *.
    remember (join (item_separator indent ++ newline_indent indent (S level))
                   (map (iterencode float_repr indent (S level)) (x :: l))
              ++ newline_indent indent level ++ RBRACKET :: rest) as body eqn:Eb.
    assert (Hhead : exists (c : char) (t : list char),
               body = c :: t /\ json_ws c = false /\ c <> RBRACKET).
    { destruct (iterencode_head (S level) x (Forall_inv Hf)) as (c & t & E & Hc & Hn & _).
      rewrite Eb. cbn [map]. destruct (map _ l); cbn [join]; rewrite E;
        eexists _, _; (split; [reflexivity|]); auto. }
    destruct Hhead as (c & t & Ec & Hc & Hn).
    cbn [scan_once]. change (LBRACKET =? DQUOTE)%N with false.
    change (LBRACKET =? LBRACE)%N with false.
    change (LBRACKET =? LBRACKET)%N with true. cbv iota.
    rewrite skip_ws_app_ws by apply newline_indent_ws.
    rewrite Ec, (skip_ws_head c t Hc).
    destruct (N.eqb_spec c RBRACKET); [contradiction|].
    rewrite <- Ec. exact H0.
  - apply distinct_keys_dict in Hd as [Hnd Hd].
    cbn [no_finite_float encodable] in Hf, He.
    apply forallb_Forall in Hf. apply forallb_Forall in He.
    destruct d as [|[k x] d].
    { exists 1%nat. intros [|g] Hg; [lia | reflexivity]. }
    destruct (parse_object_items_encode ((k, x) :: d) IHd Hd Hf He ltac:(discriminate)
                [] (S level) level rest Hnd) as [f0 H0].
    exists (S f0). intros g Hg. destruct g as [|n]; [lia|].
    specialize (H0 n ltac:(lia)).
    change (iterencode float_repr indent level (PDict ((k, x) :: d))) with
      ([LBRACE] ++ newline_indent indent (S level)
       ++ join (item_separator indent ++ newline_indent indent (S level))
               (map (fun kv => encode_basestring kv.1 ++ key_separator
                               ++ iterencode float_repr indent (S level) kv.2)
                    ((k, x) :: d))
       ++ newline_indent indent level ++ [RBRACE]).
    rewrite <- !app_assoc. cbn [app] in H0 |- *.
    remember (join (item_separator indent ++ newline_indent indent (S level))
                   (map (fun kv => encode_basestring kv.1 ++ key_separator
                                   ++ iterencode float_repr indent (S level) kv.2)
                        ((k, x) :: d))
              ++ newline_indent indent level ++ RBRACE :: rest) as body eqn:Eb.
    assert (Hhead : exists t : list char, body = DQUOTE :: t).
    { rewrite Eb. cbn [map]. destruct (map _ d); cbn [join];
        unfold encode_basestring; cbn [app fst]; eexists; reflexivity. }
    destruct Hhead as (t & Ec).
    cbn [scan_once]. change (LBRACE =? DQUOTE)%N with false.
    change (LBRACE =? LBRACE)%N with true. cbv iota.
    rewrite skip_ws_app_ws by apply newline_indent_ws.
    rewrite Ec, (skip_ws_head DQUOTE t) by reflexivity.
    change (DQUOTE =? RBRACE)%N with false. cbv iota.
    rewrite <- Ec. exact H0.
Qed.

Lemma json_loads_json_dumps v :
  distinct_keys v -> no_finite_float v = true -> encodable v = true ->
  exists text,
    json_dumps float_repr indent v = Some text /\ json_loads text = Some v.
Proof.
  intros Hd Hf He. unfold json_dumps. rewrite He. eexists. split; [reflexivity|].
  destruct (iterencode_reads_back v Hd Hf He 0%nat [] eq_refl) as [f0 H0].
  specialize (H0 f0 (le_n _)). rewrite app_nil_r in H0.
  destruct (iterencode_head 0%nat v Hf) as (c & t & E & Hc & _ & Hbom).
  assert (Hdec : decode (iterencode float_repr indent 0 v) = Some v).
  { apply (decode_fuel_irrelevant f0 _ v []); [|reflexivity].
    rewrite E, (skip_ws_head c t Hc), <- E. exact H0. }
  unfold json_loads. rewrite E in Hdec |- *.
  destruct (N.eqb_spec c BOM); [contradiction | exact Hdec].
Qed.

End RoundTrip.

(** ** The heap holds well-formed dicts *)

Lemma NoDup_literal (l : list str) : bool_decide (NoDup l) = true -> NoDup l.
Proof. apply bool_decide_eq_true_1. Qed.

Lemma history_entry_distinct (d : dict) choice_text raw :
  distinct_keys (PDict d) ->
  distinct_keys (PDict (history_entry d choice_text raw)).
Proof.
  intros Hd. apply distinct_keys_dict. split.
  - apply NoDup_literal. vm_compute. reflexivity.
  - unfold history_entry. repeat constructor; cbn [snd];
      try apply dict_get_distinct; auto; exact I.
Qed.

Lemma scene_summary_distinct (scene : dict) :
  distinct_keys (PDict scene) ->
  distinct_keys (PDict (scene_summary scene)).
Proof.
  intros Hd. apply distinct_keys_dict. split.
  - apply NoDup_literal. vm_compute. reflexivity.
  - unfold scene_summary. repeat constructor; cbn [snd];
      apply dict_get_distinct; auto; exact I.
Qed.

Lemma new_character_distinct name court archetype strength guile magic :
  distinct_keys (PDict (new_character name court archetype strength guile magic)).
Proof.
  apply distinct_keys_dict. split.
  - apply NoDup_literal. vm_compute. reflexivity.
  - unfold new_character. repeat constructor.
Qed.

Lemma prologue_scene_distinct name : distinct_keys (PDict (prologue_scene name)).
Proof.
  apply distinct_keys_dict. split.
  - apply NoDup_literal. vm_compute. reflexivity.
  - unfold prologue_scene. repeat constructor.
Qed.

Lemma updated_value_distinct (d : dict) k v new :
  updated_value d k v = inr new -> distinct_keys v -> distinct_keys new.
Proof.
  unfold updated_value, py_add_number. destruct (isinstance_int_float v).
  - destruct (as_number _) as [a|]; [|discriminate].
    destruct (as_number v) as [b|]; [|discriminate].
    destruct a as [x|f], b as [y|g]; cbn [number_add];
      try destruct (float_of_Z _); cbn; intros [= <-] _; exact I.
  - intros [= <-]. auto.
Qed.

Lemma update_dict_distinct (items : dict) : forall d : dict,
  distinct_keys (PDict d) ->
  Forall (fun kv => distinct_keys kv.2) items ->
  distinct_keys (PDict (update_dict items d).1).
Proof.
  induction items as [|[k v] items IH]; intros d Hd Hall; [exact Hd|].
  apply Forall_cons in Hall as [Hv Hall]. cbn [update_dict].
  destruct (updated_value d k v) as [e|new] eqn:E; [exact Hd|].
  apply IH; [|exact Hall]. apply dict_set_distinct; [exact Hd|].
  eapply updated_value_distinct; eauto.
Qed.

Lemma deref_distinct rt r : heap_distinct rt -> distinct_keys (PDict (deref (objects rt) r)).
Proof.
  intros H. unfold deref. destruct (objects rt !! r) as [d|] eqn:E.
  - unfold heap_distinct in H. rewrite Forall_lookup in H. exact (H _ _ E).
  - cbn. split; [apply NoDup_nil_2 | exact I].
Qed.

Lemma heap_distinct_appended rt entry :
  heap_distinct rt -> distinct_keys (PDict entry) ->
  heap_distinct (appended rt entry).
Proof.
  intros H He. unfold heap_distinct, appended. cbn [objects].
  apply Forall_app. split; [exact H|]. apply Forall_cons. split; [exact He|].
  apply Forall_nil_2.
Qed.

Lemma reachable_heap_distinct py_str rt :
  reachable py_str rt -> heap_distinct rt.
Proof.
  induction 1 as [|rt H IH|rt n c a s g m H IH Hpc|rt api H IH Hpc Hsc
                  |rt api ct cu H IH Hpc Hsc].
  - constructor.
  - rewrite restart_session_run. exact IH.
  - rewrite create_character_run. unfold heap_distinct. cbn [final objects].
    apply Forall_app. split; [apply Forall_app; split; [exact IH|]|];
      (apply Forall_cons; split; [|apply Forall_nil_2]).
    + apply new_character_distinct.
    + apply prologue_scene_distinct.
  - rewrite begin_adventure_run.
    destruct (api _) as [[raw|]|e]; try exact IH.
    pose proof (parse_llm_json_distinct raw) as Hp.
    destruct (parse_llm_json raw) as [| | | | | |d]; try exact IH.
    apply heap_distinct_appended; [exact IH|]. apply history_entry_distinct, Hp.
  - rewrite take_choice_run.
    destruct (api _) as [[raw|]|e]; try exact IH.
    pose proof (parse_llm_json_distinct raw) as Hp.
    destruct (parse_llm_json raw) as [| | | | | |d]; try exact IH.
    destruct (state_updates d) as [| | | | | |items] eqn:Hu; try exact IH.
    pose proof (state_updates_distinct d items Hp Hu) as Hitems.
    destruct (pc (session rt)) as [l|] eqn:Hl; [|congruence].
    destruct (led_pc _ (reachable_ledger _ _ H) l Hl) as (pcd & Hd & _).
    rewrite (apply_state_updates_run items rt l pcd Hl Hd).
    assert (H1 : heap_distinct
                   {| objects := <[l:=(update_dict items pcd).1]> (objects rt);
                      session := session rt |}).
    { unfold heap_distinct. cbn [objects]. apply Forall_insert; [exact IH|].
      apply update_dict_distinct.
      - unfold heap_distinct in IH. rewrite Forall_lookup in IH. exact (IH _ _ Hd).
      - apply distinct_keys_dict in Hitems as [_ Hall]. exact Hall. }
    destruct (update_dict items pcd).2 as [[]|sg]; cbn [final]; [|exact H1].
    apply heap_distinct_appended; [exact H1|]. apply history_entry_distinct, Hp.
Qed.

(** ** Decoded ints can be printed *)

Lemma fold_digits_acc (ds : str) : forall acc : Z,
  fold_left (fun acc c => (acc * 10 + Z.of_N (c - 48))%Z) ds acc
  = (acc * 10 ^ Z.of_nat (length ds) + Z_of_digits ds)%Z.
Proof.
  unfold Z_of_digits. induction ds as [|c ds IH]; intros acc.
  - cbn. lia.
  - cbn [fold_left length]. rewrite IH, (IH (0 * 10 + Z.of_N (c - 48))%Z).
    rewrite Nat2Z.inj_succ, Z.pow_succ_r by lia. lia.
Qed.

Lemma Z_of_digits_cons (c : char) (t : str) :
  Z_of_digits (c :: t)
  = (Z.of_N (c - 48) * 10 ^ Z.of_nat (length t) + Z_of_digits t)%Z.
Proof.
  unfold Z_of_digits at 1. cbn [fold_left]. rewrite fold_digits_acc. lia.
Qed.

Lemma Z_of_digits_bounds (ds : str) :
  Forall (fun x => is_digit x = true) ds ->
  (0 <= Z_of_digits ds < 10 ^ Z.of_nat (length ds))%Z.
Proof.
  induction 1 as [|c t Hc Ht IH]; [cbn; lia|].
  rewrite Z_of_digits_cons. apply is_digit_bounds in Hc.
  cbn [length]. rewrite Nat2Z.inj_succ, Z.pow_succ_r by lia.
  assert (0 < 10 ^ Z.of_nat (length t))%Z by (apply Z.pow_pos_nonneg; lia).
  nia.
Qed.

(** A number of [k] digits prints with at most [k] digits. *)
Lemma repr_N_length (n : N) (k : nat) :
  (Z.of_N n < 10 ^ Z.of_nat k)%Z -> (1 <= k)%nat ->
  (length (repr_N n) <= k)%nat.
Proof.
  intros Hn Hk. destruct (repr_N_spec n) as (c & t & -> & Hd & Hv & Ht & Hc).
  destruct (N.eq_dec c 48%N) as [->|Hne].
  - rewrite (Ht (Hc eq_refl)). cbn. exact Hk.
  - apply Forall_cons in Hd as [Hdc Hdt].
    pose proof (Z_of_digits_bounds t Hdt) as Hb.
    apply is_digit_bounds in Hdc. rewrite Z_of_digits_cons in Hv.
    assert (Hpos : (0 < 10 ^ Z.of_nat (length t))%Z)
      by (apply Z.pow_pos_nonneg; lia).
    assert (Hlow : (10 ^ Z.of_nat (length t) <= Z.of_N n)%Z) by nia.
    cbn [length].
    destruct (Nat.lt_ge_cases (length t) k) as [Hlt|Hge]; [lia|].
    assert (10 ^ Z.of_nat k <= 10 ^ Z.of_nat (length t))%Z
      by (apply Z.pow_le_mono_r; lia).
    lia.
Qed.

Lemma span_digits_digits (s : str) : forall ds r,
  span_digits s = (ds, r) -> Forall (fun x => is_digit x = true) ds.
Proof.
  induction s as [|c s IH]; intros ds r; cbn.
  - intros [= <- _]. constructor.
  - destruct (is_digit c) eqn:E.
    + destruct (span_digits s) as [ds' r'] eqn:Es. intros [= <- _].
      constructor; [exact E | eapply IH; reflexivity].
    + intros [= <- _]. constructor.
Qed.

Lemma int_digits_digits (s ints r : str) :
  int_digits s = Some (ints, r) ->
  Forall (fun x => is_digit x = true) ints /\ (1 <= length ints)%nat.
Proof.
  unfold int_digits. destruct s as [|c s']; [discriminate|].
  destruct (N.eqb_spec c 48) as [->|Hne].
  - intros [= <- _]. split; [repeat constructor | cbn; lia].
  - destruct (is_digit c) eqn:E; [|discriminate].
    destruct (span_digits s') as [ds r'] eqn:Es. intros [= <- _].
    split; [|cbn; lia]. constructor; [exact E|].
    eapply span_digits_digits; eauto.
Qed.

Lemma decoded_int_encodable (ints : str) (negative : bool) :
  Forall (fun x => is_digit x = true) ints -> (1 <= length ints)%nat ->
  (Z.of_nat (length ints) <= int_max_str_digits)%Z ->
  encodable (PInt (if negative then (- Z_of_digits ints)%Z else Z_of_digits ints))
  = true.
Proof.
  intros Hd Hlen Hlim. pose proof (Z_of_digits_bounds ints Hd) as Hb.
  cbn [encodable]. unfold repr_int.
  set (z := if negative then (- Z_of_digits ints)%Z else Z_of_digits ints).
  assert (Hn : Z.of_N (Z.abs_N z) = Z_of_digits ints)
    by (subst z; destruct negative; lia).
  pose proof (repr_N_length (Z.abs_N z) (length ints) ltac:(lia) Hlen).
  destruct (Z.ltb_spec int_max_str_digits
              (Z.of_nat (length (repr_N (Z.abs_N z))))); [lia | reflexivity].
Qed.

Lemma match_number_encodable s v r :
  match_number s = Some (v, r) -> encodable v = true.
Proof.
  unfold match_number. intros H.
  destruct (match s with
            | c :: s' => if (c =? 45)%N then (true, s') else (false, s)
            | [] => (false, s)
            end) as [neg s0].
  destruct (int_digits s0) as [[ints s1]|] eqn:Ei; [|discriminate].
  apply int_digits_digits in Ei as [Hd Hlen].
  cbn [mbind option_bind] in H.
  destruct (frac_digits s1) as [[fs r1]|];
    (destruct (exp_part _) as [[x r2]|]);
    try (inversion H; reflexivity).
  destruct (Z.ltb_spec int_max_str_digits (Z.of_nat (length ints)));
    [discriminate|].
  injection H as <- _. apply decoded_int_encodable; assumption.
Qed.

Lemma scan_constant_encodable s v r :
  scan_constant s = Some (v, r) -> encodable v = true.
Proof.
  unfold scan_constant. intros H.
  repeat match type of H with
         | context [starts_with ?p s] => destruct (starts_with p s)
         end; inversion H; reflexivity.
Qed.

Lemma dict_set_encodable (d : dict) k v :
  encodable (PDict d) = true -> encodable v = true ->
  encodable (PDict (dict_set d k v)) = true.
Proof.
  cbn [encodable]. intros Hd Hv. induction d as [|[k' v'] d IH]; cbn.
  - rewrite Hv. reflexivity.
  - cbn in Hd. apply andb_prop in Hd as [H1 H2].
    destruct (str_eqb k' k); cbn; rewrite ?Hv, ?H1, ?H2, ?IH; auto.
Qed.

Lemma scan_encodable fuel :
  (forall s v r, scan_once fuel s = Some (v, r) -> encodable v = true) /\
  (forall acc s v r, parse_object_items fuel acc s = Some (v, r) ->
                     encodable (PDict acc) = true -> encodable v = true) /\
  (forall acc s v r, parse_array_items fuel acc s = Some (v, r) ->
                     encodable (PList acc) = true -> encodable v = true).
Proof.
  induction fuel as [|n (IHs & IHo & IHa)].
  { split; [|split]; [intros s v r | intros acc s v r | intros acc s v r];
      discriminate. }
  split; [|split].
  - intros s v r. cbn [scan_once].
    destruct s as [|c rest]; [discriminate|].
    destruct (c =? DQUOTE)%N.
    { destruct (scanstring rest) as [[k r1]|]; [|discriminate]. cbn.
      intros [= <- _]. reflexivity. }
    destruct (c =? LBRACE)%N.
    { destruct (skip_ws rest) as [|c' r']; [discriminate|].
      destruct (c' =? RBRACE)%N.
      - intros [= <- _]. reflexivity.
      - intros H. apply (IHo _ _ _ _ H). reflexivity. }
    destruct (c =? LBRACKET)%N.
    { destruct (skip_ws rest) as [|c' r']; [discriminate|].
      destruct (c' =? RBRACKET)%N.
      - intros [= <- _]. reflexivity.
      - intros H. apply (IHa _ _ _ _ H). reflexivity. }
    destruct (scan_constant (c :: rest)) as [[v1 r1]|] eqn:Ec.
    + intros [= <- _]. eapply scan_constant_encodable; eauto.
    + apply match_number_encodable.
  - intros acc s v r. cbn [parse_object_items].
    destruct s as [|c s1]; [discriminate|].
    destruct (c =? DQUOTE)%N; [|discriminate].
    destruct (scanstring s1) as [[key r1]|]; [|discriminate]. cbn.
    destruct (skip_ws r1) as [|c2 r2]; [discriminate|].
    destruct (c2 =? COLON)%N; [|discriminate].
    destruct (scan_once n (skip_ws r2)) as [[val r3]|] eqn:Ev; [|discriminate]. cbn.
    pose proof (IHs _ _ _ Ev) as Hval.
    destruct (skip_ws r3) as [|c4 r4]; [discriminate|].
    destruct (c4 =? RBRACE)%N.
    + intros [= <- _] Hacc. apply dict_set_encodable; assumption.
    + destruct (c4 =? COMMA)%N; [|discriminate].
      intros H Hacc. apply (IHo _ _ _ _ H). apply dict_set_encodable; assumption.
  - intros acc s v r. cbn [parse_array_items].
    destruct (scan_once n s) as [[val r1]|] eqn:Ev; [|discriminate]. cbn.
    pose proof (IHs _ _ _ Ev) as Hval.
    assert (Hacc' : encodable (PList acc) = true ->
                    encodable (PList (acc ++ [val])) = true).
    { cbn [encodable]. intros Hacc. rewrite forallb_app, Hacc. cbn.
      rewrite Hval. reflexivity. }
    destruct (skip_ws r1) as [|c r2]; [discriminate|].
    destruct (c =? RBRACKET)%N.
    + intros [= <- _] Hacc. auto.
    + destruct (c =? COMMA)%N; [|discriminate].
      intros H Hacc. apply (IHa _ _ _ _ H). auto.
Qed.

Lemma json_loads_encodable s v : json_loads s = Some v -> encodable v = true.
Proof.
  assert (Hd : decode s = Some v -> encodable v = true).
  { unfold decode.
    destruct (scan_once _ (skip_ws s)) as [[v' r]|] eqn:E; [|discriminate]. cbn.
    destruct (skip_ws r); [|discriminate]. intros [= <-].
    eapply (proj1 (scan_encodable _)); eauto. }
  unfold json_loads. destruct s as [|c s']; [exact Hd|].
  destruct (c =? BOM)%N; [discriminate | exact Hd].
Qed.

(** What the parser returns holds no int beyond the digit limit: the
    decoder refuses such a literal. *)
Lemma parse_llm_json_encodable (text : str) :
  encodable (parse_llm_json text) = true.
Proof.
  unfold parse_llm_json.
  destruct (str_index text LBRACE ≫= _) as [v|] eqn:E1.
  - destruct (str_index text LBRACE) as [start|]; [|discriminate].
    cbn in E1. eapply json_loads_encodable; eauto.
  - destruct (json_loads (cleaned text)) as [v|] eqn:E2; [|reflexivity].
    eapply json_loads_encodable; eauto.
Qed.

Lemma dict_get_encodable (d : dict) k default :
  encodable (PDict d) = true -> encodable default = true ->
  encodable (dict_get d k default) = true.
Proof.
  cbn [encodable]. intros Hd Hdef. unfold dict_get.
  destruct (dict_lookup d k) as [v|] eqn:El; [|exact Hdef].
  apply dict_lookup_elem_of in El. apply forallb_Forall in Hd.
  rewrite Forall_forall in Hd. exact (Hd _ El).
Qed.

Lemma history_entry_encodable (d : dict) choice_text raw :
  encodable (PDict d) = true ->
  encodable (PDict (history_entry d choice_text raw)) = true.
Proof.
  intros Hd. unfold history_entry. cbn [encodable forallb snd].
  rewrite !(dict_get_encodable d _ PNone Hd eq_refl). reflexivity.
Qed.

Lemma scene_summary_encodable (scene : dict) :
  encodable (PDict scene) = true ->
  encodable (PDict (scene_summary scene)) = true.
Proof.
  intros Hd. unfold scene_summary. cbn [encodable forallb snd].
  rewrite !(dict_get_encodable scene _ PNone Hd eq_refl). reflexivity.
Qed.

(** In a reachable state every history entry can be printed, and so can
    the scene on display. *)
Lemma reachable_entry_encodable py_str rt r :
  reachable py_str rt ->
  r ∈ story_history (session rt) ->
  encodable (PDict (deref (objects rt) r)) = true.
Proof.
  intros Hreach Hr.
  destruct (led_entries _ (reachable_ledger _ _ Hreach) r Hr)
    as (_ & d & ct & raw & Hd & Hp).
  rewrite (deref_lookup _ _ _ Hd). apply history_entry_encodable.
  rewrite <- Hp. apply parse_llm_json_encodable.
Qed.

Lemma reachable_scene_encodable py_str rt r :
  reachable py_str rt ->
  current_scene (session rt) = Some r ->
  encodable (PDict (deref (objects rt) r)) = true.
Proof.
  intros Hreach Hr.
  destruct (story_history (session rt)) as [|r0 hist] eqn:Eh.
  - destruct (reachable_prologue_shown _ _ Hreach Eh r Hr) as [name Hn].
    rewrite (deref_lookup _ _ _ Hn). reflexivity.
  - destruct (last (story_history (session rt))) as [r'|] eqn:Hl.
    2:{ apply last_None in Hl. congruence. }
    pose proof (inv_last _ (reachable_invariant _ _ Hreach) r' Hl) as Hr'.
    assert (r' = r) by congruence. subst r'.
    apply (reachable_entry_encodable py_str); [exact Hreach|].
    apply last_Some in Hl as [l' ->]. apply elem_of_app. right.
    apply list_elem_of_here.
Qed.

(** ** What the tools print can be read back *)



(** X20: in every reachable state that shows a scene, the text the
    "Show raw LLM JSON" button prints decodes to the [scene_id],
    [narrative] and [choices] of the scene ([None] where the scene has
    no such key), provided none of them holds a finite float.  The
    button cannot fail on the digit limit: what a scene holds came out
    of [json.loads]. *)
Theorem show_raw_reads_back py_str float_repr rt r :
  reachable py_str rt ->
  current_scene (session rt) = Some r ->
  no_finite_float (PDict (scene_summary (deref (objects rt) r))) = true ->
  exists text,
    show_raw float_repr (deref (objects rt) r) = Some (st_code text) /\
    json_loads text = Some (PDict (scene_summary (deref (objects rt) r))).
Proof.
  intros Hreach Hr Hf.
  destruct (json_loads_json_dumps float_repr (Some 2%nat)
              (PDict (scene_summary (deref (objects rt) r))))
    as (text & Ht & Hl).
  - apply scene_summary_distinct, deref_distinct.
    eapply reachable_heap_distinct; eauto.
  - exact Hf.
  - apply scene_summary_encodable. eapply reachable_scene_encodable; eauto.
  - exists text. split; [|exact Hl]. unfold show_raw, pretty_json.
    rewrite Ht. reflexivity.
Qed.

Lemma show_raw_reads_back_witness :
  let rt := final (create_character no_str (u "Aryn") [] [] 5 6 3 init_session_state) in
  exists text,
    show_raw (fun _ => []) (deref (objects rt) 1%nat) = Some (st_code text) /\
    json_loads text = Some (PDict (scene_summary (deref (objects rt) 1%nat))).
Proof.
  intros rt.
  refine (show_raw_reads_back no_str _ rt 1%nat _ _ _).
  - apply reach_create; [apply reach_init | reflexivity].
  - reflexivity.
  - vm_compute. reflexivity.
Defined.







(** ** The exceptions of the update loop *)

Lemma update_dict_replacements (items : dict) : forall d : dict,
  (forall k v, (k, v) ∈ items -> isinstance_int_float v = false) ->
  (update_dict items d).2 = inl ().
Proof.
  induction items as [|[k v] items IH]; intros d H; [reflexivity|].
  cbn [update_dict]. unfold updated_value.
  rewrite (H k v (list_elem_of_here _ _)). apply IH.
  intros k' v' Hin. apply (H k' v'). apply list_elem_of_further. exact Hin.
Qed.

(** X22: the update loop raises nothing but [TypeError] (a numeric
    delta on a value that is not a number, or an assignment without a
    character), [OverflowError] (an int beyond the range of a float
    meeting a float) and [AttributeError], the last only when there is
    no character; it never ends in the rerun.  With a character, a loop
    over replacement values only (no numeric delta) always completes. *)
Theorem update_loop_exceptions (items : dict) rt :
  (forall sg, outcome (apply_state_updates items rt) = inr sg ->
     sg = Raised TypeError \/ sg = Raised OverflowError \/
     (sg = Raised AttributeError /\ pc (session rt) = None)) /\
  (forall l d, pc (session rt) = Some l -> objects rt !! l = Some d ->
     (forall k v, (k, v) ∈ items -> isinstance_int_float v = false) ->
     outcome (apply_state_updates items rt) = inl ()).
Proof.
  split.
  - intros sg H. destruct (apply_state_updates_raises items rt sg H)
      as [[->| ->]|[-> Hn]]; auto.
  - intros l d Hl Hd Hrep. rewrite (apply_state_updates_run items rt l d Hl Hd).
    cbn [outcome]. apply update_dict_replacements. exact Hrep.
Qed.
